(** * ocrkornea: region compositor, spatial attribution and field parser

    A shallow embedding of the three pieces of core logic of the
    application:

    - [parseCorneaData] (the v1 page): label-anchored regular-expression
      extraction of the corneal fields from OCR text;
    - [cropRegion], [combineRegions] and [parseRegionResults] (the v2
      editor page): tiling of cropped regions on one canvas and the
      attribution of OCR blocks back to the regions by x-coordinate;
    - the handler [POST] of [app/api/ocr/route.ts]: the two-stage
      left-column filter of a full-page capture.

    Around them, the code that feeds and reads these pieces: the mouse
    and drag handlers that make the list of regions, the loops
    [processOCR] and [processFiles] of the two pages, the export of the
    results as comma-separated values, the batch OCR route and the login
    route.

    JavaScript strings are sequences of UTF-16 code units, regular
    expressions are run by a backtracking matcher with the priorities of
    ECMAScript (leftmost start, greedy quantifiers, first alternative
    first), pixel coordinates are integers, and the numbers that the code
    divides or scales are exact rationals.

    The file has two parts: the embedding of the program, module by
    module, followed by the reference definitions the statements use and
    some sample inputs; then the properties, one section per component. *)

From Stdlib Require Import ZArith NArith QArith Qround Lia Lqa List Bool String Ascii.
From stdpp Require Import base option list gmap.

Close Scope Q_scope.
Local Open Scope nat_scope.

(** ** JavaScript strings *)

Module JS.

(** A string value: its UTF-16 code units. *)
Abbreviation jsstring := (list N).

(** A string literal of the source whose characters are all ASCII. *)
Definition js (s : string) : jsstring :=
  List.map N_of_ascii (list_ascii_of_string s).

(** [WhiteSpace] and [LineTerminator] code points: the characters
    removed by [String.prototype.trim] and matched by [\s]. *)
Definition isWhiteSpace (c : N) : bool :=
  ((9 <=? c) && (c <=? 13) || (c =? 32) || (c =? 160) || (c =? 5760)
   || (8192 <=? c) && (c <=? 8202) || (c =? 8232) || (c =? 8233)
   || (c =? 8239) || (c =? 8287) || (c =? 12288) || (c =? 65279))%N.

(** [\d] *)
Definition isDigit (c : N) : bool := ((48 <=? c) && (c <=? 57))%N.

Fixpoint trimStart (s : jsstring) : jsstring :=
  match s with
  | c :: s' => if isWhiteSpace c then trimStart s' else s
  | [] => []
  end.

Definition trimEnd (s : jsstring) : jsstring := rev (trimStart (rev s)).

Definition trim (s : jsstring) : jsstring := trimEnd (trimStart s).

(** [s.substring(a, b)] for [0 <= a <= b]; indices past the end are
    clamped to the length, as in JavaScript. *)
Definition substring (s : jsstring) (a b : nat) : jsstring :=
  take (b - a) (drop a s).

(** [s.split(sep)] for a separator of one code unit. *)
Fixpoint split (sep : N) (s : jsstring) : list jsstring :=
  match s with
  | [] => [[]]
  | c :: s' =>
      if (c =? sep)%N then [] :: split sep s'
      else match split sep s' with
           | piece :: rest => (c :: piece) :: rest
           | [] => [[c]]
           end
  end.

(** [a.join(sep)] on an array of strings. *)
Fixpoint join (sep : jsstring) (l : list jsstring) : jsstring :=
  match l with
  | [] => []
  | [x] => x
  | x :: rest => x ++ sep ++ join sep rest
  end.

Fixpoint startsWith (p s : jsstring) : bool :=
  match p, s with
  | [], _ => true
  | a :: p', b :: s' => (a =? b)%N && startsWith p' s'
  | _ :: _, [] => false
  end.

(** [s.includes(sub)] *)
Fixpoint includes (sub s : jsstring) : bool :=
  startsWith sub s ||
  match s with
  | [] => false
  | _ :: s' => includes sub s'
  end.

(** [s.indexOf(c)] for a one-character needle; [-1] when absent. *)
Fixpoint indexOfFrom (c : N) (s : jsstring) (i : Z) : Z :=
  match s with
  | [] => (-1)%Z
  | x :: s' => if (x =? c)%N then i else indexOfFrom c s' (i + 1)%Z
  end.

Definition indexOf (c : N) (s : jsstring) : Z := indexOfFrom c s 0%Z.

(** [toLowerCase] on the Basic Latin and Latin-1 letters (the range the
    field-name box and the keyword lists of this program use); other code
    units are left as they are. *)
Definition lowerUnit (c : N) : N :=
  if ((65 <=? c) && (c <=? 90))%N then (c + 32)%N
  else if ((192 <=? c) && (c <=? 222) && negb (c =? 215))%N then (c + 32)%N
  else c.

Definition toLowerCase (s : jsstring) : jsstring := List.map lowerUnit s.

(** [a.findIndex(p)]; [-1] when no element satisfies [p]. *)
Fixpoint findIndexFrom {A} (p : A -> bool) (l : list A) (i : Z) : Z :=
  match l with
  | [] => (-1)%Z
  | x :: l' => if p x then i else findIndexFrom p l' (i + 1)%Z
  end.

Definition findIndex {A} (p : A -> bool) (l : list A) : Z :=
  findIndexFrom p l 0%Z.

(** The result of [Math.max(...xs)]: [-Infinity] on the empty list. *)
Inductive extended := NegInfinity | Finite (q : Q).

Definition Math_max (xs : list Z) : extended :=
  match xs with
  | [] => NegInfinity
  | x :: xs' => Finite (inject_Z (fold_left Z.max xs' x))
  end.

End JS.

Import JS.

(** ** Regular expressions *)

Module RegExp.

(** The pattern constructs that occur in the source.  [Char p] is a
    character class given by its membership test; capture groups carry
    their number. *)
Inductive regex : Type :=
| Empty
| Char (p : N -> bool)
| Seq (r1 r2 : regex)
| Alt (r1 r2 : regex)
| Star (r : regex)
| Group (n : nat) (r : regex)
| AssertStart
| AssertEnd.

(** [r+] and [r?] (both greedy). *)
Definition Plus (r : regex) : regex := Seq r (Star r).
Definition Opt (r : regex) : regex := Alt r Empty.

(** Captures: group number to (start, end) in the subject; the most
    recent binding is first. *)
Definition captures := list (nat * (nat * nat)).

(** A matcher state is the unread rest of the subject, the index of its
    first character and the captures so far; a continuation yields the
    end index of the whole match and the final captures. *)
Definition continuation := jsstring -> nat -> captures -> option (nat * captures).

(** The loop of a greedy [r*], given the matcher of [r]: one more
    iteration is tried before the continuation, and an iteration that
    consumes nothing is rejected, as the [RepeatMatcher] of ECMAScript
    does.  Every iteration shortens the rest of the subject, so its
    length bounds the number of iterations. *)
Fixpoint repeatMatcher (m : continuation -> continuation) (k : continuation)
  (fuel : nat) : continuation :=
  fun s i c =>
    match fuel with
    | O => k s i c
    | S fuel' =>
        match m (fun s' i' c' =>
                   if length s' <? length s then repeatMatcher m k fuel' s' i' c'
                   else None) s i c with
        | Some a => Some a
        | None => k s i c
        end
    end.

(** The backtracking matcher. *)
Fixpoint matchR (r : regex) (k : continuation) {struct r} : continuation :=
  match r with
  | Empty => k
  | Char p => fun s i c =>
      match s with
      | x :: s' => if p x then k s' (S i) c else None
      | [] => None
      end
  | Seq r1 r2 => matchR r1 (matchR r2 k)
  | Alt r1 r2 => fun s i c =>
      match matchR r1 k s i c with
      | Some a => Some a
      | None => matchR r2 k s i c
      end
  | Star r' => fun s i c => repeatMatcher (matchR r') k (length s) s i c
  | Group n r' => fun s i c =>
      matchR r' (fun s' i' c' => k s' i' ((n, (i, i')) :: c')) s i c
  | AssertStart => fun s i c => if i =? 0 then k s i c else None
  | AssertEnd => fun s i c =>
      match s with
      | [] => k s i c
      | _ :: _ => None
      end
  end.

Definition accept : continuation := fun _ i c => Some (i, c).

(** Try the pattern at index [i], where [s] is the subject from [i] on,
    then at every later index. *)
Fixpoint searchFrom (r : regex) (s : jsstring) (i : nat)
  : option (nat * nat * captures) :=
  match matchR r accept s i [] with
  | Some (e, c) => Some (i, e, c)
  | None =>
      match s with
      | [] => None
      | _ :: s' => searchFrom r s' (S i)
      end
  end.

(** The array returned by a successful [match]/[exec]. *)
Record matchResult := MatchResult {
  m_input : jsstring;
  m_index : nat;
  m_end : nat;
  m_captures : captures
}.

Fixpoint lookupCapture (n : nat) (c : captures) : option (nat * nat) :=
  match c with
  | [] => None
  | (m, span) :: c' => if m =? n then Some span else lookupCapture n c'
  end.

(** [m[n]]: [None] is [undefined] (the group did not take part). *)
Definition group (m : matchResult) (n : nat) : option jsstring :=
  match n with
  | O => Some (substring (m_input m) (m_index m) (m_end m))
  | _ => match lookupCapture n (m_captures m) with
         | Some (a, b) => Some (substring (m_input m) a b)
         | None => None
         end
  end.

(** [s.match(r)] for a pattern without the [g] flag. *)
Definition String_match (s : jsstring) (r : regex) : option matchResult :=
  match searchFrom r s 0 with
  | Some (a, b, c) => Some (MatchResult s a b c)
  | None => None
  end.

(** [r.test(s)] *)
Definition test (r : regex) (s : jsstring) : bool :=
  match searchFrom r s 0 with Some _ => true | None => false end.

(** [s.search(r)] *)
Definition String_search (s : jsstring) (r : regex) : Z :=
  match searchFrom r s 0 with
  | Some (a, _, _) => Z.of_nat a
  | None => (-1)%Z
  end.

(** [s.replace(r, rep)] for a pattern with the [g] flag and a
    replacement without [$] references.  [s] is the subject from index
    [i] on; after an empty match the search resumes one character
    later. *)
Fixpoint replaceFrom (fuel : nat) (r : regex) (rep s : jsstring) (i : nat)
  : jsstring :=
  match fuel with
  | O => s
  | S fuel' =>
      match searchFrom r s i with
      | None => s
      | Some (a, b, _) =>
          take (a - i) s ++ rep ++
          (if b =? a then
             match drop (a - i) s with
             | x :: rest => x :: replaceFrom fuel' r rep rest (S a)
             | [] => []
             end
           else replaceFrom fuel' r rep (drop (b - i) s) b)
      end
  end.

Definition String_replace_g (s : jsstring) (r : regex) (rep : jsstring)
  : jsstring :=
  replaceFrom (S (length s)) r rep s 0.

(** *** Pattern atoms *)

(** [Canonicalize] of a pattern with the [i] flag and without [u]: the
    upper-case mapping, which never sends a code unit outside Basic
    Latin to one inside it. *)
Definition canonicalize (c : N) : N :=
  if ((97 <=? c) && (c <=? 122))%N then (c - 32)%N else c.

Definition chr (c : N) : regex := Char (fun x => (x =? c)%N).
Definition chr_i (c : N) : regex :=
  Char (fun x => (canonicalize x =? canonicalize c)%N).

Fixpoint seqOf (atom : N -> regex) (s : jsstring) : regex :=
  match s with
  | [] => Empty
  | [c] => atom c
  | c :: s' => Seq (atom c) (seqOf atom s')
  end.

(** A literal run of characters, case-sensitive and with the [i] flag. *)
Definition lit (s : string) : regex := seqOf chr (js s).
Definition lit_i (s : string) : regex := seqOf chr_i (js s).

Fixpoint seqs (rs : list regex) : regex :=
  match rs with
  | [] => Empty
  | [r] => r
  | r :: rs' => Seq r (seqs rs')
  end.

End RegExp.

Import RegExp.

(** ** The field parser of the v1 page *)

Module Parser.

(** [Record<string, string>]: an object with string keys, in insertion
    order.  Assigning to an existing key keeps its place. *)
Definition record := list (jsstring * jsstring).

Fixpoint strEq (a b : jsstring) : bool :=
  match a, b with
  | [], [] => true
  | x :: a', y :: b' => (x =? y)%N && strEq a' b'
  | _, _ => false
  end.

Fixpoint set (data : record) (key value : jsstring) : record :=
  match data with
  | [] => [(key, value)]
  | (k, v) :: data' =>
      if strEq k key then (k, value) :: data'
      else (k, v) :: set data' key value
  end.

Definition keys (data : record) : list jsstring := List.map fst data.

Fixpoint get (data : record) (key : jsstring) : option jsstring :=
  match data with
  | [] => None
  | (k, v) :: data' => if strEq k key then Some v else get data' key
  end.

(** *** Character classes of the patterns *)

Definition colonSpace (c : N) : bool := (c =? 58)%N || isWhiteSpace c.
Definition colonSpaceDot (c : N) : bool :=
  (c =? 58)%N || isWhiteSpace c || (c =? 46)%N.
Definition digitDot (c : N) : bool := isDigit c || (c =? 46)%N.
Definition minusDigitDot (c : N) : bool :=
  (c =? 45)%N || isDigit c || (c =? 46)%N.
Definition notDigit (c : N) : bool := negb (isDigit c).
Definition notMinusDigit (c : N) : bool := negb ((c =? 45)%N || isDigit c).

(** *** The patterns, one per regular-expression literal of the source *)

(** [/Cornea\s*Front|^Front$/i] and [/Cornea\s*Back|^Back$/i] *)
Definition reCorneaFront : regex :=
  Alt (seqs [lit_i "Cornea"; Star (Char isWhiteSpace); lit_i "Front"])
      (seqs [AssertStart; lit_i "Front"; AssertEnd]).
Definition reCorneaBack : regex :=
  Alt (seqs [lit_i "Cornea"; Star (Char isWhiteSpace); lit_i "Back"])
      (seqs [AssertStart; lit_i "Back"; AssertEnd]).

(** [/<label>[:\s]+([0-9.]+)/i] *)
Definition reLabel (label : string) : regex :=
  seqs [lit_i label; Plus (Char colonSpace); Group 1 (Plus (Char digitDot))].

(** [/<label>[:\s]+([-0-9.]+)/i] *)
Definition reLabelSigned (label : string) : regex :=
  seqs [lit_i label; Plus (Char colonSpace);
        Group 1 (Plus (Char minusDigitDot))].

(** [/Axis[^\d]*(flat)?[:\s]*([0-9.]+)/i] *)
Definition reAxis : regex :=
  seqs [lit_i "Axis"; Star (Char notDigit); Opt (Group 1 (lit_i "flat"));
        Star (Char colonSpace); Group 2 (Plus (Char digitDot))].

(** [/([0-9.]+)\s*°/] *)
Definition reDegree : regex :=
  seqs [Group 1 (Plus (Char digitDot)); Star (Char isWhiteSpace); chr 176].

(** [/Q-val[^-\d]*([-0-9.]+)/i] *)
Definition reQval : regex :=
  seqs [lit_i "Q-val"; Star (Char notMinusDigit);
        Group 1 (Plus (Char minusDigitDot))].

(** [/Pupil Center[:\s]+[+]?([0-9.]+)/i] *)
Definition rePupilCenter : regex :=
  seqs [lit_i "Pupil Center"; Plus (Char colonSpace); Opt (chr_i 43);
        Group 1 (Plus (Char digitDot))].

(** [/Thinnest Local[:\s]+[◇]?\s*([0-9.]+)/i]; the glyph is U+25C7. *)
Definition reThinnestLocal : regex :=
  seqs [lit_i "Thinnest Local"; Plus (Char colonSpace); Opt (chr_i 9671);
        Star (Char isWhiteSpace); Group 1 (Plus (Char digitDot))].

(** [/Depth/i] *)
Definition reDepth : regex := lit_i "Depth".

(** [/([0-9]+\.[0-9]+)/] *)
Definition reDecimal : regex :=
  Group 1 (seqs [Plus (Char isDigit); chr 46; Plus (Char isDigit)]).

(** [/Pupil\s+Dia[:\s.]+([0-9.]+)/i] *)
Definition rePupilDia : regex :=
  seqs [lit_i "Pupil"; Plus (Char isWhiteSpace); lit_i "Dia";
        Plus (Char colonSpaceDot); Group 1 (Plus (Char digitDot))].

(** [/Pupil\s*Diameter[:\s]+([0-9.]+)/i] *)
Definition rePupilDiameter : regex :=
  seqs [lit_i "Pupil"; Star (Char isWhiteSpace); lit_i "Diameter";
        Plus (Char colonSpace); Group 1 (Plus (Char digitDot))].

(** *** Section split *)

Definition nonEmpty (s : jsstring) : bool :=
  match s with [] => false | _ :: _ => true end.

(** [text.split('\n').map(line => line.trim()).filter(line => line.length > 0)] *)
Definition lines (text : jsstring) : list jsstring :=
  List.filter nonEmpty (List.map trim (split 10 text)).

Definition frontIndex (text : jsstring) : Z :=
  findIndex (test reCorneaFront) (lines text).
Definition backIndex (text : jsstring) : Z :=
  findIndex (test reCorneaBack) (lines text).

(** [a.slice(from, to)] and [a.slice(from)] for indices that are not
    negative (the only ones the parser passes). *)
Definition slice {A} (l : list A) (from to : Z) : list A :=
  take (Z.to_nat to - Z.to_nat from) (drop (Z.to_nat from) l).
Definition sliceFrom {A} (l : list A) (from : Z) : list A :=
  drop (Z.to_nat from) l.

(** [Math.floor(lines.length / 2)] *)
Definition midpoint (text : jsstring) : Z :=
  Z.of_nat (length (lines text) / 2).

Definition bothFound (text : jsstring) : bool :=
  negb (frontIndex text =? -1)%Z && negb (backIndex text =? -1)%Z
  && (backIndex text >? frontIndex text)%Z.
Definition oneFound (text : jsstring) : bool :=
  negb (frontIndex text =? -1)%Z || negb (backIndex text =? -1)%Z.

Definition frontText (text : jsstring) : jsstring :=
  if bothFound text then
    join (js " ") (slice (lines text) (frontIndex text) (backIndex text))
  else if oneFound text then
    join (js " ") (slice (lines text) 0 (midpoint text))
  else text.

Definition backText (text : jsstring) : jsstring :=
  if bothFound text then
    join (js " ") (sliceFrom (lines text) (backIndex text))
  else if oneFound text then
    join (js " ") (sliceFrom (lines text) (midpoint text))
  else text.

(** *** Field gating *)

(** [fields ? fields.split(',').map(f => f.trim().toLowerCase()) : []] *)
Definition requestedFields (fields : jsstring) : list jsstring :=
  match fields with
  | [] => []
  | _ :: _ => List.map (fun f => toLowerCase (trim f)) (split 44 fields)
  end.

(** The localized synonym of "all": t, u-umlaut, m, u-umlaut. *)
Definition tumu : jsstring := [116; 252; 109; 252]%N.

Definition extractAll (fields : jsstring) : bool :=
  (length (requestedFields fields) =? 0)
  || existsb (strEq tumu) (requestedFields fields)
  || existsb (strEq (js "all")) (requestedFields fields).

(** [extractAll || requestedFields.some(f => f.includes(k1) || ...)] *)
Definition wanted (fields : jsstring) (keywords : list string) : bool :=
  extractAll fields
  || existsb (fun f => existsb (fun k => includes (js k) f) keywords)
       (requestedFields fields).

(** *** Value extraction *)

Definition sentinel : jsstring := js "-".

(** [a || b] on a possibly undefined string: the empty string is falsy. *)
Definition orElse (a : option jsstring) (b : jsstring) : jsstring :=
  match a with
  | Some (c :: a') => c :: a'
  | _ => b
  end.

Definition extractValue (text : jsstring) (pattern : regex) (groupIndex : nat)
  : jsstring :=
  match String_match text pattern with
  | None => sentinel
  | Some m =>
      match group m groupIndex with
      | Some (c :: value) => trim (c :: value)
      | _ => sentinel
      end
  end.

Definition extractValueWithNegative (text : jsstring) (pattern : regex)
  (groupIndex : nat) : jsstring :=
  match String_match text pattern with
  | None => sentinel
  | Some m =>
      match group m groupIndex with
      | Some (c :: value) => trim (c :: value)
      | _ => sentinel
      end
  end.

(** [text.match(reAxis) || text.match(reDegree)], then
    [m ? (m[2] || m[1] || '-') : '-'] *)
Definition axisValue (text : jsstring) : jsstring :=
  let axisMatch :=
    match String_match text reAxis with
    | Some m => Some m
    | None => String_match text reDegree
    end in
  match axisMatch with
  | Some m => orElse (group m 2) (orElse (group m 1) sentinel)
  | None => sentinel
  end.

(** The anterior-chamber depth: the window of 150 code units that
    starts at the first "Depth", its first colon, the first decimal
    number after that colon. *)
Definition acDepthValue (text : jsstring) : jsstring :=
  let depthIndex := String_search text reDepth in
  if (depthIndex =? -1)%Z then sentinel
  else
    let afterDepth :=
      substring text (Z.to_nat depthIndex) (Z.to_nat (depthIndex + 150)) in
    let colonIndex := indexOf 58 afterDepth in
    if (colonIndex =? -1)%Z then sentinel
    else
      let afterColon := drop (Z.to_nat (colonIndex + 1)) afterDepth in
      match String_match afterColon reDecimal with
      | Some numberMatch => default [] (group numberMatch 1)
      | None => sentinel
      end.

Definition pupilDiaValue (text : jsstring) : jsstring :=
  let pupilDiaMatch :=
    match String_match text rePupilDia with
    | Some m => Some m
    | None => String_match text rePupilDiameter
    end in
  match pupilDiaMatch with
  | Some m => default [] (group m 1)
  | None => sentinel
  end.

(** *** The parser *)

(** Each [if] block of the source takes the object built so far and adds
    the keys of its group when the group is requested. *)

Definition frontRadius (fields frontText : jsstring) (data : record) : record :=
  if wanted fields ["rh"; "radius"]%string then
    let data := set data (js "Front_Rh") (extractValue frontText (reLabel "Rh") 1) in
    let data := set data (js "Front_Rv") (extractValue frontText (reLabel "Rv") 1) in
    set data (js "Front_Rm") (extractValue frontText (reLabel "Rm") 1)
  else data.

Definition frontKeratometry (fields frontText : jsstring) (data : record) : record :=
  if wanted fields ["k"; "keratometry"]%string then
    let data := set data (js "Front_K1") (extractValue frontText (reLabel "K1") 1) in
    let data := set data (js "Front_K2") (extractValue frontText (reLabel "K2") 1) in
    set data (js "Front_Km") (extractValue frontText (reLabel "Km") 1)
  else data.

Definition frontAxisAstig (fields frontText : jsstring) (data : record) : record :=
  if wanted fields ["axis"; "astig"]%string then
    let data := set data (js "Front_Axis") (axisValue frontText) in
    set data (js "Front_Astig") (extractValue frontText (reLabel "Astig") 1)
  else data.

Definition frontQval (fields frontText : jsstring) (data : record) : record :=
  if wanted fields ["q"]%string then
    set data (js "Front_Q-val") (extractValue frontText reQval 1)
  else data.

Definition frontRperRmin (fields frontText : jsstring) (data : record) : record :=
  if wanted fields ["rper"; "rmin"]%string then
    let data := set data (js "Front_Rper") (extractValue frontText (reLabel "Rper") 1) in
    set data (js "Front_Rmin") (extractValue frontText (reLabel "Rmin") 1)
  else data.

Definition backRadius (fields backText : jsstring) (data : record) : record :=
  if wanted fields ["rh"; "radius"]%string then
    let data := set data (js "Back_Rh") (extractValueWithNegative backText (reLabel "Rh") 1) in
    let data := set data (js "Back_Rv") (extractValueWithNegative backText (reLabel "Rv") 1) in
    set data (js "Back_Rm") (extractValueWithNegative backText (reLabel "Rm") 1)
  else data.

(** "Back - Keratometry (may be negative)": the only labelled group
    whose class admits the minus sign. *)
Definition backKeratometry (fields backText : jsstring) (data : record) : record :=
  if wanted fields ["k"; "keratometry"]%string then
    let data := set data (js "Back_K1") (extractValueWithNegative backText (reLabelSigned "K1") 1) in
    let data := set data (js "Back_K2") (extractValueWithNegative backText (reLabelSigned "K2") 1) in
    set data (js "Back_Km") (extractValueWithNegative backText (reLabelSigned "Km") 1)
  else data.

Definition backAxisAstig (fields backText : jsstring) (data : record) : record :=
  if wanted fields ["axis"; "astig"]%string then
    let data := set data (js "Back_Axis") (axisValue backText) in
    set data (js "Back_Astig") (extractValueWithNegative backText (reLabel "Astig") 1)
  else data.

Definition backQval (fields backText : jsstring) (data : record) : record :=
  if wanted fields ["q"]%string then
    set data (js "Back_Q-val") (extractValueWithNegative backText reQval 1)
  else data.

Definition backRperRmin (fields backText : jsstring) (data : record) : record :=
  if wanted fields ["rper"; "rmin"]%string then
    let data := set data (js "Back_Rper") (extractValueWithNegative backText (reLabel "Rper") 1) in
    set data (js "Back_Rmin") (extractValueWithNegative backText (reLabel "Rmin") 1)
  else data.

(** Pachymetry, from the whole text. *)
Definition pachymetry (fields text : jsstring) (data : record) : record :=
  if wanted fields ["pachy"]%string then
    let data := set data (js "Pachy_Center") (extractValue text rePupilCenter 1) in
    let data := set data (js "Pachy_Apex") (extractValue text (reLabel "Pachy Apex") 1) in
    set data (js "Pachy_Thinnest") (extractValue text reThinnestLocal 1)
  else data.

(** A.C. Depth and Pupil Dia, from the whole text. *)
Definition acDepthPupilDia (fields text : jsstring) (data : record) : record :=
  if wanted fields ["ac"; "depth"; "pupil"]%string then
    let data := set data (js "AC_Depth") (acDepthValue text) in
    set data (js "Pupil_Dia") (pupilDiaValue text)
  else data.

Definition parseCorneaData (text fields : jsstring) : record :=
  let data : record := [] in
  let frontText := frontText text in
  let backText := backText text in
  let data := frontRadius fields frontText data in
  let data := frontKeratometry fields frontText data in
  let data := frontAxisAstig fields frontText data in
  let data := frontQval fields frontText data in
  let data := frontRperRmin fields frontText data in
  let data := backRadius fields backText data in
  let data := backKeratometry fields backText data in
  let data := backAxisAstig fields backText data in
  let data := backQval fields backText data in
  let data := backRperRmin fields backText data in
  let data := pachymetry fields text data in
  let data := acDepthPupilDia fields text data in
  data.

End Parser.

Import Parser.

(** ** Numbers shared by the two attribution modes *)

Module Geometry.

(** A vertex of a bounding box as the detector returns it; a coordinate
    may be missing. *)
Record Vertex := { vx : option Z; vy : option Z }.

(** [v.x || 0] *)
Definition xOrZero (v : Vertex) : Z := default 0%Z (vx v).

Definition Qltb (a b : Q) : bool := negb (Qle_bool b a).

(** [vertices.reduce((sum, v) => sum + (v.x || 0), 0) / vertices.length]
    for a non-empty array. *)
Definition avgX (vertices : list Vertex) : Q :=
  Qmake (fold_left (fun sum v => (sum + xOrZero v)%Z) vertices 0%Z)
        (Pos.of_nat (length vertices)).

(** [a < t] where [t] may be [-Infinity]. *)
Definition ltExtended (a : Q) (t : extended) : bool :=
  match t with
  | NegInfinity => false
  | Finite q => Qltb a q
  end.

Definition scale (t : extended) (factor : Q) : extended :=
  match t with
  | NegInfinity => NegInfinity
  | Finite q => Finite (q * factor)%Q
  end.

End Geometry.

Import Geometry.

(** ** The region compositor and the per-region attribution (v2 editor) *)

Module Editor.

(** A promise that has settled. *)
Inductive promise (A : Type) : Type :=
| Resolved (a : A)
| Rejected (error : jsstring).
Arguments Resolved {A} a.
Arguments Rejected {A} error.

Definition andThen {A B} (p : promise A) (k : A -> promise B) : promise B :=
  match p with
  | Resolved a => k a
  | Rejected e => Rejected e
  end.

Notation "'await' x <- p ;; k" := (andThen p (fun x => k))
  (at level 10, x name, p at level 99, k at level 200).

Record Rectangle := {
  id : jsstring;
  label : jsstring;
  x : Q;
  y : Q;
  width : Q;
  height : Q
}.

(** The image a file decodes to ([None]: the file is not an image). *)
Record Image := { naturalWidth : Z; naturalHeight : Z }.
Definition File := option Image.

(** A PNG blob, known by the size of the bitmap it encodes. *)
Record Blob := { blobWidth : Z; blobHeight : Z }.

(** Assigning a number to [canvas.width] or [canvas.height]: the value
    is truncated to an integer modulo 2^32 and, when it does not fit the
    non-negative 31-bit range, replaced by the attribute's default. *)
Definition truncate (q : Q) : Z :=
  if Qle_bool 0 q then Qfloor q else Qceiling q.

Definition canvasSize (q : Q) (dflt : Z) : Z :=
  let n := (truncate q mod 4294967296)%Z in
  if (n <=? 2147483647)%Z then n else dflt.

(** [canvas.toBlob] hands [null] to its callback when the bitmap has no
    pixels. *)
Definition toBlob (w h : Z) : option Blob :=
  if ((w =? 0) || (h =? 0))%Z then None
  else Some {| blobWidth := w; blobHeight := h |}.

Definition cropRegion (file : File) (rect : Rectangle) : promise Blob :=
  match file with
  | None => Rejected (js "Could not load image")
  | Some img =>
      let width := (width rect * inject_Z (naturalWidth img))%Q in
      let height := (height rect * inject_Z (naturalHeight img))%Q in
      let canvasWidth := canvasSize width 300 in
      let canvasHeight := canvasSize height 150 in
      match toBlob canvasWidth canvasHeight with
      | Some blob => Resolved blob
      | None => Rejected (js "Could not create blob")
      end
  end.

Record CroppedImage := {
  c_id : jsstring;
  c_blob : Blob;
  c_width : Z;
  c_height : Z
}.

Record Boundary := { b_id : jsstring; xStart : Z; xEnd : Z }.

Definition GAP : Z := 10.

(** First loop of [combineRegions]: crop every region, in order, and
    read the size of each crop back from its blob. *)
Fixpoint cropAll (file : File) (rects : list Rectangle)
  : promise (list CroppedImage) :=
  match rects with
  | [] => Resolved []
  | rect :: rects' =>
      await blob <- cropRegion file rect ;;
      await croppedImages <- cropAll file rects' ;;
      Resolved ({| c_id := id rect; c_blob := blob;
                   c_width := blobWidth blob;
                   c_height := blobHeight blob |} :: croppedImages)
  end.

(** Second loop: draw the crops left to right from [currentX] and record
    the range of each. *)
Fixpoint drawAll (croppedImages : list CroppedImage) (currentX : Z)
  : list Boundary :=
  match croppedImages with
  | [] => []
  | croppedImg :: rest =>
      {| b_id := c_id croppedImg;
         xStart := currentX;
         xEnd := currentX + c_width croppedImg |}
      :: drawAll rest (currentX + c_width croppedImg + GAP)
  end.

(** What [combineRegions] returns: the boundaries, and the composite
    image, known here by the values assigned to the width and the height
    of its canvas. *)
Record Combined := {
  totalWidth : Z;
  maxHeight : extended;
  boundaries : list Boundary
}.

Definition sumWidths (croppedImages : list CroppedImage) : Z :=
  fold_left (fun sum img => (sum + c_width img)%Z) croppedImages 0%Z.

Definition combineRegions (file : File) (rects : list Rectangle)
  : promise Combined :=
  await croppedImages <- cropAll file rects ;;
  Resolved
    {| totalWidth :=
         (sumWidths croppedImages
          + GAP * (Z.of_nat (length croppedImages) - 1))%Z;
       maxHeight := Math_max (List.map c_height croppedImages);
       boundaries := drawAll croppedImages 0 |}.

(** *** Attribution of the OCR blocks to the regions *)

(** A block of the route's answer; a description that is missing joins
    as the empty string, which stands for it here. *)
Record TextBlock := {
  description : jsstring;
  boundingBox : option (list Vertex)
}.

(** The first boundary whose range holds [avgX] (the [for ... break]
    loop). *)
Fixpoint regionOf (boundaries : list Boundary) (avgX : Q) : option jsstring :=
  match boundaries with
  | [] => None
  | boundary :: rest =>
      if Qle_bool (inject_Z (xStart boundary)) avgX
         && Qltb avgX (inject_Z (xEnd boundary))
      then Some (b_id boundary)
      else regionOf rest avgX
  end.

(** The region a block is pushed to, if any. *)
Definition blockRegion (boundaries : list Boundary) (block : TextBlock)
  : option jsstring :=
  match boundingBox block with
  | None | Some [] => None
  | Some (v :: vs) => regionOf boundaries (avgX (v :: vs))
  end.

Definition initResults (boundaries : list Boundary)
  : gmap jsstring (list jsstring) :=
  fold_left (fun results b => <[b_id b := []]> results) boundaries ∅.

Definition pushBlock (boundaries : list Boundary)
  (results : gmap jsstring (list jsstring)) (block : TextBlock)
  : gmap jsstring (list jsstring) :=
  match blockRegion boundaries block with
  | Some region => alter (fun texts => texts ++ [description block]) region results
  | None => results
  end.

(** [/\s+/g] *)
Definition reSpaces : regex := Plus (Char isWhiteSpace).

(** [texts.join(' ').replace(/\s+/g, ' ').trim() || '-'] *)
Definition combineTexts (texts : list jsstring) : jsstring :=
  orElse (Some (trim (String_replace_g (join (js " ") texts) reSpaces (js " "))))
         (js "-").

Definition parseRegionResults (textBlocks : list TextBlock)
  (boundaries : list Boundary) : gmap jsstring jsstring :=
  let results := initResults boundaries in
  let results := fold_left (pushBlock boundaries) textBlocks results in
  combineTexts <$> results.

End Editor.

Import Editor.

(** ** Full-page attribution (the OCR route) *)

Module Route.

Record EntityAnnotation := {
  description : option jsstring;
  vertices : option (list Vertex)      (* [boundingPoly?.vertices] *)
}.

(** An element of the [detections] array together with its position,
    which stands for the identity of the object: [includes] compares
    objects by reference and every slot of the array holds an object of
    its own. *)
Definition block := (nat * EntityAnnotation)%type.

Definition objects (detections : list EntityAnnotation) : list block :=
  combine (seq 0 (length detections)) detections.

(** [detections.slice(1)] *)
Definition slice1 (detections : list EntityAnnotation) : list block :=
  drop 1 (objects detections).

(** [firstBBox ? Math.max(...firstBBox.map(v => v.x || 0)) : 1000] *)
Definition imageWidth (detections : list EntityAnnotation) : extended :=
  match detections with
  | d :: _ =>
      match vertices d with
      | Some firstBBox => Math_max (List.map xOrZero firstBBox)
      | None => Finite 1000
      end
  | [] => Finite 1000
  end.

(** [imageWidth * 0.33] and [imageWidth * 0.50], with the factors read
    as the rationals they are written as. *)
Definition leftThreshold (detections : list EntityAnnotation) : extended :=
  scale (imageWidth detections) (33 # 100).
Definition extendedThreshold (detections : list EntityAnnotation) : extended :=
  scale (imageWidth detections) (50 # 100).

(** [text.description?.toLowerCase() || ''] *)
Definition desc (text : EntityAnnotation) : jsstring :=
  match description text with
  | Some d => toLowerCase d
  | None => []
  end.

Definition isRelevant (text : EntityAnnotation) : bool :=
  includes (js "depth") (desc text) || includes (js "pupil") (desc text)
  || includes (js "chamber") (desc text) || includes (js "iop") (desc text)
  || includes (js "pachy") (desc text) || includes (js "lens") (desc text)
  || includes (js "dia") (desc text).

(** The filter callback of [mainDataBlocks]. *)
Definition isMain (detections : list EntityAnnotation) (b : block) : bool :=
  match vertices (snd b) with
  | None | Some [] => false
  | Some (v :: vs) => ltExtended (avgX (v :: vs)) (leftThreshold detections)
  end.

(** The filter callback of [extendedDataBlocks]. *)
Definition isExtended (detections : list EntityAnnotation) (b : block) : bool :=
  match vertices (snd b) with
  | None | Some [] => false
  | Some (v :: vs) =>
      ltExtended (avgX (v :: vs)) (extendedThreshold detections)
      && isRelevant (snd b)
  end.

Definition mainDataBlocks (detections : list EntityAnnotation) : list block :=
  List.filter (isMain detections) (slice1 detections).

Definition extendedDataBlocks (detections : list EntityAnnotation) : list block :=
  List.filter (isExtended detections) (slice1 detections).

(** [blocks.includes(b)]: the same object. *)
Definition includesBlock (blocks : list block) (b : block) : bool :=
  existsb (fun b' => fst b' =? fst b) blocks.

(** [[...mainDataBlocks]] followed by the [forEach] that pushes the
    extended blocks not already there. *)
Definition combinedBlocks (detections : list EntityAnnotation) : list block :=
  fold_left
    (fun combined b =>
       if includesBlock (mainDataBlocks detections) b then combined
       else combined ++ [b])
    (extendedDataBlocks detections)
    (mainDataBlocks detections).

(** [blocks.map(block => block.description).join('\n')]: a missing
    description joins as the empty string. *)
Definition joinDescriptions (blocks : list block) : jsstring :=
  join [10%N] (List.map (fun b => default [] (description (snd b))) blocks).

(** [detections[0]?.description || ''] *)
Definition summaryText (detections : list EntityAnnotation) : jsstring :=
  match detections with
  | d :: _ => default [] (description d)
  | [] => []
  end.

Definition filteredTextBlocks (detections : list EntityAnnotation)
  (imageType : jsstring) : list block :=
  if strEq imageType (js "full") then combinedBlocks detections
  else slice1 detections.

Definition processedText (detections : list EntityAnnotation)
  (imageType : jsstring) : jsstring :=
  if strEq imageType (js "full") then
    orElse (Some (joinDescriptions (filteredTextBlocks detections imageType)))
           (summaryText detections)
  else summaryText detections.

Inductive Response :=
| NotFound                                   (* status 404 *)
| Success (fullText : jsstring) (textBlocks : list EntityAnnotation).

(** The handler, from the detector's answer on: [textAnnotations] may be
    missing or empty. *)
Definition POST (textAnnotations : option (list EntityAnnotation))
  (imageType : jsstring) : Response :=
  match textAnnotations with
  | None | Some [] => NotFound
  | Some detections =>
      Success (processedText detections imageType)
              (List.map snd (filteredTextBlocks detections imageType))
  end.

End Route.

Import Route.

(** ** Reference semantics and direct readings *)

(** The definitions of this part do not come from the source: they say
    what the patterns mean and restate, with direct scans, what the
    specification says in words.  The theorems below compare the program
    with them. *)

Module Reference.

(** *** What a pattern may match *)

Definition state := (jsstring * nat * captures)%type.

(** [matches r a b]: from state [a] the pattern [r] can consume a prefix
    of the subject and end in state [b]. *)
Inductive matches : regex -> state -> state -> Prop :=
| M_Empty st : matches Empty st st
| M_Char p ch s i c :
    p ch = true -> matches (Char p) (ch :: s, i, c) (s, S i, c)
| M_Seq r1 r2 a b d :
    matches r1 a b -> matches r2 b d -> matches (Seq r1 r2) a d
| M_AltL r1 r2 a b : matches r1 a b -> matches (Alt r1 r2) a b
| M_AltR r1 r2 a b : matches r2 a b -> matches (Alt r1 r2) a b
| M_StarStop r a : matches (Star r) a a
| M_StarStep r a b d :
    matches r a b -> length b.1.1 < length a.1.1 ->
    matches (Star r) b d -> matches (Star r) a d
| M_Group n r s i c s' i' c' :
    matches r (s, i, c) (s', i', c') ->
    matches (Group n r) (s, i, c) (s', i', (n, (i, i')) :: c')
| M_Start s c : matches AssertStart (s, 0, c) (s, 0, c)
| M_End i c : matches AssertEnd ([], i, c) ([], i, c).

(** A greedy [[class]*] written as a scan of the subject. *)
Fixpoint starChar (p : N -> bool) (k : continuation) (s : jsstring) (i : nat)
  (c : captures) : option (nat * captures) :=
  match s with
  | ch :: s' =>
      if p ch then
        match starChar p k s' (S i) c with
        | Some a => Some a
        | None => k s i c
        end
      else k s i c
  | [] => k s i c
  end.

Fixpoint takeWhile (p : N -> bool) (s : jsstring) : jsstring :=
  match s with
  | ch :: s' => if p ch then ch :: takeWhile p s' else []
  | [] => []
  end.

Fixpoint dropWhile (p : N -> bool) (s : jsstring) : jsstring :=
  match s with
  | ch :: s' => if p ch then dropWhile p s' else s
  | [] => []
  end.

(** *** The anterior-chamber depth, in the words of the specification *)

(** [s] begins with the word [w], letter case ignored. *)
Fixpoint startsWith_i (w s : jsstring) : bool :=
  match w, s with
  | [], _ => true
  | a :: w', b :: s' =>
      (canonicalize b =? canonicalize a)%N && startsWith_i w' s'
  | _ :: _, [] => false
  end.

(** The word [w] occurs somewhere in [text], letter case ignored. *)
Definition occurs_i (w text : jsstring) : Prop :=
  exists pre post, text = pre ++ post /\ startsWith_i w post = true.

(** Index of the first such occurrence, counting from [i]. *)
Fixpoint firstOccurrence_i (w s : jsstring) (i : nat) : option nat :=
  if startsWith_i w s then Some i
  else match s with
       | [] => None
       | _ :: s' => firstOccurrence_i w s' (S i)
       end.

(** What follows the first colon. *)
Fixpoint afterFirstColon (s : jsstring) : option jsstring :=
  match s with
  | [] => None
  | ch :: s' => if (ch =? 58)%N then Some s' else afterFirstColon s'
  end.

(** The decimal number that starts at the head of [s]: a run of digits,
    a dot, a run of digits, both runs as long as they can be. *)
Definition decimalAt (s : jsstring) : option jsstring :=
  match takeWhile isDigit s, dropWhile isDigit s with
  | d :: whole, dot :: rest =>
      if (dot =? 46)%N then
        match takeWhile isDigit rest with
        | [] => None
        | f :: frac => Some ((d :: whole) ++ [46%N] ++ f :: frac)
        end
      else None
  | _, _ => None
  end.

(** The first decimal number of [s], from left to right. *)
Fixpoint firstDecimal (s : jsstring) : option jsstring :=
  match decimalAt s with
  | Some d => Some d
  | None => match s with
            | [] => None
            | _ :: s' => firstDecimal s'
            end
  end.

(** A decimal number: digits, a dot, digits. *)
Definition isDecimal (d : jsstring) : Prop :=
  exists whole frac,
    d = whole ++ [46%N] ++ frac /\ whole <> [] /\ frac <> []
    /\ Forall (fun ch => isDigit ch = true) whole
    /\ Forall (fun ch => isDigit ch = true) frac.

(** The rule of the specification: the window of 150 characters that
    starts at the first "Depth", its first colon, the first decimal
    number after it; the sentinel when any of the three is missing. *)
Definition acDepthSpec (text : jsstring) : jsstring :=
  match firstOccurrence_i (js "Depth") text 0 with
  | None => sentinel
  | Some i =>
      match afterFirstColon (take 150 (drop i text)) with
      | None => sentinel
      | Some rest => default sentinel (firstDecimal rest)
      end
  end.

(** *** Values, keys, ranges *)

(** A value that is the sentinel or written with digits and dots only. *)
Definition unsignedOrSentinel (v : jsstring) : Prop :=
  v = sentinel \/ (v <> [] /\ Forall (fun ch => digitDot ch = true) v).

(** The keys of an object after an assignment to [key]. *)
Fixpoint addKey (ks : list jsstring) (key : jsstring) : list jsstring :=
  match ks with
  | [] => [key]
  | k :: ks' => if strEq k key then k :: ks' else k :: addKey ks' key
  end.

(** [q] lies in the half-open range of a boundary. *)
Definition inRange (b : Boundary) (q : Q) : Prop :=
  (inject_Z (xStart b) <= q)%Q /\ (q < inject_Z (xEnd b))%Q.

(** The texts of the blocks pushed to [region], in block order. *)
Definition textsOf (boundaries : list Boundary) (region : jsstring)
  (textBlocks : list TextBlock) : list jsstring :=
  List.map Editor.description
    (filter (fun block => blockRegion boundaries block = Some region) textBlocks).

(** Every run of white space becomes one space; [inRun] tells that the
    previous character was white space. *)
Fixpoint collapseSpaces (inRun : bool) (s : jsstring) : jsstring :=
  match s with
  | [] => []
  | ch :: s' =>
      if isWhiteSpace ch then
        if inRun then collapseSpaces true s' else 32%N :: collapseSpaces true s'
      else ch :: collapseSpaces false s'
  end.

(** The canvas of the crop of [rect] has no pixels. *)
Definition degenerate (img : Image) (rect : Rectangle) : bool :=
  ((canvasSize (width rect * inject_Z (naturalWidth img)) 300 =? 0)
   || (canvasSize (height rect * inject_Z (naturalHeight img)) 150 =? 0))%Z.

End Reference.

Import Reference.

(** ** Sample inputs *)

Module Samples.

Definition nl : jsstring := [10%N].

Definition kExampleText : jsstring :=
  js "Cornea Front" ++ nl ++ js "K1: 43.50" ++ nl ++ js "K2: 44.20" ++ nl ++
  js "Cornea Back" ++ nl ++ js "K1: -6.10" ++ nl ++ js "K2: -6.30".

Definition keratometryKeys : list jsstring :=
  [js "Front_K1"; js "Front_K2"; js "Front_Km";
   js "Back_K1"; js "Back_K2"; js "Back_Km"].

(** Every key the parser can add, in insertion order. *)
Definition allKeys : list jsstring :=
  [js "Front_Rh"; js "Front_Rv"; js "Front_Rm";
   js "Front_K1"; js "Front_K2"; js "Front_Km";
   js "Front_Axis"; js "Front_Astig"; js "Front_Q-val";
   js "Front_Rper"; js "Front_Rmin";
   js "Back_Rh"; js "Back_Rv"; js "Back_Rm";
   js "Back_K1"; js "Back_K2"; js "Back_Km";
   js "Back_Axis"; js "Back_Astig"; js "Back_Q-val";
   js "Back_Rper"; js "Back_Rmin";
   js "Pachy_Center"; js "Pachy_Apex"; js "Pachy_Thinnest";
   js "AC_Depth"; js "Pupil_Dia"].

(** A back section whose radius is printed with a sign. *)
Definition signedRadiusText : jsstring :=
  js "Cornea Front" ++ nl ++ js "Rh: 7.70" ++ nl ++
  js "Cornea Back" ++ nl ++ js "Rh: -6.10".

Definition unsignedRadiusText : jsstring :=
  js "Cornea Front" ++ nl ++ js "Rh: 7.70" ++ nl ++
  js "Cornea Back" ++ nl ++ js "Rh: 6.10".

Definition depthExample : jsstring := js "A.C. Depth(Int.): 3.22 mm".

(** An image of 1000 x 800 pixels and three regions, one of them flat. *)
Definition sampleFile : File :=
  Some {| naturalWidth := 1000; naturalHeight := 800 |}.
Definition sampleImage : Image :=
  {| naturalWidth := 1000; naturalHeight := 800 |}.

Definition regionA : Rectangle :=
  {| id := js "a"; label := js "Alan 1";
     x := 0; y := 0; width := 1 # 4; height := 1 # 2 |}.
Definition regionB : Rectangle :=
  {| id := js "b"; label := js "Alan 2";
     x := 1 # 2; y := 0; width := 3 # 10; height := 1 # 4 |}.
Definition flatRegion : Rectangle :=
  {| id := js "flat"; label := js "Alan 3";
     x := 1 # 2; y := 0; width := 0; height := 1 # 4 |}.

Definition sampleBoundaries : list Boundary :=
  [ {| b_id := js "a"; xStart := 0; xEnd := 250 |};
    {| b_id := js "b"; xStart := 260; xEnd := 560 |} ].

(** An axis-aligned box from [x0] to [x1]. *)
Definition box (x0 x1 : Z) : list Vertex :=
  [ {| vx := Some x0; vy := Some 0%Z |}; {| vx := Some x1; vy := Some 0%Z |};
    {| vx := Some x1; vy := Some 20%Z |}; {| vx := Some x0; vy := Some 20%Z |} ].

Definition textBlock (d : string) (x0 x1 : Z) : TextBlock :=
  {| Editor.description := js d; boundingBox := Some (box x0 x1) |}.

Definition sampleBlocks : list TextBlock :=
  [ textBlock "K1" 10 30; textBlock " 43.5  D" 40 90;
    textBlock "gap" 250 260; textBlock "Rh" 300 310 ].

Definition word (d : string) (x0 x1 : Z) : EntityAnnotation :=
  {| Route.description := Some (js d); vertices := Some (box x0 x1) |}.

(** A page 1000 pixels wide on which the detector reports a keyword
    block of the extended column before a block of the left column. *)
Definition outOfOrder : list EntityAnnotation :=
  [word "Depth K1" 0 1000; word "Depth" 380 420; word "K1" 80 120].

(** A page whose two words both lie in the right part. *)
Definition rightOnly : list EntityAnnotation :=
  [word "K1 43.5" 0 1000; word "K1" 880 920; word "43.5" 930 970].

End Samples.

Import Samples.

(** ** Further readings of the parser *)

Module Readings.

(** A pattern that ends in the group [n] of the form [([class]+)]. *)
Inductive endsWithGroup (n : nat) (p : N -> bool) : regex -> Prop :=
| EG_group : endsWithGroup n p (Group n (Plus (Char p)))
| EG_seq A R : endsWithGroup n p R -> endsWithGroup n p (Seq A R).

(** A value written with digits, dots and minus signs only, and not
    empty; the sentinel is one. *)
Definition numeric (v : jsstring) : Prop :=
  v <> [] /\ Forall (fun ch => minusDigitDot ch = true) v.

(** The [if] blocks of the parser in source order: the keywords of the
    gate and the keys the block assigns. *)
Definition blockTable : list (list string * list jsstring) :=
  [ (["rh"; "radius"], [js "Front_Rh"; js "Front_Rv"; js "Front_Rm"]);
    (["k"; "keratometry"], [js "Front_K1"; js "Front_K2"; js "Front_Km"]);
    (["axis"; "astig"], [js "Front_Axis"; js "Front_Astig"]);
    (["q"], [js "Front_Q-val"]);
    (["rper"; "rmin"], [js "Front_Rper"; js "Front_Rmin"]);
    (["rh"; "radius"], [js "Back_Rh"; js "Back_Rv"; js "Back_Rm"]);
    (["k"; "keratometry"], [js "Back_K1"; js "Back_K2"; js "Back_Km"]);
    (["axis"; "astig"], [js "Back_Axis"; js "Back_Astig"]);
    (["q"], [js "Back_Q-val"]);
    (["rper"; "rmin"], [js "Back_Rper"; js "Back_Rmin"]);
    (["pachy"], [js "Pachy_Center"; js "Pachy_Apex"; js "Pachy_Thinnest"]);
    (["ac"; "depth"; "pupil"], [js "AC_Depth"; js "Pupil_Dia"]) ]%string.

(** The keys of the blocks whose gate is open for [fields]. *)
Definition requestedKeys (fields : jsstring) : list jsstring :=
  flat_map (fun b => if wanted fields (fst b) then snd b else []) blockTable.

(** The same blocks with the value each key is given. *)
Definition valueTable (text : jsstring)
  : list (list string * list (jsstring * jsstring)) :=
  let front := frontText text in
  let back := backText text in
  [ (["rh"; "radius"],
     [(js "Front_Rh", extractValue front (reLabel "Rh") 1);
      (js "Front_Rv", extractValue front (reLabel "Rv") 1);
      (js "Front_Rm", extractValue front (reLabel "Rm") 1)]);
    (["k"; "keratometry"],
     [(js "Front_K1", extractValue front (reLabel "K1") 1);
      (js "Front_K2", extractValue front (reLabel "K2") 1);
      (js "Front_Km", extractValue front (reLabel "Km") 1)]);
    (["axis"; "astig"],
     [(js "Front_Axis", axisValue front);
      (js "Front_Astig", extractValue front (reLabel "Astig") 1)]);
    (["q"], [(js "Front_Q-val", extractValue front reQval 1)]);
    (["rper"; "rmin"],
     [(js "Front_Rper", extractValue front (reLabel "Rper") 1);
      (js "Front_Rmin", extractValue front (reLabel "Rmin") 1)]);
    (["rh"; "radius"],
     [(js "Back_Rh", extractValueWithNegative back (reLabel "Rh") 1);
      (js "Back_Rv", extractValueWithNegative back (reLabel "Rv") 1);
      (js "Back_Rm", extractValueWithNegative back (reLabel "Rm") 1)]);
    (["k"; "keratometry"],
     [(js "Back_K1", extractValueWithNegative back (reLabelSigned "K1") 1);
      (js "Back_K2", extractValueWithNegative back (reLabelSigned "K2") 1);
      (js "Back_Km", extractValueWithNegative back (reLabelSigned "Km") 1)]);
    (["axis"; "astig"],
     [(js "Back_Axis", axisValue back);
      (js "Back_Astig", extractValueWithNegative back (reLabel "Astig") 1)]);
    (["q"], [(js "Back_Q-val", extractValueWithNegative back reQval 1)]);
    (["rper"; "rmin"],
     [(js "Back_Rper", extractValueWithNegative back (reLabel "Rper") 1);
      (js "Back_Rmin", extractValueWithNegative back (reLabel "Rmin") 1)]);
    (["pachy"],
     [(js "Pachy_Center", extractValue text rePupilCenter 1);
      (js "Pachy_Apex", extractValue text (reLabel "Pachy Apex") 1);
      (js "Pachy_Thinnest", extractValue text reThinnestLocal 1)]);
    (["ac"; "depth"; "pupil"],
     [(js "AC_Depth", acDepthValue text);
      (js "Pupil_Dia", pupilDiaValue text)]) ]%string.

(** The entries of the blocks whose gate is open for [fields]. *)
Definition requestedEntries (text fields : jsstring) : record :=
  flat_map (fun b => if wanted fields (fst b) then snd b else [])
           (valueTable text).

(** Assigning the entries of a list, in order. *)
Definition setAll (data entries : record) : record :=
  fold_left (fun data entry => set data (fst entry) (snd entry)) entries data.

(** The front and back keys that are extracted with the same pattern. *)
Definition twinKeys : list (jsstring * jsstring) :=
  [ (js "Front_Rh", js "Back_Rh"); (js "Front_Rv", js "Back_Rv");
    (js "Front_Rm", js "Back_Rm"); (js "Front_Axis", js "Back_Axis");
    (js "Front_Astig", js "Back_Astig"); (js "Front_Q-val", js "Back_Q-val");
    (js "Front_Rper", js "Back_Rper"); (js "Front_Rmin", js "Back_Rmin") ].

End Readings.

Import Readings.

(** ** The results table and its CSV export *)

Module ExportCSV.

(** *** The automatic page *)

Record OCRResult := {
  fileName : jsstring;
  fullText : jsstring;
  extractedData : record
}.

(** One entry of [data.results], as [processFiles] reads it. *)
Record BatchItem := { success : bool; itemText : jsstring }.

(** The callback of [data.results.map] in [processFiles]; [files[index]]
    is given by the name of the file, [None] when the index is past the
    selected files (reading [.name] then throws). *)
Definition processResult (fieldNames : jsstring) (file : option jsstring)
  (result : BatchItem) : option OCRResult :=
  match file with
  | None => None
  | Some name =>
      if negb (success result) then
        Some {| fileName := name; fullText := []; extractedData := [] |}
      else
        Some {| fileName := name;
                fullText := itemText result;
                extractedData := parseCorneaData (itemText result) fieldNames |}
  end.

Fixpoint processResults (fieldNames : jsstring) (files : list jsstring)
  (results : list BatchItem) : option (list OCRResult) :=
  match results with
  | [] => Some []
  | result :: results' =>
      match processResult fieldNames (head files) result with
      | None => None
      | Some r =>
          match processResults fieldNames (tail files) results' with
          | None => None
          | Some rs => Some (r :: rs)
          end
      end
  end.

(** [Object.values] of an object whose keys are not array indices. *)
Definition values (data : record) : list jsstring := List.map snd data.

Definition quote : N := 34%N.

(** The template literal that wraps a value in double quotes. *)
Definition quoted (v : jsstring) : jsstring := quote :: v ++ [quote].

(** The header of the first column: "Dosya Ad" and a dotless i. *)
Definition dosyaAdi : jsstring := js "Dosya Ad" ++ [305%N].

Definition exportRow (result : OCRResult) : jsstring :=
  join (js ",") (List.map quoted (fileName result :: values (extractedData result))).

(** The content [exportToCSV] of the automatic page puts in the
    download; [None] when there is nothing to export (the alert). *)
Definition exportToCSV (results : list OCRResult) : option jsstring :=
  match results with
  | [] => None
  | firstResult :: _ =>
      let headers := dosyaAdi :: keys (extractedData firstResult) in
      let rows := List.map exportRow results in
      Some (join [10%N] (join (js ",") headers :: rows))
  end.

(** *** The editor page *)

Record EditorResult := {
  e_fileName : jsstring;
  e_data : record
}.

(** [value.replace] with the global pattern of one double quote and a
    replacement of two. *)
Definition escapeQuotes (value : jsstring) : jsstring :=
  String_replace_g value (chr quote) [quote; quote].

(** [result.data[rect.id] || '-'].  The identifiers are those
    [crypto.randomUUID] gives, never the name of a property every object
    inherits, so reading the object is reading the entries it was
    given. *)
Definition cellValue (result : EditorResult) (rect : Rectangle) : jsstring :=
  orElse (get (e_data result) (id rect)) (js "-").

Definition editorRow (rectangles : list Rectangle) (result : EditorResult)
  : jsstring :=
  let values :=
    List.map (fun rect => quoted (escapeQuotes (cellValue result rect)))
             rectangles in
  join (js ",") (quoted (e_fileName result) :: values).

Definition editorCSV (rectangles : list Rectangle)
  (results : list EditorResult) : option jsstring :=
  match results with
  | [] => None
  | _ :: _ =>
      let headers := js "Dosya Adi" :: List.map label rectangles in
      let rows := List.map (editorRow rectangles) results in
      Some (join [10%N] (join (js ",") headers :: rows))
  end.

(** *** A reader of comma-separated values *)

(** The usual reading of CSV text: fields are separated by commas and
    records by line feeds; a field that starts with a double quote runs
    to the closing quote, a doubled quote inside it standing for one
    quote.  The reader is what the exported text is checked against. *)
Inductive mode := FieldStart | Unquoted | Quoted | QuoteSeen.

Definition table := list (list jsstring).

(** The table read so far has the field being read first. *)
Definition push (c : N) (t : table) : table :=
  match t with
  | (field :: row) :: rows => ((c :: field) :: row) :: rows
  | _ => t
  end.

Definition endField (t : table) : table :=
  match t with
  | row :: rows => ([] :: row) :: rows
  | [] => t
  end.

Definition endRow (t : table) : table := [[]] :: t.

Fixpoint readFrom (s : jsstring) (m : mode) : option table :=
  match s with
  | [] => match m with Quoted => None | _ => Some [[[]]] end
  | c :: s' =>
      match m with
      | FieldStart =>
          if (c =? quote)%N then readFrom s' Quoted
          else if (c =? 44)%N then option_map endField (readFrom s' FieldStart)
          else if (c =? 10)%N then option_map endRow (readFrom s' FieldStart)
          else option_map (push c) (readFrom s' Unquoted)
      | Unquoted =>
          if (c =? 44)%N then option_map endField (readFrom s' FieldStart)
          else if (c =? 10)%N then option_map endRow (readFrom s' FieldStart)
          else option_map (push c) (readFrom s' Unquoted)
      | Quoted =>
          if (c =? quote)%N then readFrom s' QuoteSeen
          else option_map (push c) (readFrom s' Quoted)
      | QuoteSeen =>
          if (c =? quote)%N then option_map (push quote) (readFrom s' Quoted)
          else if (c =? 44)%N then option_map endField (readFrom s' FieldStart)
          else if (c =? 10)%N then option_map endRow (readFrom s' FieldStart)
          else None
      end
  end.

Definition readCSV (s : jsstring) : option table := readFrom s FieldStart.

(** A field that can be written without quotes. *)
Definition plain (v : jsstring) : bool :=
  forallb (fun c => negb ((c =? 44) || (c =? 10))%N) v
  && match v with c :: _ => negb (c =? quote)%N | [] => true end.

Definition quoteFree (v : jsstring) : bool :=
  forallb (fun c => negb (c =? quote)%N) v.

(** The escaped value, written out. *)
Definition doubled (value : jsstring) : jsstring :=
  flat_map (fun ch => if (ch =? quote)%N then [quote; quote] else [ch]) value.

Definition pushAll (v : jsstring) (t : table) : table := fold_right push t v.

(** The text after a field: the end, a comma or a line feed. *)
Definition boundary (rest : jsstring) : bool :=
  match rest with
  | [] => true
  | ch :: _ => (ch =? 44)%N || (ch =? 10)%N
  end.

(** [encodes (e, v)]: the text [e] is the field [v], quoted with its
    quotes doubled, or bare when it needs no quotes. *)
Definition encodes (field : jsstring * jsstring) : Prop :=
  fst field = quoted (doubled (snd field))
  \/ (fst field = snd field /\ plain (snd field) = true).

End ExportCSV.

Import ExportCSV.

(** ** The text of a cell *)

Module Cells.

(** The second editor page, on the text of one cropped region:
    [(result.fullText || '').replace(/\n/g, ' ').replace(/\s+/g, ' ').trim()],
    then [cleanText || '-']. *)
Definition cleanText (fullText : option jsstring) : jsstring :=
  trim (String_replace_g
          (String_replace_g (orElse fullText []) (chr 10) (js " "))
          reSpaces (js " ")).

Definition cellText (fullText : option jsstring) : jsstring :=
  orElse (Some (cleanText fullText)) (js "-").

(** The words of a text: its maximal runs of characters that are not
    white space. *)
Fixpoint words (s : jsstring) : list jsstring :=
  match s with
  | [] => []
  | ch :: s' =>
      if isWhiteSpace ch then words s'
      else match s' with
           | [] => [[ch]]
           | next :: _ =>
               if isWhiteSpace next then [ch] :: words s'
               else match words s' with
                    | word :: rest => (ch :: word) :: rest
                    | [] => [[ch]]
                    end
           end
  end.

(** Words separated by single spaces; "-" when there is no word. *)
Definition spaced (ws : list jsstring) : jsstring :=
  match ws with
  | [] => js "-"
  | _ :: _ => join (js " ") ws
  end.

End Cells.

Import Cells.

(** ** Drawing and ordering the regions *)

Module Drawing.

(** [Math.min], [Math.max] and [Math.abs] on numbers. *)
Definition Math_min2 (a b : Q) : Q := if Qle_bool a b then a else b.
Definition Math_max2 (a b : Q) : Q := if Qle_bool a b then b else a.
Definition Math_abs (a : Q) : Q := if Qle_bool 0 a then a else (- a)%Q.

(** The decimal digits of a number, as [String(n)] and template
    literals write it. *)
Fixpoint digits (fuel n : nat) (acc : jsstring) : jsstring :=
  match fuel with
  | O => acc
  | S fuel' =>
      let acc' := (48 + N.of_nat (n mod 10))%N :: acc in
      if n / 10 =? 0 then acc' else digits fuel' (n / 10) acc'
  end.

Definition Number_toString (n : nat) : jsstring := digits (S n) n [].

Record Point := { p_x : Q; p_y : Q }.

(** The rectangle being drawn. *)
Record Box := { r_x : Q; r_y : Q; r_width : Q; r_height : Q }.

(** The size of the displayed template image, in pixels.  The handlers
    divide by both numbers; an image that is displayed has a positive
    size. *)
Record TemplateSize := { t_width : positive; t_height : positive }.

(** The state of the editor page the handlers read and set. *)
Record EditorState := {
  rectangles : list Rectangle;
  isDrawing : bool;
  drawStart : option Point;
  currentRect : option Box;
  templateSize : option TemplateSize;
  draggedId : option jsstring
}.

Definition initialState : EditorState :=
  {| rectangles := []; isDrawing := false; drawStart := None;
     currentRect := None; templateSize := None; draggedId := None |}.

(** A mouse event on the canvas, with the left and top of the bounding
    box of the canvas at that time. *)
Record MouseEvent := {
  clientX : Q;
  clientY : Q;
  rectLeft : Q;
  rectTop : Q
}.

Definition getCanvasCoords (st : EditorState) (e : MouseEvent) : option Point :=
  match templateSize st with
  | None => None
  | Some size =>
      let x := ((clientX e - rectLeft e) / inject_Z (Zpos (t_width size)))%Q in
      let y := ((clientY e - rectTop e) / inject_Z (Zpos (t_height size)))%Q in
      Some {| p_x := Math_max2 0 (Math_min2 1 x);
              p_y := Math_max2 0 (Math_min2 1 y) |}
  end.

Definition handleImageLoad (st : EditorState) (size : TemplateSize)
  : EditorState :=
  {| rectangles := rectangles st; isDrawing := isDrawing st;
     drawStart := drawStart st; currentRect := currentRect st;
     templateSize := Some size; draggedId := draggedId st |}.

Definition handleMouseDown (st : EditorState) (e : MouseEvent) : EditorState :=
  match getCanvasCoords st e with
  | None => st
  | Some coords =>
      {| rectangles := rectangles st; isDrawing := true;
         drawStart := Some coords; currentRect := currentRect st;
         templateSize := templateSize st; draggedId := draggedId st |}
  end.

Definition handleMouseMove (st : EditorState) (e : MouseEvent) : EditorState :=
  match isDrawing st, drawStart st with
  | true, Some start =>
      match getCanvasCoords st e with
      | None => st
      | Some coords =>
          {| rectangles := rectangles st; isDrawing := isDrawing st;
             drawStart := drawStart st;
             currentRect :=
               Some {| r_x := Math_min2 (p_x start) (p_x coords);
                       r_y := Math_min2 (p_y start) (p_y coords);
                       r_width := Math_abs (p_x coords - p_x start);
                       r_height := Math_abs (p_y coords - p_y start) |};
             templateSize := templateSize st; draggedId := draggedId st |}
      end
  | _, _ => st
  end.

(** [10 / Math.min(templateSize.width, templateSize.height)] *)
Definition minSize (size : TemplateSize) : Q :=
  (10 / inject_Z (Zpos (Pos.min (t_width size) (t_height size))))%Q.

(** [uuid] is the value [crypto.randomUUID()] returns in this call. *)
Definition handleMouseUp (st : EditorState) (uuid : jsstring) : EditorState :=
  let rectangles' :=
    match currentRect st, templateSize st with
    | Some current, Some size =>
        if Qltb (minSize size) (r_width current)
           && Qltb (minSize size) (r_height current)
        then
          rectangles st ++
            [ {| id := uuid;
                 label := js "Alan " ++ Number_toString (length (rectangles st) + 1);
                 x := r_x current; y := r_y current;
                 width := r_width current; height := r_height current |} ]
        else rectangles st
    | _, _ => rectangles st
    end in
  {| rectangles := rectangles'; isDrawing := false; drawStart := None;
     currentRect := None; templateSize := templateSize st;
     draggedId := draggedId st |}.

Definition setRectangles (st : EditorState) (rects : list Rectangle)
  : EditorState :=
  {| rectangles := rects; isDrawing := isDrawing st;
     drawStart := drawStart st; currentRect := currentRect st;
     templateSize := templateSize st; draggedId := draggedId st |}.

Definition setDraggedId (st : EditorState) (dragged : option jsstring)
  : EditorState :=
  {| rectangles := rectangles st; isDrawing := isDrawing st;
     drawStart := drawStart st; currentRect := currentRect st;
     templateSize := templateSize st; draggedId := dragged |}.

Definition handleLabelChange (st : EditorState) (rectId newLabel : jsstring)
  : EditorState :=
  setRectangles st
    (List.map (fun rect =>
                 if strEq (id rect) rectId then
                   {| id := id rect; label := newLabel;
                      x := x rect; y := y rect;
                      width := width rect; height := height rect |}
                 else rect)
              (rectangles st)).

Definition handleDeleteRectangle (st : EditorState) (rectId : jsstring)
  : EditorState :=
  setRectangles st
    (List.filter (fun rect => negb (strEq (id rect) rectId)) (rectangles st)).

Definition handleDragStart (st : EditorState) (rectId : jsstring) : EditorState :=
  setDraggedId st (Some rectId).

(** [a.splice(index, 1)] on a copy: the array without the element and
    the removed elements; [a.splice(index, 0, item)]. *)
Definition spliceOut {A} (l : list A) (index : nat) : list A * list A :=
  (take index l ++ drop (S index) l, take 1 (drop index l)).
Definition spliceIn {A} (l : list A) (index : nat) (item : A) : list A :=
  take index l ++ item :: drop index l.

Definition handleDrop (st : EditorState) (targetId : jsstring) : EditorState :=
  match draggedId st with
  | None | Some [] => setDraggedId st None
  | Some dragged =>
      if strEq dragged targetId then setDraggedId st None
      else
        let draggedIndex :=
          findIndex (fun r => strEq (id r) dragged) (rectangles st) in
        let targetIndex :=
          findIndex (fun r => strEq (id r) targetId) (rectangles st) in
        if ((draggedIndex =? -1) || (targetIndex =? -1))%Z
        then setDraggedId st None
        else
          match spliceOut (rectangles st) (Z.to_nat draggedIndex) with
          | (newRectangles, draggedItem :: _) =>
              setDraggedId
                (setRectangles st
                   (spliceIn newRectangles (Z.to_nat targetIndex) draggedItem))
                None
          | (_, []) => setDraggedId st None
          end
  end.

Definition handleDragEnd (st : EditorState) : EditorState := setDraggedId st None.

(** What the user does, one event at a time; leaving the canvas runs the
    handler of releasing the button. *)
Inductive Event :=
| ImageLoad (size : TemplateSize)
| MouseDown (e : MouseEvent)
| MouseMove (e : MouseEvent)
| MouseUp (uuid : jsstring)
| MouseLeave (uuid : jsstring)
| LabelChange (rectId newLabel : jsstring)
| DeleteRectangle (rectId : jsstring)
| DragStart (rectId : jsstring)
| Drop (targetId : jsstring)
| DragEnd.

Definition step (st : EditorState) (ev : Event) : EditorState :=
  match ev with
  | ImageLoad size => handleImageLoad st size
  | MouseDown e => handleMouseDown st e
  | MouseMove e => handleMouseMove st e
  | MouseUp uuid | MouseLeave uuid => handleMouseUp st uuid
  | LabelChange rectId newLabel => handleLabelChange st rectId newLabel
  | DeleteRectangle rectId => handleDeleteRectangle st rectId
  | DragStart rectId => handleDragStart st rectId
  | Drop targetId => handleDrop st targetId
  | DragEnd => handleDragEnd st
  end.

Definition run (events : list Event) (st : EditorState) : EditorState :=
  fold_left step events st.







(** The identifiers the events bring. *)
Definition uuidsOf (events : list Event) : list jsstring :=
  flat_map (fun ev => match ev with
                      | MouseUp uuid | MouseLeave uuid => [uuid]
                      | _ => []
                      end) events.

End Drawing.

Import Drawing.

(** ** Reading the regions of every image *)

Module Pipeline.

(** The answer of the OCR route to one composite image, as [processOCR]
    reads it: [None] when [response.ok] is false, else the [textBlocks]
    of the body ([Some None] when the body has none). *)
Definition OCRResponse := option (option (list TextBlock)).

(** The object [resultData] after the [forEach] over the regions.  It is
    only read by key, so the association list stands for the object. *)
Definition resultData (rects : list Rectangle) (boundaries : list Boundary)
  (response : OCRResponse) : record :=
  match response with
  | None =>
      fold_left (fun data rect => set data (label rect) (js "-")) rects []
  | Some textBlocks =>
      let parsedResults := parseRegionResults (default [] textBlocks) boundaries in
      fold_left (fun data rect =>
                   set data (id rect)
                       (orElse (parsedResults !! id rect) (js "-")))
                rects []
  end.

(** One turn of the loop of [processOCR]: [ocr] is the request to the
    route for the composite image, which may fail to be sent. *)
Definition processImage (rects : list Rectangle)
  (ocr : Combined -> promise OCRResponse) (file : jsstring * File)
  : promise EditorResult :=
  await combined <- combineRegions (snd file) rects ;;
  await response <- ocr combined ;;
  Resolved {| e_fileName := fst file;
              e_data := resultData rects (boundaries combined) response |}.

Fixpoint processImages (rects : list Rectangle)
  (ocr : Combined -> promise OCRResponse) (imageFiles : list (jsstring * File))
  : promise (list EditorResult) :=
  match imageFiles with
  | [] => Resolved []
  | file :: rest =>
      await result <- processImage rects ocr file ;;
      await allResults <- processImages rects ocr rest ;;
      Resolved (result :: allResults)
  end.

(** The [results] of the page after [processOCR], given those before:
    without regions or images nothing happens; else the results are
    emptied, and set again only when every image went through. *)
Definition processOCR (rects : list Rectangle)
  (ocr : Combined -> promise OCRResponse) (imageFiles : list (jsstring * File))
  (results : list EditorResult) : list EditorResult :=
  match rects, imageFiles with
  | [], _ | _, [] => results
  | _, _ =>
      match processImages rects ocr imageFiles with
      | Resolved allResults => allResults
      | Rejected _ => []
      end
  end.

(** The centre of a block lies in the range of a boundary. *)
Definition inStrip (b : Boundary) (block : TextBlock) : bool :=
  match boundingBox block with
  | None | Some [] => false
  | Some (v :: vs) =>
      Qle_bool (inject_Z (xStart b)) (avgX (v :: vs))
      && Qltb (avgX (v :: vs)) (inject_Z (xEnd b))
  end.

(** The texts of the blocks centred in the range of a boundary. *)
Definition stripTexts (b : Boundary) (textBlocks : list TextBlock)
  : list jsstring :=
  List.map Editor.description (List.filter (inStrip b) textBlocks).

End Pipeline.

Import Pipeline.

(** ** The batch route *)

Module Batch.

Record BatchRequest := {
  br_id : jsstring;
  imageBase64 : jsstring;
  br_imageType : jsstring
}.

Record BatchResult := {
  res_id : jsstring;
  res_success : bool;
  res_error : option jsstring;
  res_fullText : jsstring;
  res_textBlocks : list EntityAnnotation
}.

(** [result?.textAnnotations] of one image: [None] when it is missing. *)
Definition Annotations := option (list EntityAnnotation).

(** [batchAnnotateImages] on the contents of the images of one request:
    the call may fail, and [response.responses] may be missing. *)
Definition VisionClient := list jsstring -> promise (option (list Annotations)).

Definition BATCH_SIZE : nat := 16.

(** The callback of [batch.forEach], given the annotations of the
    image. *)
Definition imageResult (img : BatchRequest) (detections : Annotations)
  : BatchResult :=
  match detections with
  | None | Some [] =>
      {| res_id := br_id img; res_success := false;
         res_error := Some (js "No text found");
         res_fullText := []; res_textBlocks := [] |}
  | Some detections =>
      {| res_id := br_id img; res_success := true; res_error := None;
         res_fullText := processedText detections (br_imageType img);
         res_textBlocks :=
           List.map snd (filteredTextBlocks detections (br_imageType img)) |}
  end.

(** [response.responses?.[idx]?.textAnnotations] *)
Definition annotationsAt (responses : option (list Annotations)) (idx : nat)
  : Annotations :=
  match responses with
  | None => None
  | Some rs => default None (rs !! idx)
  end.

Fixpoint batchResultsFrom (idx : nat) (batch : list BatchRequest)
  (responses : option (list Annotations)) : list BatchResult :=
  match batch with
  | [] => []
  | img :: rest =>
      imageResult img (annotationsAt responses idx)
      :: batchResultsFrom (S idx) rest responses
  end.

(** The [for] loop over the batches, from index [i] on.  Every turn
    moves [i] forward, so more turns than images are never needed;
    [None] stands for running out of the turns allowed. *)
Fixpoint loop (turns : nat) (visionClient : VisionClient)
  (images : list BatchRequest) (i : nat) (allResults : list BatchResult)
  : option (promise (list BatchResult)) :=
  match turns with
  | O => None
  | S turns' =>
      if i <? length images then
        let batch := take BATCH_SIZE (drop i images) in
        match visionClient (List.map imageBase64 batch) with
        | Rejected e => Some (Rejected e)
        | Resolved responses =>
            loop turns' visionClient images (i + BATCH_SIZE)
                 (allResults ++ batchResultsFrom 0 batch responses)
        end
      else Some (Resolved allResults)
  end.

Inductive Outcome :=
| BadRequest                                         (* status 400 *)
| Failed (details : jsstring)                        (* status 500 *)
| Processed (results : list BatchResult) (totalProcessed : nat).

(** The handler, from the parsed body on: [images] may be missing, and
    [getClient()] may throw. *)
Definition POST (getClient : promise VisionClient)
  (images : option (list BatchRequest)) : option Outcome :=
  match images with
  | None | Some [] => Some BadRequest
  | Some images =>
      match getClient with
      | Rejected e => Some (Failed e)
      | Resolved visionClient =>
          match loop (S (length images)) visionClient images 0 [] with
          | None => None
          | Some (Rejected e) => Some (Failed e)
          | Some (Resolved allResults) =>
              Some (Processed allResults (length images))
          end
      end
  end.

End Batch.

(** ** The automatic page and the batch route together *)

Module Automatic.

(** A selected file: its name and its content in base 64 (the file is
    taken to be readable). *)
Record InputFile := { f_name : jsstring; f_base64 : jsstring }.

(** The images of the request: the identifier of an image is its index,
    a hyphen and the name of the file. *)
Definition batchImages (files : list InputFile) (imageType : jsstring)
  : list Batch.BatchRequest :=
  imap (fun index file =>
          {| Batch.br_id := Number_toString index ++ js "-" ++ f_name file;
             Batch.imageBase64 := f_base64 file;
             Batch.br_imageType := imageType |})
       files.

(** What the page reads of one result of the route. *)
Definition itemOf (result : Batch.BatchResult) : BatchItem :=
  {| success := Batch.res_success result;
     itemText := Batch.res_fullText result |}.

(** The [results] of the page after [processFiles], given those before
    and the route as a function of the images sent.  Without files
    nothing happens; an answer that is not [ok], and any exception, leave
    the results empty.  [None] only when the route has no answer. *)
Definition processFiles (route : list Batch.BatchRequest -> option Batch.Outcome)
  (files : list InputFile) (fieldNames imageType : jsstring)
  (results : list OCRResult) : option (list OCRResult) :=
  match files with
  | [] => Some results
  | _ :: _ =>
      match route (batchImages files imageType) with
      | None => None
      | Some (Batch.Processed routeResults _) =>
          match processResults fieldNames (List.map f_name files)
                  (List.map itemOf routeResults) with
          | Some processedResults => Some processedResults
          | None => Some []
          end
      | Some _ => Some []
      end
  end.

(** The row of a file, given what the detector finds on it. *)
Definition rowOf (fieldNames imageType : jsstring)
  (detect : jsstring -> Batch.Annotations) (file : InputFile) : OCRResult :=
  match detect (f_base64 file) with
  | None | Some [] =>
      {| fileName := f_name file; fullText := []; extractedData := [] |}
  | Some detections =>
      {| fileName := f_name file;
         fullText := processedText detections imageType;
         extractedData :=
           parseCorneaData (processedText detections imageType) fieldNames |}
  end.

End Automatic.

Import Automatic.

(** ** Logging in *)

Module Auth.

(** The value of [password] in the body of the request. *)
Inductive JsonValue :=
| JUndefined                 (* the key is missing *)
| JNull
| JBool (b : bool)
| JNumber (n : Q)
| JString (s : jsstring)
| JObject.                   (* an object or an array *)

(** [!value] *)
Definition falsy (value : JsonValue) : bool :=
  match value with
  | JUndefined | JNull => true
  | JBool b => negb b
  | JNumber n => Qeq_bool n 0
  | JString s => match s with [] => true | _ :: _ => false end
  | JObject => false
  end.

(** [process.env.AUTH_PASSWORD || ''] *)
Definition AUTH_PASSWORD (env : option jsstring) : jsstring := orElse env [].

(** [password === AUTH_PASSWORD] *)
Definition verifyPassword (env : option jsstring) (password : JsonValue) : bool :=
  match password with
  | JString s => strEq s (AUTH_PASSWORD env)
  | _ => false
  end.

Inductive LoginResponse :=
| PasswordRequired           (* status 400 *)
| WrongPassword              (* status 401 *)
| LoginFailed                (* status 500 *)
| LoggedIn (cookie : jsstring).

(** The handler: [body] is the password read from the request, which
    fails when the body is not JSON or not an object; [createToken] is
    the signing of a fresh token. *)
Definition login (env : option jsstring) (createToken : promise jsstring)
  (body : promise JsonValue) : LoginResponse :=
  match body with
  | Rejected _ => LoginFailed
  | Resolved password =>
      if falsy password then PasswordRequired
      else if negb (verifyPassword env password) then WrongPassword
      else match createToken with
           | Rejected _ => LoginFailed
           | Resolved token => LoggedIn token
           end
  end.

End Auth.

(** ** Further sample inputs *)

Module MoreSamples.

(** A result whose value for region "a" holds a comma, a quote and a
    line feed, and which has no value for region "b". *)
Definition awkwardResult : EditorResult :=
  {| e_fileName := js "scan 1.png";
     e_data := [(js "a", js "7,5 " ++ [quote] ++ js "mm" ++ [10%N] ++ js "x")] |}.

Definition twoItems : list BatchItem :=
  [ {| success := true; itemText := kExampleText |};
    {| success := true; itemText := js "K1: 41.0" |} ].

(** A template displayed at 800 by 600 pixels, on which one region is
    drawn from (80, 60) to (400, 300), a second one is started and left
    too small, and the first is relabelled. *)
Definition displayed : TemplateSize := {| t_width := 800; t_height := 600 |}.

Definition mouseAt (px py : Z) : MouseEvent :=
  {| clientX := inject_Z px; clientY := inject_Z py;
     rectLeft := 0; rectTop := 0 |}.

Definition session : list Event :=
  [ ImageLoad displayed;
    MouseDown (mouseAt 80 60); MouseMove (mouseAt 400 300); MouseUp (js "u1");
    MouseDown (mouseAt 500 500); MouseMove (mouseAt 505 520);
    MouseLeave (js "u2");
    LabelChange (js "u1") (js "K1") ].

(** Three regions, the first one being dragged. *)
Definition dragging : EditorState :=
  {| rectangles := [regionA; regionB; flatRegion];
     isDrawing := false; drawStart := None; currentRect := None;
     templateSize := Some displayed; draggedId := Some (js "a") |}.

(** Twenty images of a batch request, and a detector that finds the
    same page on each. *)
Definition twentyImages : list Batch.BatchRequest :=
  List.map (fun k => {| Batch.br_id := js "img-" ++ Number_toString k;
                        Batch.imageBase64 := Number_toString k;
                        Batch.br_imageType := js "full" |})
           (seq 0 20).

Definition samePage (content : jsstring) : Batch.Annotations := Some outOfOrder.

Definition pageClient : Batch.VisionClient :=
  fun contents => Resolved (Some (List.map samePage contents)).

Definition twoFiles : list InputFile :=
  [ {| f_name := js "a.png"; f_base64 := js "QUFB" |};
    {| f_name := js "b.png"; f_base64 := js "QkJC" |} ].

End MoreSamples.

Import MoreSamples.

(** * Properties *)

(** ** Worked examples *)

Example split_lines :
  split 10 (js "a" ++ nl ++ nl ++ js "b" ++ nl) = [js "a"; []; js "b"; []].
Proof. reflexivity. Qed.

Example headings :
  test reCorneaFront (js "cornea   FRONT x") = true
  /\ test reCorneaFront (js "Front") = true
  /\ test reCorneaFront (js "Front x") = false
  /\ test reCorneaBack (js "back") = true.
Proof. repeat split; reflexivity. Qed.

Example requested_tokens :
  requestedFields (js " K , Pachy,") = [js "k"; js "pachy"; []]
  /\ extractAll (js "") = true /\ extractAll (js "k,ALL") = true
  /\ extractAll (js " ") = false.
Proof. repeat split; reflexivity. Qed.

Example axis_after_label :
  axisValue (js "Axis (flat): 12.5 Astig: 1.2") = js "12.5".
Proof. vm_compute. reflexivity. Qed.

Example axis_by_degree_sign :
  axisValue (js "K1 43 @ 12.5 " ++ [176%N]) = js "12.5"
  /\ axisValue (js "K1 43") = js "-".
Proof. split; vm_compute; reflexivity. Qed.

Example thinnest_with_glyph :
  extractValue (js "Thinnest Local: " ++ [9671%N] ++ js " 512 um")
    reThinnestLocal 1 = js "512".
Proof. vm_compute. reflexivity. Qed.

Example pupil_diameter :
  pupilDiaValue (js "Pupil Dia : 2.92 mm") = js "2.92"
  /\ pupilDiaValue (js "Pupil Diameter: 3.1") = js "3.1".
Proof. split; vm_compute; reflexivity. Qed.

Example collapse_white_space :
  String_replace_g (js "a  b" ++ nl ++ js " c ") reSpaces (js " ")
  = js "a b c ".
Proof. vm_compute. reflexivity. Qed.

Example composite_of_two_regions :
  combineRegions sampleFile [regionA; regionB]
  = Resolved {| totalWidth := 560; maxHeight := Finite 400;
                boundaries := sampleBoundaries |}.
Proof. reflexivity. Qed.

(** ** The matcher *)

(** *** Every result of the matcher is a match of the pattern *)

Lemma repeatMatcher_sound (r : regex) (k : continuation) :
  (forall k' s i c res, matchR r k' s i c = Some res ->
     exists s' i' c', matches r (s, i, c) (s', i', c') /\ k' s' i' c' = Some res) ->
  forall fuel s i c res,
    repeatMatcher (matchR r) k fuel s i c = Some res ->
    exists s' i' c', matches (Star r) (s, i, c) (s', i', c') /\ k s' i' c' = Some res.
Proof.
  intros IHr. induction fuel as [|fuel IH]; intros s i c res; simpl.
  - intros H. exists s, i, c. split; [constructor | assumption].
  - destruct (matchR r _ s i c) as [a|] eqn:E.
    + intros [= ->]. apply IHr in E as (s1 & i1 & c1 & Hm & Hk).
      destruct (Nat.ltb_spec (length s1) (length s)); [|discriminate].
      apply IH in Hk as (s' & i' & c' & Hstar & Hk).
      exists s', i', c'. split; [|assumption].
      eapply M_StarStep; [exact Hm | simpl; assumption | exact Hstar].
    + intros H. exists s, i, c. split; [constructor | assumption].
Qed.

Lemma matchR_sound (r : regex) : forall k s i c res,
  matchR r k s i c = Some res ->
  exists s' i' c', matches r (s, i, c) (s', i', c') /\ k s' i' c' = Some res.
Proof.
  induction r as [|p|r1 IH1 r2 IH2|r1 IH1 r2 IH2|r IH|n r IH| |];
    intros k s i c res; simpl.
  - intros H. exists s, i, c. split; [constructor | assumption].
  - destruct s as [|ch s]; [discriminate|].
    destruct (p ch) eqn:Hp; [|discriminate].
    intros H. exists s, (S i), c. split; [constructor; assumption | assumption].
  - intros H. apply IH1 in H as (s1 & i1 & c1 & H1 & H).
    apply IH2 in H as (s2 & i2 & c2 & H2 & H).
    exists s2, i2, c2. split; [econstructor; eassumption | assumption].
  - destruct (matchR r1 k s i c) as [a|] eqn:E.
    + intros [= ->]. apply IH1 in E as (s1 & i1 & c1 & H1 & H).
      exists s1, i1, c1. split; [apply M_AltL; assumption | assumption].
    + intros H. apply IH2 in H as (s1 & i1 & c1 & H1 & H).
      exists s1, i1, c1. split; [apply M_AltR; assumption | assumption].
  - apply repeatMatcher_sound. exact IH.
  - intros H. apply IH in H as (s1 & i1 & c1 & H1 & H).
    exists s1, i1, ((n, (i, i1)) :: c1).
    split; [constructor; assumption | assumption].
  - destruct i; simpl; [|discriminate].
    intros H. exists s, 0, c. split; [constructor | assumption].
  - destruct s; [|discriminate].
    intros H. exists [], i, c. split; [constructor | assumption].
Qed.

(** A match consumes a prefix of the subject and advances the index by
    its length. *)
Lemma matches_consumes r a b :
  matches r a b -> exists pre, a.1.1 = pre ++ b.1.1 /\ b.1.2 = a.1.2 + length pre.
Proof.
  induction 1 as [|p ch s i c Hp| | | | | | | |]; simpl in *.
  - exists []. split; [reflexivity | simpl; lia].
  - exists [ch]. split; [reflexivity | simpl; lia].
  - destruct IHmatches1 as (p1 & E1 & L1), IHmatches2 as (p2 & E2 & L2).
    exists (p1 ++ p2). rewrite E1, E2, L2, L1, length_app, app_assoc.
    split; [reflexivity | lia].
  - assumption.
  - assumption.
  - exists []. split; [reflexivity | simpl; lia].
  - destruct IHmatches1 as (p1 & E1 & L1), IHmatches2 as (p2 & E2 & L2).
    exists (p1 ++ p2). rewrite E1, E2, L2, L1, length_app, app_assoc.
    split; [reflexivity | lia].
  - assumption.
  - exists []. split; [reflexivity | simpl; lia].
  - exists []. split; [reflexivity | simpl; lia].
Qed.

Lemma matches_star_char p a b :
  matches (Star (Char p)) a b ->
  exists pre, a.1.1 = pre ++ b.1.1 /\ b.1.2 = a.1.2 + length pre
    /\ b.2 = a.2 /\ Forall (fun ch => p ch = true) pre.
Proof.
  remember (Star (Char p)) as r eqn:Er. induction 1; try discriminate.
  - exists []. repeat split; [simpl; lia | constructor].
  - injection Er as ->. specialize (IHmatches2 eq_refl).
    destruct IHmatches2 as (pre & E & L & C & F).
    inversion H as [|? ch ? ? ? Hp| | | | | | | |]; subst; simpl in *.
    exists (ch :: pre). rewrite E, L.
    repeat split; [simpl; lia | assumption | constructor; assumption].
Qed.

Lemma matches_plus_char p a b :
  matches (Plus (Char p)) a b ->
  exists pre, a.1.1 = pre ++ b.1.1 /\ b.1.2 = a.1.2 + length pre
    /\ b.2 = a.2 /\ pre <> [] /\ Forall (fun ch => p ch = true) pre.
Proof.
  unfold Plus. inversion 1 as [| |? ? ? m ? Hc Hs| | | | | | |]; subst.
  apply matches_star_char in Hs as (pre & E & L & C & F).
  inversion Hc as [|? ch ? ? ? Hp| | | | | | | |]; subst; simpl in *.
  exists (ch :: pre). rewrite E, L.
  repeat split;
    [simpl; lia | assumption | discriminate | constructor; assumption].
Qed.

Lemma searchFrom_sound r : forall s i a e c,
  searchFrom r s i = Some (a, e, c) ->
  exists pre rest s',
    s = pre ++ rest /\ a = i + length pre /\ matches r (rest, a, []) (s', e, c).
Proof.
  induction s as [|ch s IH]; intros i a e c; simpl.
  - destruct (matchR r accept [] i []) as [[e' c']|] eqn:E; [|discriminate].
    intros [= <- <- <-]. apply matchR_sound in E as (s' & i' & c'' & Hm & Hk).
    injection Hk as <- <-. exists [], [], s'.
    repeat split; [simpl; lia | assumption].
  - destruct (matchR r accept (ch :: s) i []) as [[e' c']|] eqn:E.
    + intros [= <- <- <-]. apply matchR_sound in E as (s' & i' & c'' & Hm & Hk).
      injection Hk as <- <-. exists [], (ch :: s), s'.
      repeat split; [simpl; lia | assumption].
    + intros H. apply IH in H as (pre & rest & s' & -> & -> & Hm).
      exists (ch :: pre), rest, s'. repeat split; [simpl; lia | assumption].
Qed.

(** The first group of a pattern that ends in [([class]+)]. *)
Lemma labelled_capture A B p s i c s' e c' :
  matches (Seq A (Seq B (Group 1 (Plus (Char p))))) (s, i, c) (s', e, c') ->
  exists pre v,
    s = pre ++ v ++ s' /\ lookupCapture 1 c' = Some (i + length pre, e)
    /\ e = i + length pre + length v /\ v <> []
    /\ Forall (fun ch => p ch = true) v.
Proof.
  intros H.
  inversion H as [| |? ? ? [[s1 i1] c1] ? HA HBG| | | | | | |]; subst.
  inversion HBG as [| |? ? ? [[s2 i2] c2] ? HB HG| | | | | | |]; subst.
  inversion HG as [| | | | | | |? ? ? ? ? ? ? ? HP| |]; subst.
  apply matches_consumes in HA as (pA & EA & LA).
  apply matches_consumes in HB as (pB & EB & LB).
  apply matches_plus_char in HP as (v & EV & LV & _ & Hne & HF).
  simpl in *. subst.
  exists (pA ++ pB), v. rewrite length_app, <- app_assoc. simpl.
  repeat split; try assumption; try lia.
  f_equal. f_equal. lia.
Qed.

(** *** Unfolding the matcher *)

Lemma matchR_Seq r1 r2 k : matchR (Seq r1 r2) k = matchR r1 (matchR r2 k).
Proof. reflexivity. Qed.

Lemma matchR_Plus r k : matchR (Plus r) k = matchR r (matchR (Star r) k).
Proof. reflexivity. Qed.

Lemma matchR_Char p k ch s i c :
  matchR (Char p) k (ch :: s) i c = if p ch then k s (S i) c else None.
Proof. reflexivity. Qed.

Lemma matchR_Group n r k s i c :
  matchR (Group n r) k s i c
  = matchR r (fun s' i' c' => k s' i' ((n, (i, i')) :: c')) s i c.
Proof. reflexivity. Qed.

Section GreedyClass.

Variable p : N -> bool.
Variable k : continuation.

Lemma repeat_char : forall fuel s i c,
  length s <= fuel ->
  repeatMatcher (matchR (Char p)) k fuel s i c = starChar p k s i c.
Proof.
  induction fuel as [|fuel IH]; intros s i c Hlen.
  - destruct s; [reflexivity | simpl in Hlen; lia].
  - destruct s as [|ch s]; [reflexivity|].
    cbn [repeatMatcher matchR starChar]. destruct (p ch); [|reflexivity].
    replace (length s <? length (ch :: s)) with true
      by (symmetry; apply Nat.ltb_lt; simpl; lia).
    rewrite IH by (simpl in Hlen; lia). reflexivity.
Qed.

Lemma matchR_star_char s i c :
  matchR (Star (Char p)) k s i c = starChar p k s i c.
Proof. simpl. apply repeat_char. lia. Qed.

(** When what follows cannot start with a character of the class, the
    class takes the longest run. *)
Lemma starChar_greedy :
  (forall ch s i c, p ch = true -> k (ch :: s) i c = None) ->
  forall s i c,
  starChar p k s i c = k (dropWhile p s) (i + length (takeWhile p s)) c.
Proof.
  intros Hk. induction s as [|ch s IH]; intros i c; simpl.
  - rewrite Nat.add_0_r. reflexivity.
  - destruct (p ch) eqn:Hp; simpl.
    + rewrite IH.
      replace (S i + length (takeWhile p s))
        with (i + S (length (takeWhile p s))) by lia.
      destruct (k _ _ _) eqn:E; [reflexivity|]. apply Hk. assumption.
    + rewrite Nat.add_0_r. reflexivity.
Qed.

(** So it does when what follows always succeeds. *)
Lemma starChar_total :
  (forall s i c, k s i c <> None) ->
  forall s i c,
  starChar p k s i c = k (dropWhile p s) (i + length (takeWhile p s)) c.
Proof.
  intros Hk. induction s as [|ch s IH]; intros i c; simpl.
  - rewrite Nat.add_0_r. reflexivity.
  - destruct (p ch) eqn:Hp; simpl.
    + rewrite IH.
      replace (S i + length (takeWhile p s))
        with (i + S (length (takeWhile p s))) by lia.
      destruct (k _ _ _) eqn:E; [reflexivity|]. exfalso. exact (Hk _ _ _ E).
    + rewrite Nat.add_0_r. reflexivity.
Qed.

Lemma take_drop_while s : takeWhile p s ++ dropWhile p s = s.
Proof.
  induction s as [|ch s IH]; simpl; [reflexivity|].
  destruct (p ch); simpl; [rewrite IH|]; reflexivity.
Qed.

Lemma takeWhile_Forall s : Forall (fun ch => p ch = true) (takeWhile p s).
Proof.
  induction s as [|ch s IH]; simpl; [constructor|].
  destruct (p ch) eqn:E; constructor; assumption.
Qed.

End GreedyClass.

(** A literal word with the [i] flag matches where the subject begins
    with the word, letter case ignored. *)
Lemma matchR_lit_i w k : forall s i c,
  matchR (seqOf chr_i w) k s i c
  = if startsWith_i w s then k (drop (length w) s) (i + length w) c else None.
Proof.
  induction w as [|a w IH]; intros s i c.
  - cbn. rewrite Nat.add_0_r. reflexivity.
  - assert (matchR (seqOf chr_i (a :: w)) k s i c
            = matchR (chr_i a) (matchR (seqOf chr_i w) k) s i c) as ->.
    { destruct w; reflexivity. }
    unfold chr_i. destruct s as [|b s]; [reflexivity|].
    rewrite matchR_Char. cbn [startsWith_i length drop].
    destruct (canonicalize b =? canonicalize a)%N; [|reflexivity].
    rewrite IH. cbn [andb].
    replace (S i + length w) with (i + S (length w)) by lia.
    reflexivity.
Qed.

Lemma searchFrom_lit_i (w : string) : forall s i,
  searchFrom (lit_i w) s i
  = match firstOccurrence_i (js w) s i with
    | Some a => Some (a, a + length (js w), [])
    | None => None
    end.
Proof.
  unfold lit_i.
  induction s as [|ch s IH]; intros i; cbn [searchFrom firstOccurrence_i];
    rewrite matchR_lit_i; destruct (startsWith_i (js w) _); try reflexivity.
  apply IH.
Qed.

(** ** The field parser *)

(** *** Objects *)

Lemma strEq_eq a : forall b, strEq a b = true <-> a = b.
Proof.
  induction a as [|u a IH]; intros [|v b]; simpl; split;
    try discriminate; try reflexivity.
  - intros H. apply andb_true_iff in H as [H1 H2].
    apply N.eqb_eq in H1. apply IH in H2. congruence.
  - intros [= -> ->]. rewrite N.eqb_refl. apply IH. reflexivity.
Qed.

Lemma strEq_refl a : strEq a a = true.
Proof. apply strEq_eq. reflexivity. Qed.

Lemma get_set data key value key' :
  get (set data key value) key'
  = if strEq key key' then Some value else get data key'.
Proof.
  induction data as [|[k v] data IH]; simpl.
  - reflexivity.
  - destruct (strEq k key) eqn:E; simpl.
    + apply strEq_eq in E as ->. destruct (strEq key key'); reflexivity.
    + rewrite IH. destruct (strEq k key') eqn:E'; [|reflexivity].
      destruct (strEq key key') eqn:E''; [|reflexivity].
      apply strEq_eq in E', E''. subst. rewrite strEq_refl in E. discriminate.
Qed.

Lemma keys_set data key value : keys (set data key value) = addKey (keys data) key.
Proof.
  unfold keys. induction data as [|[k v] data IH]; simpl; [reflexivity|].
  destruct (strEq k key); simpl; [reflexivity|]. rewrite IH. reflexivity.
Qed.

(** Comparison of two key literals. *)
Ltac decide_keys :=
  repeat match goal with
         | |- context [strEq (js ?a) (js ?b)] =>
             let v := eval vm_compute in (strEq (js a) (js b)) in
             change (strEq (js a) (js b)) with v
         end;
  cbv beta iota.

(** The gates of a literal field string. *)
Ltac decide_gates :=
  repeat match goal with
         | |- context [wanted (js ?f) ?ks] =>
             let v := eval vm_compute in (wanted (js f) ks) in
             change (wanted (js f) ks) with v
         end;
  cbv beta iota zeta.

Ltac unfold_blocks :=
  unfold parseCorneaData; cbv zeta;
  unfold acDepthPupilDia, pachymetry, backRperRmin, backQval, backAxisAstig,
    backKeratometry, backRadius, frontRperRmin, frontQval, frontAxisAstig,
    frontKeratometry, frontRadius.

(** *** The keratometry example *)

(** C1: on the text "Cornea Front\nK1: 43.50\nK2: 44.20\nCornea Back\nK1:
    -6.10\nK2: -6.30" with requested fields "k", the parser returns exactly
    Front_K1 "43.50", Front_K2 "44.20", Front_Km "-", Back_K1 "-6.10",
    Back_K2 "-6.30", Back_Km "-".  On every text the keys for "k" are the
    six keratometry keys and no other, and the keys for "" and for "all"
    are all the keys. *)
Theorem keratometry_example :
  parseCorneaData kExampleText (js "k") =
    [(js "Front_K1", js "43.50"); (js "Front_K2", js "44.20");
     (js "Front_Km", js "-");
     (js "Back_K1", js "-6.10"); (js "Back_K2", js "-6.30");
     (js "Back_Km", js "-")]
  /\ (forall text, keys (parseCorneaData text (js "k")) = keratometryKeys)
  /\ (forall text, keys (parseCorneaData text (js "")) = allKeys)
  /\ (forall text, keys (parseCorneaData text (js "all")) = allKeys).
Proof.
  split; [vm_compute; reflexivity|].
  repeat split; intros text; unfold_blocks; decide_gates;
    rewrite !keys_set; reflexivity.
Qed.

(** A later block that does not assign [key] leaves its value alone. *)
Ltac skip_blocks :=
  repeat match goal with
         | |- context [wanted ?f ?ks] =>
             let g := fresh "g" in generalize (wanted f ks); intros g
         end;
  repeat match goal with
         | |- context [get (if ?g then ?a else ?b) ?key] =>
             replace (get (if g then a else b) key) with (get b key);
             [|destruct g;
               [rewrite !get_set; decide_keys; reflexivity | reflexivity]]
         end.

Lemma back_radius_values text fields :
  wanted fields ["rh"; "radius"]%string = true ->
  get (parseCorneaData text fields) (js "Back_Rh")
    = Some (extractValueWithNegative (backText text) (reLabel "Rh") 1)
  /\ get (parseCorneaData text fields) (js "Back_Rv")
    = Some (extractValueWithNegative (backText text) (reLabel "Rv") 1)
  /\ get (parseCorneaData text fields) (js "Back_Rm")
    = Some (extractValueWithNegative (backText text) (reLabel "Rm") 1).
Proof.
  intros H. unfold parseCorneaData. cbv zeta.
  unfold acDepthPupilDia, pachymetry, backRperRmin, backQval, backAxisAstig,
    backKeratometry, backRadius.
  rewrite H. cbv zeta.
  repeat split; skip_blocks; rewrite !get_set; decide_keys; reflexivity.
Qed.

Lemma acDepth_field text fields :
  wanted fields ["ac"; "depth"; "pupil"]%string = true ->
  get (parseCorneaData text fields) (js "AC_Depth") = Some (acDepthValue text).
Proof.
  intros H. unfold parseCorneaData. cbv zeta. unfold acDepthPupilDia.
  rewrite H. cbv zeta. rewrite !get_set. decide_keys. reflexivity.
Qed.

(** *** Values of the unsigned label patterns *)

Ltac decide_units :=
  repeat match goal with
         | |- context [(?a <=? ?b)%N] =>
             first [ rewrite (proj2 (N.leb_gt a b)) by lia
                   | rewrite (proj2 (N.leb_le a b)) by lia ]
         | |- context [(?a =? ?b)%N] =>
             first [ rewrite (proj2 (N.eqb_neq a b)) by lia
                   | rewrite (proj2 (N.eqb_eq a b)) by lia ]
         end.

Lemma digitDot_range ch : digitDot ch = true -> (46 <= ch <= 57)%N.
Proof.
  unfold digitDot, isDigit. intros H.
  apply orb_true_iff in H as [H|H].
  - apply andb_true_iff in H as [H1 H2].
    apply N.leb_le in H1, H2. lia.
  - apply N.eqb_eq in H. lia.
Qed.

Lemma digitDot_not_space ch : digitDot ch = true -> isWhiteSpace ch = false.
Proof.
  intros H. apply digitDot_range in H. unfold isWhiteSpace.
  decide_units. reflexivity.
Qed.

Lemma trim_id (v : jsstring) :
  Forall (fun ch => isWhiteSpace ch = false) v -> trim v = v.
Proof.
  intros H. unfold trim, trimEnd.
  assert (forall u : jsstring,
             Forall (fun ch => isWhiteSpace ch = false) u -> trimStart u = u) as Hs.
  { intros u Hu. destruct Hu as [|ch u Hch Hu]; [reflexivity|].
    simpl. rewrite Hch. reflexivity. }
  rewrite (Hs v H), Hs, rev_involutive; [reflexivity|].
  apply Forall_rev. exact H.
Qed.

Lemma extract_label_unsigned text label :
  unsignedOrSentinel (extractValueWithNegative text (reLabel label) 1).
Proof.
  unfold extractValueWithNegative, String_match.
  destruct (searchFrom (reLabel label) text 0) as [[[a e] c]|] eqn:E;
    [|left; reflexivity].
  apply searchFrom_sound in E as (pre & rest & s' & -> & -> & Hm).
  apply labelled_capture in Hm as (pA & v & -> & Hcap & -> & Hne & HF).
  unfold group. simpl m_captures. rewrite Hcap. simpl m_input.
  unfold substring.
  replace (0 + length pre + length pA + length v - (0 + length pre + length pA))
    with (length v) by lia.
  replace (pre ++ pA ++ v ++ s') with ((pre ++ pA) ++ v ++ s')
    by (rewrite <- app_assoc; reflexivity).
  replace (0 + length pre + length pA) with (length (pre ++ pA))
    by (rewrite length_app; lia).
  rewrite drop_app_length, take_app_length.
  destruct v as [|ch v]; [contradiction|].
  right. rewrite trim_id.
  - split; [discriminate | assumption].
  - eapply Forall_impl; [exact HF|]. apply digitDot_not_space.
Qed.

(** C6 (as the code has it): the back Radius fields are extracted with
    the same unsigned pattern as the front ones, [<Label>[:\s]+([0-9.]+)]:
    when the radius group is requested, each of Back_Rh, Back_Rv, Back_Rm
    holds the sentinel or a non-empty string of digits and dots, never a
    signed number.  On a back section that reads "Rh: -6.10" the field
    Back_Rh holds the sentinel; on "Rh: 6.10" it holds "6.10". *)
Theorem back_radius_unsigned :
  (forall text fields,
      wanted fields ["rh"; "radius"]%string = true ->
      Forall (fun key =>
                exists v, get (parseCorneaData text fields) key = Some v
                          /\ unsignedOrSentinel v)
             [js "Back_Rh"; js "Back_Rv"; js "Back_Rm"])
  /\ get (parseCorneaData signedRadiusText (js "rh")) (js "Back_Rh")
     = Some sentinel
  /\ get (parseCorneaData unsignedRadiusText (js "rh")) (js "Back_Rh")
     = Some (js "6.10").
Proof.
  split; [|split; vm_compute; reflexivity].
  intros text fields H.
  destruct (back_radius_values text fields H) as (Hh & Hv & Hm).
  repeat constructor; eexists; (split; [eassumption | apply extract_label_unsigned]).
Qed.

Lemma back_radius_unsigned_witness :
  wanted (js "radius, k") ["rh"; "radius"]%string = true
  /\ exists v, get (parseCorneaData signedRadiusText (js "radius, k")) (js "Back_Rh")
               = Some v /\ unsignedOrSentinel v.
Proof.
  split; [reflexivity|].
  exact (Forall_inv
           (proj1 back_radius_unsigned signedRadiusText (js "radius, k") eq_refl)).
Defined.

(** The claim as written fails on the signed sample. *)
Lemma back_radius_sign_lost :
  wanted (js "rh") ["rh"; "radius"]%string = true
  /\ includes (js "Rh: -6.10") (backText signedRadiusText) = true
  /\ get (parseCorneaData signedRadiusText (js "rh")) (js "Back_Rh")
     = Some (js "-")
  /\ get (parseCorneaData signedRadiusText (js "rh")) (js "Back_Rh")
     <> Some (js "-6.10").
Proof.
  repeat split; try (vm_compute; reflexivity).
  vm_compute. discriminate.
Qed.

(** *** The anterior-chamber depth *)

(** The decimal pattern at one position. *)
Lemma matchR_reDecimal s i :
  matchR reDecimal accept s i []
  = match decimalAt s with
    | Some d => Some (i + length d, [(1, (i, i + length d))])
    | None => None
    end.
Proof.
  unfold reDecimal, decimalAt, chr. cbn [seqs].
  rewrite matchR_Group, matchR_Seq, matchR_Plus.
  destruct s as [|d s]; [reflexivity|]. cbn [takeWhile dropWhile].
  rewrite matchR_Char.
  destruct (isDigit d) eqn:Hd; [|reflexivity].
  rewrite matchR_star_char, starChar_greedy.
  2:{ intros ch s0 i0 c0 Hch. rewrite matchR_Seq, matchR_Char.
      destruct (N.eqb_spec ch 46) as [->|]; [discriminate | reflexivity]. }
  rewrite matchR_Seq.
  destruct (dropWhile isDigit s) as [|dot rest]; [reflexivity|].
  rewrite matchR_Char.
  destruct (dot =? 46)%N; [|reflexivity].
  rewrite matchR_Plus.
  destruct rest as [|f rest]; [reflexivity|]. cbn [takeWhile].
  rewrite matchR_Char.
  destruct (isDigit f) eqn:Hf; [|reflexivity].
  rewrite matchR_star_char, starChar_total by discriminate.
  unfold accept. rewrite !length_app. cbn [length].
  f_equal. f_equal; [lia|]. f_equal. f_equal. f_equal. lia.
Qed.

Lemma decimalAt_prefix s d : decimalAt s = Some d -> exists rest, s = d ++ rest.
Proof.
  unfold decimalAt. intros H.
  pose proof (take_drop_while isDigit s) as Hs.
  destruct (takeWhile isDigit s) as [|d0 whole]; [discriminate|].
  destruct (dropWhile isDigit s) as [|dot rest]; [discriminate|].
  destruct (N.eqb_spec dot 46) as [->|]; [|discriminate].
  pose proof (take_drop_while isDigit rest) as Hr.
  destruct (takeWhile isDigit rest) as [|f frac]; [discriminate|].
  injection H as <-. exists (dropWhile isDigit rest).
  rewrite <- Hs. rewrite <- Hr at 1.
  cbn [app]. f_equal. rewrite <- app_assoc. reflexivity.
Qed.

Lemma decimalAt_isDecimal s d : decimalAt s = Some d -> isDecimal d.
Proof.
  unfold decimalAt. intros H.
  pose proof (takeWhile_Forall isDigit s) as Hw.
  destruct (takeWhile isDigit s) as [|d0 whole]; [discriminate|].
  destruct (dropWhile isDigit s) as [|dot rest]; [discriminate|].
  destruct (N.eqb_spec dot 46) as [->|]; [|discriminate].
  pose proof (takeWhile_Forall isDigit rest) as Hf.
  destruct (takeWhile isDigit rest) as [|f frac]; [discriminate|].
  injection H as <-. exists (d0 :: whole), (f :: frac).
  repeat split; try assumption; discriminate.
Qed.

(** [firstDecimal] does return a decimal number that stands in the
    string, and no decimal number starts further left. *)
Lemma firstDecimal_sound : forall s d,
  firstDecimal s = Some d ->
  isDecimal d
  /\ exists pre rest,
       s = pre ++ d ++ rest
       /\ forall p1 p2, pre = p1 ++ p2 -> p2 <> [] ->
            decimalAt (p2 ++ d ++ rest) = None.
Proof.
  induction s as [|ch s IH]; intros d; cbn [firstDecimal].
  - discriminate.
  - destruct (decimalAt (ch :: s)) as [d'|] eqn:E.
    + intros [= ->]. split; [eapply decimalAt_isDecimal; eassumption|].
      destruct (decimalAt_prefix _ _ E) as [rest Hrest].
      exists [], rest. split; [assumption|].
      intros p1 p2 Hp Hne. destruct p1; destruct p2; try discriminate.
      contradiction.
    + intros H. destruct (IH d H) as (Hdec & pre & rest & -> & Hleft).
      split; [assumption|]. exists (ch :: pre), rest. split; [reflexivity|].
      intros p1 p2 Hp Hne. destruct p1 as [|c1 p1].
      * simpl in Hp. subst p2. exact E.
      * injection Hp as -> ->. apply (Hleft p1 p2); [reflexivity | assumption].
Qed.

Lemma searchFrom_reDecimal : forall s i,
  (firstDecimal s = None /\ searchFrom reDecimal s i = None)
  \/ exists pre d rest,
       s = pre ++ d ++ rest /\ firstDecimal s = Some d
       /\ searchFrom reDecimal s i
          = Some (i + length pre, i + length pre + length d,
                  [(1, (i + length pre, i + length pre + length d))]).
Proof.
  induction s as [|ch s IH]; intros i.
  - left. split; reflexivity.
  - cbn [searchFrom firstDecimal]. rewrite matchR_reDecimal.
    destruct (decimalAt (ch :: s)) as [d|] eqn:E.
    + right. destruct (decimalAt_prefix _ _ E) as [rest Hrest].
      exists [], d, rest. cbn [length app]. rewrite Nat.add_0_r. auto.
    + destruct (IH (S i)) as [[H1 H2]|(pre & d & rest & -> & H1 & H2)].
      * left. split; assumption.
      * right. exists (ch :: pre), d, rest. cbn [length app].
        rewrite H2. repeat split; [assumption|].
        replace (S i + length pre) with (i + S (length pre)) by lia.
        reflexivity.
Qed.

Lemma match_reDecimal s :
  match String_match s reDecimal with
  | Some numberMatch => default [] (group numberMatch 1)
  | None => sentinel
  end = default sentinel (firstDecimal s).
Proof.
  unfold String_match.
  destruct (searchFrom_reDecimal s 0) as [[H1 H2]|(pre & d & rest & -> & H1 & H2)].
  - rewrite H1, H2. reflexivity.
  - rewrite H1, H2. unfold group.
    cbn [m_captures lookupCapture Nat.eqb m_input default].
    unfold substring. cbn [Nat.add].
    replace (length pre + length d - length pre) with (length d) by lia.
    rewrite drop_app_length, take_app_length. reflexivity.
Qed.

Lemma indexOfFrom_colon : forall s i,
  match afterFirstColon s with
  | None => indexOfFrom 58 s i = (-1)%Z
  | Some rest =>
      exists pre, s = pre ++ 58%N :: rest
        /\ indexOfFrom 58 s i = (i + Z.of_nat (length pre))%Z
  end.
Proof.
  induction s as [|ch s IH]; intros i; cbn [afterFirstColon indexOfFrom].
  - reflexivity.
  - destruct (N.eqb_spec ch 58) as [->|].
    + exists []. split; [reflexivity | simpl; lia].
    + specialize (IH (i + 1)%Z). destruct (afterFirstColon s) as [rest|].
      * destruct IH as (pre & -> & ->). exists (ch :: pre).
        split; [reflexivity | simpl length; lia].
      * exact IH.
Qed.

(** The program computes the rule of the specification. *)
Lemma acDepthValue_acDepthSpec text : acDepthValue text = acDepthSpec text.
Proof.
  unfold acDepthValue, acDepthSpec, String_search, reDepth.
  rewrite searchFrom_lit_i.
  destruct (firstOccurrence_i (js "Depth") text 0) as [a|]; [|reflexivity].
  destruct (Z.eqb_spec (Z.of_nat a) (-1)); [lia|].
  unfold substring. rewrite Nat2Z.id.
  replace (Z.to_nat (Z.of_nat a + 150) - a) with 150 by lia.
  pose proof (indexOfFrom_colon (take 150 (drop a text)) 0) as Hc.
  unfold indexOf.
  destruct (afterFirstColon (take 150 (drop a text))) as [rest|].
  - destruct Hc as (pre & Hw & ->).
    destruct (Z.eqb_spec (0 + Z.of_nat (length pre)) (-1)); [lia|].
    rewrite Hw.
    replace (Z.to_nat (0 + Z.of_nat (length pre) + 1))
      with (length (pre ++ [58%N])) by (rewrite length_app; simpl; lia).
    replace (pre ++ 58%N :: rest) with ((pre ++ [58%N]) ++ rest)
      by (rewrite <- app_assoc; reflexivity).
    rewrite drop_app_length. apply match_reDecimal.
  - rewrite Hc. reflexivity.
Qed.

Lemma firstOccurrence_absent w : forall s i,
  ~ occurs_i w s -> firstOccurrence_i w s i = None.
Proof.
  induction s as [|ch s IH]; intros i Hno; cbn [firstOccurrence_i].
  - destruct (startsWith_i w []) eqn:E; [|reflexivity].
    exfalso. apply Hno. exists [], []. auto.
  - destruct (startsWith_i w (ch :: s)) eqn:E.
    + exfalso. apply Hno. exists [], (ch :: s). auto.
    + apply IH. intros (pre & post & -> & H). apply Hno.
      exists (ch :: pre), post. auto.
Qed.

(** In a text that holds the sample after a part without "Depth", the
    first "Depth" is the one of the sample. *)
Lemma depthExample_first pre post : forall i,
  ~ occurs_i (js "Depth") pre ->
  firstOccurrence_i (js "Depth") (pre ++ depthExample ++ post) i
  = Some (i + (5 + length pre)).
Proof.
  induction pre as [|ch pre IH]; intros i Hno.
  - cbn [app length]. rewrite Nat.add_0_r.
    replace (i + 5) with (S (S (S (S (S i))))) by lia. reflexivity.
  - cbn [app firstOccurrence_i length].
    assert (~ occurs_i (js "Depth") pre) as Hno'.
    { intros (p & q & -> & H). apply Hno. exists (ch :: p), q. auto. }
    rewrite (IH (S i) Hno').
    replace (S i + (5 + length pre)) with (i + (5 + S (length pre))) by lia.
    assert (startsWith_i (js "Depth") (ch :: pre ++ depthExample ++ post) = false)
      as ->; [|reflexivity].
    destruct pre as [|c1 [|c2 [|c3 [|c4 pre]]]].
    + cbn. apply andb_false_r.
    + cbn. rewrite !andb_false_r. reflexivity.
    + cbn. rewrite !andb_false_r. reflexivity.
    + cbn. rewrite !andb_false_r. reflexivity.
    + destruct (startsWith_i _ _) eqn:E; [|reflexivity].
      exfalso. apply Hno. exists [], (ch :: c1 :: c2 :: c3 :: c4 :: pre).
      split; [reflexivity|]. exact E.
Qed.

(** C9: when its group is requested, AC_Depth holds the value of the
    rule "window of 150 characters from the first Depth (any letter case),
    first colon of the window, first decimal number after the colon"; it
    holds the sentinel when the text has no "Depth", when the window has no
    colon, and when no decimal number follows the colon.  The number found
    is a decimal number (digits, dot, digits) that stands after the colon,
    and none starts before it.  A text that holds "A.C. Depth(Int.): 3.22
    mm" after a part without "Depth" yields "3.22"; a text without "Depth"
    yields "-". *)
Theorem anterior_chamber_depth :
  (forall text fields,
      wanted fields ["ac"; "depth"; "pupil"]%string = true ->
      get (parseCorneaData text fields) (js "AC_Depth") = Some (acDepthSpec text))
  /\ (forall text, ~ occurs_i (js "Depth") text -> acDepthValue text = js "-")
  /\ (forall text i,
        firstOccurrence_i (js "Depth") text 0 = Some i ->
        afterFirstColon (take 150 (drop i text)) = None ->
        acDepthValue text = js "-")
  /\ (forall text i rest,
        firstOccurrence_i (js "Depth") text 0 = Some i ->
        afterFirstColon (take 150 (drop i text)) = Some rest ->
        (firstDecimal rest = None -> acDepthValue text = js "-")
        /\ (forall d, firstDecimal rest = Some d ->
              acDepthValue text = d /\ isDecimal d
              /\ exists before after,
                   rest = before ++ d ++ after
                   /\ forall p1 p2, before = p1 ++ p2 -> p2 <> [] ->
                        decimalAt (p2 ++ d ++ after) = None))
  /\ (forall pre post, ~ occurs_i (js "Depth") pre ->
        acDepthValue (pre ++ depthExample ++ post) = js "3.22").
Proof.
  split; [|split; [|split; [|split]]].
  - intros text fields H. rewrite <- acDepthValue_acDepthSpec.
    apply acDepth_field. exact H.
  - intros text Hno. rewrite acDepthValue_acDepthSpec. unfold acDepthSpec.
    rewrite firstOccurrence_absent by assumption. reflexivity.
  - intros text i Hi Hc. rewrite acDepthValue_acDepthSpec. unfold acDepthSpec.
    rewrite Hi, Hc. reflexivity.
  - intros text i rest Hi Hc. split.
    + intros Hd. rewrite acDepthValue_acDepthSpec. unfold acDepthSpec.
      rewrite Hi, Hc, Hd. reflexivity.
    + intros d Hd. split.
      * rewrite acDepthValue_acDepthSpec. unfold acDepthSpec.
        rewrite Hi, Hc, Hd. reflexivity.
      * apply firstDecimal_sound. exact Hd.
  - intros pre post Hno. rewrite acDepthValue_acDepthSpec. unfold acDepthSpec.
    rewrite depthExample_first by assumption.
    replace (0 + (5 + length pre)) with (length pre + 5) by lia.
    rewrite <- drop_drop, drop_app_length.
    vm_compute. reflexivity.
Qed.

Lemma firstOccurrence_None w : forall s i,
  firstOccurrence_i w s i = None -> ~ occurs_i w s.
Proof.
  induction s as [|ch s IH]; intros i; cbn [firstOccurrence_i].
  - destruct (startsWith_i w []) eqn:E; [discriminate|].
    intros _ (pre & post & H & Hs).
    destruct pre; destruct post; try discriminate. congruence.
  - destruct (startsWith_i w (ch :: s)) eqn:E; [discriminate|].
    intros H (pre & post & Hp & Hs). destruct pre as [|c pre].
    + simpl in Hp. subst post. congruence.
    + injection Hp as -> ->. apply (IH _ H). exists pre, post. auto.
Qed.

Lemma anterior_chamber_depth_witness :
  ~ occurs_i (js "Depth") (js "K1: 43.50 ")
  /\ acDepthValue (js "K1: 43.50 " ++ depthExample ++ js " Pupil Dia: 2.92 mm")
     = js "3.22".
Proof.
  assert (~ occurs_i (js "Depth") (js "K1: 43.50 ")) as Hno.
  { apply (firstOccurrence_None _ _ 0). reflexivity. }
  split; [exact Hno|].
  exact (proj2 (proj2 (proj2 (proj2 anterior_chamber_depth))) _ _ Hno).
Defined.

(** *** Gating by substring *)

Lemma pupilDia_field text fields :
  wanted fields ["ac"; "depth"; "pupil"]%string = true ->
  get (parseCorneaData text fields) (js "Pupil_Dia") = Some (pupilDiaValue text).
Proof.
  intros H. unfold parseCorneaData. cbv zeta. unfold acDepthPupilDia.
  rewrite H. cbv zeta. rewrite !get_set. decide_keys. reflexivity.
Qed.

(** C10: with requested fields "pachy", whatever the text, the parser
    adds the three Pachymetry keys and also AC_Depth and Pupil_Dia (and no
    other key): the token "pachy" contains the keyword "ac" of the last
    group, and the gate is a substring test. *)
Theorem pachy_filter_keys text :
  requestedFields (js "pachy") = [js "pachy"]
  /\ includes (js "ac") (js "pachy") = true
  /\ keys (parseCorneaData text (js "pachy"))
     = [js "Pachy_Center"; js "Pachy_Apex"; js "Pachy_Thinnest";
        js "AC_Depth"; js "Pupil_Dia"]
  /\ get (parseCorneaData text (js "pachy")) (js "AC_Depth")
     = Some (acDepthValue text)
  /\ get (parseCorneaData text (js "pachy")) (js "Pupil_Dia")
     = Some (pupilDiaValue text).
Proof.
  split; [reflexivity|]. split; [reflexivity|]. split.
  - unfold_blocks. decide_gates. rewrite !keys_set. reflexivity.
  - split; [apply acDepth_field | apply pupilDia_field]; reflexivity.
Qed.

(** *** The midpoint split *)

Lemma lines_nonEmpty text line : In line (lines text) -> line <> [].
Proof.
  unfold lines. intros H. apply filter_In in H as [_ H].
  destruct line; [discriminate | congruence].
Qed.

Lemma findIndexFrom_found {A} (p : A -> bool) (l : list A) (i : Z) :
  findIndexFrom p l i <> (-1)%Z -> l <> [].
Proof. destruct l; simpl; congruence. Qed.

Lemma join_nil_inv sep (l : list jsstring) :
  (forall line, In line l -> line <> []) -> join sep l = [] -> l = [].
Proof.
  destruct l as [|line l]; [reflexivity|]. intros Hne H. exfalso.
  apply (Hne line); [left; reflexivity|].
  destruct l; simpl in H; [assumption|].
  destruct line; [reflexivity | discriminate].
Qed.

Lemma branch_midpoint text :
  (frontIndex text <> -1 \/ backIndex text <> -1)%Z ->
  ~ (frontIndex text <> -1 /\ backIndex text <> -1
     /\ backIndex text > frontIndex text)%Z ->
  bothFound text = false /\ oneFound text = true.
Proof.
  intros Hone Hboth. unfold bothFound, oneFound. split.
  - destruct (Z.eqb_spec (frontIndex text) (-1)); simpl; [reflexivity|].
    destruct (Z.eqb_spec (backIndex text) (-1)); simpl; [reflexivity|].
    destruct (Z.gtb_spec (backIndex text) (frontIndex text)); [|reflexivity].
    exfalso. apply Hboth. repeat split; try assumption. lia.
  - destruct (Z.eqb_spec (frontIndex text) (-1)); simpl; [|reflexivity].
    destruct (Z.eqb_spec (backIndex text) (-1)); simpl; [|reflexivity].
    destruct Hone; contradiction.
Qed.

(** C8 (as the code has it): when exactly one heading is found, or both
    with the back heading not after the front one, the list of trimmed
    non-empty lines is split at floor(n/2), the first half joined by spaces
    being frontText and the second half backText.  backText is never empty;
    frontText is non-empty exactly when there are at least two lines. *)
Theorem midpoint_split text :
  (frontIndex text <> -1 \/ backIndex text <> -1)%Z ->
  ~ (frontIndex text <> -1 /\ backIndex text <> -1
     /\ backIndex text > frontIndex text)%Z ->
  frontText text = join (js " ") (take (length (lines text) / 2) (lines text))
  /\ backText text = join (js " ") (drop (length (lines text) / 2) (lines text))
  /\ backText text <> []
  /\ (frontText text <> [] <-> 2 <= length (lines text)).
Proof.
  intros Hone Hboth.
  destruct (branch_midpoint text Hone Hboth) as [Hb Ho].
  assert (lines text <> []) as Hlines.
  { destruct Hone as [H|H]; revert H; unfold frontIndex, backIndex, findIndex;
      apply findIndexFrom_found. }
  assert (frontText text
          = join (js " ") (take (length (lines text) / 2) (lines text))) as Hf.
  { unfold frontText. rewrite Hb, Ho. unfold slice, midpoint.
    rewrite Nat2Z.id. simpl Z.to_nat. rewrite Nat.sub_0_r. reflexivity. }
  assert (backText text
          = join (js " ") (drop (length (lines text) / 2) (lines text))) as Hk.
  { unfold backText. rewrite Hb, Ho. unfold sliceFrom, midpoint.
    rewrite Nat2Z.id. reflexivity. }
  assert (length (lines text) <> 0) as Hlen.
  { destruct (lines text); [contradiction | discriminate]. }
  assert (length (lines text) / 2 < length (lines text)) as Hhalf.
  { apply Nat.div_lt; lia. }
  split; [exact Hf|]. split; [exact Hk|]. split.
  - rewrite Hk. intros H. apply join_nil_inv in H.
    + apply (f_equal length) in H. rewrite length_drop in H. cbn [length] in H.
      revert H Hhalf. generalize (length (lines text) / 2). intros; lia.
    + intros line Hx. apply (lines_nonEmpty text).
      apply list_elem_of_In. apply list_elem_of_In in Hx.
      exact (subseteq_drop _ _ _ Hx).
  - rewrite Hf. split.
    + intros H. destruct (length (lines text)) as [|[|n]] eqn:E; [lia | | lia].
      exfalso. apply H. reflexivity.
    + intros H2 H. apply join_nil_inv in H.
      * apply (f_equal length) in H. rewrite length_take in H. cbn [length] in H.
        assert (1 <= length (lines text) / 2) as H1
            by (apply Nat.div_le_lower_bound; lia).
        revert H H1 Hhalf. generalize (length (lines text) / 2). intros; lia.
      * intros line Hx. apply (lines_nonEmpty text).
        apply list_elem_of_In. apply list_elem_of_In in Hx.
        exact (subseteq_take _ _ _ Hx).
Qed.

Lemma midpoint_split_witness :
  (frontIndex (js "Front" ++ nl ++ js "K1: 43.50") <> -1
   \/ backIndex (js "Front" ++ nl ++ js "K1: 43.50") <> -1)%Z
  /\ frontText (js "Front" ++ nl ++ js "K1: 43.50") = js "Front"
  /\ backText (js "Front" ++ nl ++ js "K1: 43.50") = js "K1: 43.50".
Proof.
  assert (frontIndex (js "Front" ++ nl ++ js "K1: 43.50") <> -1
          \/ backIndex (js "Front" ++ nl ++ js "K1: 43.50") <> -1)%Z as H1.
  { left. vm_compute. discriminate. }
  assert (~ (frontIndex (js "Front" ++ nl ++ js "K1: 43.50") <> -1
             /\ backIndex (js "Front" ++ nl ++ js "K1: 43.50") <> -1
             /\ backIndex (js "Front" ++ nl ++ js "K1: 43.50")
                > frontIndex (js "Front" ++ nl ++ js "K1: 43.50"))%Z) as H2.
  { intros (_ & H & _). apply H. reflexivity. }
  split; [exact H1|].
  destruct (midpoint_split _ H1 H2) as (Hf & Hb & _).
  split; [rewrite Hf | rewrite Hb]; reflexivity.
Defined.

(** With one line only the first half is empty: the claim that both
    sections are non-empty fails on the text "Front". *)
Lemma midpoint_split_single_line :
  (frontIndex (js "Front") <> -1 \/ backIndex (js "Front") <> -1)%Z
  /\ ~ (frontIndex (js "Front") <> -1 /\ backIndex (js "Front") <> -1
        /\ backIndex (js "Front") > frontIndex (js "Front"))%Z
  /\ lines (js "Front") = [js "Front"]
  /\ frontText (js "Front") = []
  /\ ~ (frontText (js "Front") <> [] /\ backText (js "Front") <> []).
Proof.
  split; [left; vm_compute; discriminate|].
  split; [intros (_ & H & _); apply H; reflexivity|].
  split; [reflexivity|]. split; [reflexivity|].
  intros [H _]. apply H. reflexivity.
Qed.

(** ** The region compositor *)

Lemma canvasSize_nonneg q d : (0 <= d)%Z -> (0 <= canvasSize q d)%Z.
Proof.
  intros Hd. unfold canvasSize.
  destruct (Z.leb_spec (truncate q mod 4294967296) 2147483647); [|assumption].
  apply Z.mod_pos_bound. lia.
Qed.

Section Compositor.

Variable file : File.

(** A crop that succeeds has pixels. *)
Lemma cropRegion_size rect blob :
  cropRegion file rect = Resolved blob ->
  (0 < blobWidth blob)%Z /\ (0 < blobHeight blob)%Z.
Proof.
  unfold cropRegion, toBlob. destruct file as [img|]; [|discriminate].
  pose proof (canvasSize_nonneg
                (width rect * inject_Z (naturalWidth img))%Q 300 ltac:(lia)).
  pose proof (canvasSize_nonneg
                (height rect * inject_Z (naturalHeight img))%Q 150 ltac:(lia)).
  destruct (Z.eqb_spec (canvasSize (width rect * inject_Z (naturalWidth img)) 300) 0);
    destruct (Z.eqb_spec (canvasSize (height rect * inject_Z (naturalHeight img)) 150) 0);
    simpl; try discriminate.
  intros [= <-]. simpl. lia.
Qed.

Lemma cropAll_spec rects crops :
  cropAll file rects = Resolved crops ->
  List.map c_id crops = List.map id rects
  /\ Forall (fun crop => (0 < c_width crop)%Z) crops.
Proof.
  revert crops. induction rects as [|rect rects IH]; intros crops; simpl.
  - intros [= <-]. split; constructor.
  - destruct (cropRegion file rect) as [blob|e] eqn:Hcrop; simpl; [|discriminate].
    destruct (cropAll file rects) as [rest|e]; simpl; [|discriminate].
    intros [= <-]. destruct (IH rest eq_refl) as [Hids Hpos].
    apply cropRegion_size in Hcrop.
    split; simpl; [f_equal; assumption|].
    constructor; [simpl; lia | assumption].
Qed.

Lemma cropAll_length rects crops :
  cropAll file rects = Resolved crops -> length crops = length rects.
Proof.
  intros H. apply cropAll_spec in H as [H _].
  rewrite <- (length_map c_id), H, length_map. reflexivity.
Qed.

(** Without a flat region every crop succeeds. *)
Lemma cropAll_resolves img rects :
  file = Some img ->
  Forall (fun rect => degenerate img rect = false) rects ->
  exists crops, cropAll file rects = Resolved crops.
Proof.
  intros Hfile. induction 1 as [|rect rects Hrect _ [crops IH]].
  - eexists. reflexivity.
  - cbn [cropAll]. rewrite IH.
    assert (exists blob, cropRegion file rect = Resolved blob) as [blob ->].
    { unfold cropRegion. rewrite Hfile. unfold toBlob.
      unfold degenerate in Hrect. rewrite Hrect. eexists. reflexivity. }
    simpl. eexists. reflexivity.
Qed.

(** One flat region makes the first loop fail. *)
Lemma cropAll_degenerate img rects rect :
  file = Some img -> In rect rects -> degenerate img rect = true ->
  cropAll file rects = Rejected (js "Could not create blob").
Proof.
  intros Hfile Hin Hdeg.
  induction rects as [|r rects IH]; [contradiction|]. simpl.
  assert (forall r', cropRegion file r' = Rejected (js "Could not create blob")
                     \/ exists blob, cropRegion file r' = Resolved blob) as Hcases.
  { intros r'. unfold cropRegion. rewrite Hfile.
    destruct (toBlob _ _); [right; eexists; reflexivity | left; reflexivity]. }
  destruct Hin as [->|Hin].
  - unfold cropRegion at 1. rewrite Hfile. unfold toBlob.
    unfold degenerate in Hdeg. rewrite Hdeg. reflexivity.
  - destruct (Hcases r) as [->|[blob ->]]; [reflexivity|].
    simpl. rewrite (IH Hin). reflexivity.
Qed.

End Compositor.

Lemma drawAll_ids crops currentX :
  List.map b_id (drawAll crops currentX) = List.map c_id crops.
Proof.
  revert currentX.
  induction crops as [|c crops IH]; intros currentX; simpl; [|rewrite IH];
    reflexivity.
Qed.

Lemma drawAll_lookup crops : forall currentX i b,
  drawAll crops currentX !! i = Some b ->
  exists crop, crops !! i = Some crop
    /\ b_id b = c_id crop /\ (xEnd b = xStart b + c_width crop)%Z.
Proof.
  induction crops as [|c crops IH]; intros currentX i b; simpl; [discriminate|].
  destruct i as [|i]; simpl.
  - intros [= <-]. exists c. simpl. auto.
  - apply IH.
Qed.

Lemma drawAll_after crops : forall currentX,
  Forall (fun crop => (0 < c_width crop)%Z) crops ->
  Forall (fun b => (currentX <= xStart b)%Z) (drawAll crops currentX).
Proof.
  induction crops as [|c crops IH]; intros currentX Hpos; simpl; constructor.
  - simpl. lia.
  - inversion Hpos as [|? ? Hc Hrest]; subst.
    eapply Forall_impl; [apply (IH _ Hrest)|].
    unfold GAP. simpl. intros b Hb. lia.
Qed.

Lemma drawAll_next crops : forall currentX i a b,
  drawAll crops currentX !! i = Some a ->
  drawAll crops currentX !! S i = Some b ->
  (xStart b = xEnd a + GAP)%Z.
Proof.
  induction crops as [|c crops IH]; intros currentX i a b; simpl; [discriminate|].
  destruct i as [|i]; simpl.
  - intros [= <-]. destruct crops as [|c' crops]; simpl; [discriminate|].
    intros [= <-]. reflexivity.
  - apply IH.
Qed.

Lemma drawAll_ordered crops : forall currentX i j a b,
  Forall (fun crop => (0 < c_width crop)%Z) crops ->
  i < j ->
  drawAll crops currentX !! i = Some a ->
  drawAll crops currentX !! j = Some b ->
  (xEnd a + GAP <= xStart b)%Z.
Proof.
  induction crops as [|c crops IH]; intros currentX i j a b Hpos Hij; simpl;
    [discriminate|].
  inversion Hpos as [|? ? Hc Hrest]; subst.
  destruct j as [|j]; [lia|]. destruct i as [|i]; simpl.
  - intros [= <-] Hb. simpl.
    pose proof (drawAll_after crops (currentX + c_width c + GAP) Hrest) as Hall.
    rewrite Forall_lookup in Hall. apply (Hall _ _ Hb).
  - apply IH; [assumption | lia].
Qed.

Lemma sumWidths_from crops : forall acc,
  fold_left (fun sum img => (sum + c_width img)%Z) crops acc
  = (acc + sumWidths crops)%Z.
Proof.
  unfold sumWidths. induction crops as [|c crops IH]; intros acc; simpl; [lia|].
  rewrite (IH (acc + c_width c)%Z), (IH (0 + c_width c)%Z). lia.
Qed.

Lemma sumWidths_cons c crops :
  sumWidths (c :: crops) = (c_width c + sumWidths crops)%Z.
Proof. unfold sumWidths at 1. simpl. rewrite sumWidths_from. lia. Qed.

Lemma sumWidths_lower crops :
  Forall (fun crop => (0 < c_width crop)%Z) crops ->
  (Z.of_nat (length crops) <= sumWidths crops)%Z.
Proof.
  induction 1 as [|c crops Hc _ IH]; [reflexivity|].
  rewrite sumWidths_cons. simpl length. lia.
Qed.

Lemma drawAll_last crops : forall currentX b,
  last (drawAll crops currentX) = Some b ->
  (xEnd b
   = currentX + sumWidths crops + GAP * (Z.of_nat (length crops) - 1))%Z.
Proof.
  induction crops as [|c crops IH]; intros currentX b; [discriminate|].
  destruct crops as [|c' crops].
  - simpl. intros [= <-]. unfold sumWidths, GAP. simpl. lia.
  - change (drawAll (c :: c' :: crops) currentX)
      with ({| b_id := c_id c; xStart := currentX;
               xEnd := currentX + c_width c |}
              :: drawAll (c' :: crops) (currentX + c_width c + GAP)).
    rewrite last_cons.
    destruct (last (drawAll (c' :: crops) (currentX + c_width c + GAP)))
      as [b'|] eqn:Hl.
    + intros [= <-]. rewrite (IH _ _ Hl).
      rewrite (sumWidths_cons c). simpl length. lia.
    + apply last_None in Hl. discriminate.
Qed.

(** C2: for a non-empty list of regions none of which is flat, the
    compositor returns; and when it returns, the boundaries are those of
    the regions in the same order, the range of each is as wide as its
    crop, a range ends before every later range starts, consecutive
    ranges are exactly GAP pixels apart, and the width given to the canvas
    is the sum of the crop widths plus GAP times (n - 1), which is where
    the last range ends. *)
Theorem layout_of_combineRegions file rects :
  rects <> [] ->
  (forall img, file = Some img ->
     Forall (fun rect => degenerate img rect = false) rects ->
     exists res, combineRegions file rects = Resolved res)
  /\ forall res, combineRegions file rects = Resolved res ->
     exists crops, cropAll file rects = Resolved crops
       /\ List.map b_id (boundaries res) = List.map id rects
       /\ (forall i b, boundaries res !! i = Some b ->
             exists crop, crops !! i = Some crop
               /\ (xEnd b - xStart b = c_width crop)%Z /\ (0 < c_width crop)%Z)
       /\ (forall i j a b, i < j ->
             boundaries res !! i = Some a -> boundaries res !! j = Some b ->
             (xEnd a <= xStart b)%Z)
       /\ (forall i a b,
             boundaries res !! i = Some a -> boundaries res !! S i = Some b ->
             (xStart b - xEnd a = GAP)%Z)
       /\ (totalWidth res
           = sumWidths crops + GAP * (Z.of_nat (length rects) - 1))%Z
       /\ (0 < totalWidth res)%Z
       /\ (forall b, last (boundaries res) = Some b -> xEnd b = totalWidth res).
Proof.
  intros Hne. split.
  { intros img Hfile Hgood.
    destruct (cropAll_resolves file img rects Hfile Hgood) as [crops Hcrops].
    unfold combineRegions. rewrite Hcrops. simpl. eexists. reflexivity. }
  intros res Hres. unfold combineRegions in Hres.
  destruct (cropAll file rects) as [crops|e] eqn:Hcrops; simpl in Hres;
    [|discriminate].
  injection Hres as <-. simpl.
  destruct (cropAll_spec _ _ _ Hcrops) as [Hids Hpos].
  pose proof (cropAll_length _ _ _ Hcrops) as Hlen.
  exists crops. repeat split.
  - rewrite drawAll_ids. exact Hids.
  - intros i b Hb. destruct (drawAll_lookup _ _ _ _ Hb) as (crop & Hc & _ & Hw).
    exists crop. repeat split; [assumption | lia |].
    rewrite Forall_lookup in Hpos. apply (Hpos _ _ Hc).
  - intros i j a b Hij Ha Hb.
    pose proof (drawAll_ordered _ _ _ _ _ _ Hpos Hij Ha Hb). unfold GAP in *. lia.
  - intros i a b Ha Hb. rewrite (drawAll_next _ _ _ _ _ Ha Hb). lia.
  - rewrite Hlen. reflexivity.
  - pose proof (sumWidths_lower _ Hpos).
    assert (length rects <> 0) by (destruct rects; [contradiction | discriminate]).
    unfold GAP. lia.
  - intros b Hb. rewrite (drawAll_last _ _ _ Hb). lia.
Qed.

Lemma layout_of_combineRegions_witness :
  [regionA; regionB] <> []
  /\ exists res,
       combineRegions sampleFile [regionA; regionB] = Resolved res
       /\ boundaries res = sampleBoundaries
       /\ totalWidth res = 560%Z
       /\ List.map b_id (boundaries res) = [js "a"; js "b"].
Proof.
  assert ([regionA; regionB] <> []) as Hne by discriminate.
  split; [exact Hne|].
  eexists. split; [reflexivity|]. split; [reflexivity|]. split; [reflexivity|].
  destruct (proj2 (layout_of_combineRegions sampleFile [regionA; regionB] Hne)
              _ eq_refl) as (crops & _ & Hids & _).
  exact Hids.
Defined.

(** C7 (as the code has it): the compositor has no skip.  When it
    returns, the layout has one entry per input region, in order; when the
    crop of some region has no pixels (zero width or height), [cropRegion]
    rejects and so does the whole composition: no partial layout is
    returned. *)
Theorem combineRegions_all_or_nothing file rects :
  (forall res, combineRegions file rects = Resolved res ->
     List.map b_id (boundaries res) = List.map id rects
     /\ length (boundaries res) = length rects)
  /\ (forall img rect,
        file = Some img -> In rect rects -> degenerate img rect = true ->
        combineRegions file rects = Rejected (js "Could not create blob")).
Proof.
  split.
  - intros res Hres. unfold combineRegions in Hres.
    destruct (cropAll file rects) as [crops|e] eqn:Hcrops; simpl in Hres;
      [|discriminate].
    injection Hres as <-. simpl.
    destruct (cropAll_spec _ _ _ Hcrops) as [Hids _].
    assert (List.map b_id (drawAll crops 0) = List.map id rects) as H
        by (rewrite drawAll_ids; exact Hids).
    split; [exact H|].
    rewrite <- (length_map b_id), H, length_map. reflexivity.
  - intros img rect Hfile Hin Hdeg. unfold combineRegions.
    rewrite (cropAll_degenerate file img rects rect Hfile Hin Hdeg). reflexivity.
Qed.

Lemma combineRegions_all_or_nothing_witness :
  degenerate sampleImage flatRegion = true
  /\ combineRegions sampleFile [regionA; flatRegion; regionB]
     = Rejected (js "Could not create blob").
Proof.
  split; [reflexivity|].
  apply (proj2 (combineRegions_all_or_nothing sampleFile
                  [regionA; flatRegion; regionB]) sampleImage flatRegion).
  - reflexivity.
  - right. left. reflexivity.
  - reflexivity.
Defined.

(** A flat region is not skipped: the composition of a flat region and a
    good one fails instead of returning the layout of the good one. *)
Lemma degenerate_region_not_skipped :
  width flatRegion = 0%Q
  /\ combineRegions sampleFile [flatRegion; regionB]
     = Rejected (js "Could not create blob")
  /\ ~ exists res,
         combineRegions sampleFile [flatRegion; regionB] = Resolved res
         /\ List.map b_id (boundaries res) = [id regionB].
Proof.
  split; [reflexivity|]. split; [reflexivity|].
  intros (res & H & _). vm_compute in H. discriminate.
Qed.

(** ** Attribution of blocks to regions *)

Lemma Qltb_lt a b : Qltb a b = true <-> (a < b)%Q.
Proof.
  unfold Qltb. rewrite negb_true_iff. split.
  - intros H. apply Qnot_le_lt. intros Hle. apply Qle_bool_iff in Hle. congruence.
  - intros H. destruct (Qle_bool b a) eqn:E; [|reflexivity].
    apply Qle_bool_iff in E. exfalso. exact (Qlt_not_le _ _ H E).
Qed.

Lemma inRange_test b q :
  Qle_bool (inject_Z (xStart b)) q && Qltb q (inject_Z (xEnd b)) = true
  <-> inRange b q.
Proof.
  unfold inRange. rewrite andb_true_iff, Qle_bool_iff, Qltb_lt. reflexivity.
Qed.

(** [regionOf] answers with the first boundary whose range holds the
    point. *)
Lemma regionOf_Some boundaries q region :
  regionOf boundaries q = Some region <->
  exists i b, boundaries !! i = Some b /\ b_id b = region /\ inRange b q
    /\ forall j b', j < i -> boundaries !! j = Some b' -> ~ inRange b' q.
Proof.
  induction boundaries as [|b0 bs IH]; simpl.
  - split; [discriminate|]. intros (i & b & H & _). discriminate.
  - destruct (Qle_bool (inject_Z (xStart b0)) q && Qltb q (inject_Z (xEnd b0)))
      eqn:E.
    + apply inRange_test in E. split.
      * intros [= <-]. exists 0, b0. repeat split; try apply E.
        intros j b' Hj. lia.
      * intros (i & b & Hi & Hid & Hin & Hfirst). destruct i as [|i].
        -- simpl in Hi. congruence.
        -- exfalso. apply (Hfirst 0 b0); [lia | reflexivity | exact E].
    + assert (~ inRange b0 q) as Hout.
      { intros H. apply inRange_test in H. congruence. }
      rewrite IH. split.
      * intros (i & b & Hi & Hid & Hin & Hfirst). exists (S i), b.
        repeat split; try assumption; try apply Hin.
        intros [|j] b' Hj; simpl; [intros [= <-]; exact Hout|].
        apply Hfirst. lia.
      * intros (i & b & Hi & Hid & Hin & Hfirst). destruct i as [|i].
        -- simpl in Hi. injection Hi as ->. contradiction.
        -- exists i, b. repeat split; try assumption; try apply Hin.
           intros j b' Hj Hb'. apply (Hfirst (S j) b'); [lia | exact Hb'].
Qed.

Lemma regionOf_None boundaries q :
  regionOf boundaries q = None <->
  forall b, b ∈ boundaries -> ~ inRange b q.
Proof.
  induction boundaries as [|b0 bs IH]; simpl.
  - split; [|reflexivity]. intros _ b Hb. inversion Hb.
  - destruct (Qle_bool (inject_Z (xStart b0)) q && Qltb q (inject_Z (xEnd b0)))
      eqn:E.
    + apply inRange_test in E. split; [discriminate|].
      intros H. exfalso. apply (H b0); [left | exact E].
    + rewrite IH. split.
      * intros H b Hb. inversion Hb; subst.
        -- intros Hin. apply inRange_test in Hin. congruence.
        -- apply H. assumption.
      * intros H b Hb. apply H. right. assumption.
Qed.

Lemma initResults_from boundaries :
  forall (m : gmap jsstring (list jsstring)) region,
  fold_left (fun results b => <[b_id b := []]> results) boundaries m !! region
  = if decide (region ∈ List.map b_id boundaries) then Some [] else m !! region.
Proof.
  induction boundaries as [|b bs IH]; intros m region; cbn [fold_left List.map].
  - rewrite decide_False; [reflexivity | apply not_elem_of_nil].
  - rewrite IH. destruct (decide (region ∈ List.map b_id bs)) as [H|H].
    + rewrite decide_True; [reflexivity | right; assumption].
    + destruct (decide (region = b_id b)) as [->|Hne].
      * rewrite lookup_insert_eq. rewrite decide_True; [reflexivity | left].
      * rewrite lookup_insert_ne by congruence.
        rewrite decide_False; [reflexivity|].
        intros Hin. inversion Hin; subst; contradiction.
Qed.

Lemma initResults_lookup boundaries region :
  initResults boundaries !! region
  = if decide (region ∈ List.map b_id boundaries) then Some [] else None.
Proof. unfold initResults. rewrite initResults_from, lookup_empty. reflexivity. Qed.

(** The loop over the blocks appends to each list the texts of the
    blocks of its region and touches no other key. *)
Lemma pushAll_lookup boundaries textBlocks :
  forall (m : gmap jsstring (list jsstring)) region,
  fold_left (pushBlock boundaries) textBlocks m !! region
  = (fun texts => texts ++ textsOf boundaries region textBlocks) <$> m !! region.
Proof.
  induction textBlocks as [|block blocks IH]; intros m region; simpl.
  - unfold textsOf. simpl.
    destruct (m !! region); simpl; [rewrite app_nil_r|]; reflexivity.
  - rewrite IH. unfold pushBlock, textsOf. rewrite filter_cons.
    destruct (blockRegion boundaries block) as [r|] eqn:Hr.
    + rewrite lookup_alter. destruct (decide (r = region)) as [->|Hne].
      * rewrite decide_True by reflexivity.
        destruct (m !! region); simpl; [|reflexivity].
        rewrite <- app_assoc. reflexivity.
      * rewrite decide_False by congruence. reflexivity.
    + rewrite decide_False by discriminate. reflexivity.
Qed.

(** The global replacement of [\s+] by one space, read directly. *)
Lemma matchR_reSpaces s i :
  matchR reSpaces accept s i []
  = match s with
    | ch :: s' =>
        if isWhiteSpace ch
        then Some (S i + length (takeWhile isWhiteSpace s'), [])
        else None
    | [] => None
    end.
Proof.
  unfold reSpaces. rewrite matchR_Plus.
  destruct s as [|ch s]; [reflexivity|]. rewrite matchR_Char.
  destruct (isWhiteSpace ch); [|reflexivity].
  rewrite matchR_star_char, starChar_total by discriminate. reflexivity.
Qed.

Lemma collapse_in_run s :
  collapseSpaces true s = collapseSpaces false (dropWhile isWhiteSpace s).
Proof.
  induction s as [|ch s IH]; [reflexivity|]. cbn [collapseSpaces dropWhile].
  destruct (isWhiteSpace ch) eqn:E; [exact IH|].
  cbn [collapseSpaces]. rewrite E. reflexivity.
Qed.

Lemma length_dropWhile p s : length (dropWhile p s) <= length s.
Proof.
  induction s as [|ch s IH]; simpl; [lia|]. destruct (p ch); simpl; lia.
Qed.

Lemma replace_spaces : forall fuel s i,
  length s < fuel ->
  replaceFrom fuel reSpaces (js " ") s i = collapseSpaces false s.
Proof.
  induction fuel as [|fuel IH]; intros s i Hlen; [lia|].
  revert i Hlen. induction s as [|ch s IHs]; intros i Hlen.
  - reflexivity.
  - cbn [replaceFrom searchFrom]. rewrite matchR_reSpaces.
    cbn [collapseSpaces]. destruct (isWhiteSpace ch) eqn:E.
    + replace (i - i) with 0 by lia. cbn [take app].
      replace (S i + length (takeWhile isWhiteSpace s) =? i) with false
        by (symmetry; apply Nat.eqb_neq; lia).
      replace (S i + length (takeWhile isWhiteSpace s) - i)
        with (S (length (takeWhile isWhiteSpace s))) by lia.
      cbn [drop]. rewrite <- (take_drop_while isWhiteSpace s) at 2.
      rewrite drop_app_length. change (js " ") with [32%N]. cbn [app].
      f_equal. rewrite collapse_in_run. apply IH.
      pose proof (length_dropWhile isWhiteSpace s). simpl in Hlen. lia.
    + specialize (IHs (S i) ltac:(simpl in Hlen; lia)).
      cbn [replaceFrom] in IHs.
      destruct (searchFrom reSpaces s (S i)) as [[[a b] c]|] eqn:Es.
      * apply searchFrom_sound in Es as Hs.
        destruct Hs as (pre & rest & s' & Hpre & Ha & Hm).
        apply matches_plus_char in Hm as (v & Hv & Hb & _ & Hne & _).
        simpl in Hv, Hb.
        assert (b <> a) as Hba
            by (destruct v; [contradiction | simpl in Hb; lia]).
        replace (b =? a) with false in *
          by (symmetry; apply Nat.eqb_neq; assumption).
        replace (a - i) with (S (a - S i)) by lia.
        replace (b - i) with (S (b - S i)) by lia.
        cbn [take drop app]. f_equal. exact IHs.
      * cbn [app]. f_equal. exact IHs.
Qed.

Lemma String_replace_spaces s :
  String_replace_g s reSpaces (js " ") = collapseSpaces false s.
Proof. unfold String_replace_g. apply replace_spaces. lia. Qed.

(** C3: a block with a bounding box whose mean x lies in some range goes
    to the first boundary whose range holds it, and to that one only; a
    block whose mean x lies in no range goes to no region.  The result has
    exactly the region ids of the layout as keys, and the value of a region
    is the texts of its blocks, in order, joined by single spaces, runs of
    white space collapsed, trimmed, with "-" for an empty outcome. *)
Theorem parseRegionResults_spec textBlocks boundaries :
  (forall block v vs i b,
      boundingBox block = Some (v :: vs) ->
      boundaries !! i = Some b -> inRange b (avgX (v :: vs)) ->
      (forall j b', j < i -> boundaries !! j = Some b' ->
                    ~ inRange b' (avgX (v :: vs))) ->
      blockRegion boundaries block = Some (b_id b))
  /\ (forall block vs,
        boundingBox block = Some vs ->
        (forall b, b ∈ boundaries -> ~ inRange b (avgX vs)) ->
        blockRegion boundaries block = None)
  /\ (forall region,
        region ∈ List.map b_id boundaries ->
        parseRegionResults textBlocks boundaries !! region
        = Some (combineTexts (textsOf boundaries region textBlocks)))
  /\ (forall region,
        region ∉ List.map b_id boundaries ->
        parseRegionResults textBlocks boundaries !! region = None)
  /\ (forall texts,
        combineTexts texts
        = let t := trim (collapseSpaces false (join (js " ") texts))
          in if decide (t = []) then js "-" else t).
Proof.
  repeat split.
  - intros block v vs i b Hbox Hb Hin Hfirst. unfold blockRegion. rewrite Hbox.
    apply regionOf_Some. exists i, b. auto.
  - intros block vs Hbox Hout. unfold blockRegion. rewrite Hbox.
    destruct vs as [|v vs]; [reflexivity|]. apply regionOf_None. exact Hout.
  - intros region Hin. unfold parseRegionResults.
    rewrite lookup_fmap, pushAll_lookup, initResults_lookup, decide_True
      by assumption.
    reflexivity.
  - intros region Hout. unfold parseRegionResults.
    rewrite lookup_fmap, pushAll_lookup, initResults_lookup, decide_False
      by assumption.
    reflexivity.
  - intros texts. unfold combineTexts, orElse.
    rewrite String_replace_spaces. simpl.
    destruct (trim _); reflexivity.
Qed.

Lemma parseRegionResults_spec_witness :
  js "a" ∈ List.map b_id sampleBoundaries
  /\ parseRegionResults sampleBlocks sampleBoundaries !! js "a"
     = Some (js "K1 43.5 D")
  /\ parseRegionResults sampleBlocks sampleBoundaries !! js "b"
     = Some (js "Rh").
Proof.
  assert (js "a" ∈ List.map b_id sampleBoundaries) as Ha by (left).
  assert (js "b" ∈ List.map b_id sampleBoundaries) as Hb by (right; left).
  split; [exact Ha|].
  destruct (parseRegionResults_spec sampleBlocks sampleBoundaries)
    as (_ & _ & H & _).
  split; [rewrite (H _ Ha) | rewrite (H _ Hb)]; vm_compute; reflexivity.
Defined.

(** ** Full-page attribution *)

Lemma pushMissing_fold (main ext : list block) : forall acc,
  fold_left (fun combined b =>
               if includesBlock main b then combined else combined ++ [b])
            ext acc
  = acc ++ List.filter (fun b => negb (includesBlock main b)) ext.
Proof.
  induction ext as [|b ext IH]; intros acc; simpl.
  - rewrite app_nil_r. reflexivity.
  - rewrite IH. destruct (includesBlock main b); simpl; [reflexivity|].
    rewrite <- app_assoc. reflexivity.
Qed.

Lemma objects_refs detections :
  List.map fst (objects detections) = seq 0 (length detections).
Proof.
  unfold objects. generalize 0.
  induction detections as [|d ds IH]; intros n; simpl; [reflexivity|].
  rewrite IH. reflexivity.
Qed.

(** No two blocks of [detections.slice(1)] are the same object. *)
Lemma slice1_refs_NoDup detections : NoDup (List.map fst (slice1 detections)).
Proof.
  unfold slice1.
  change (List.map fst) with (fmap (M:=list) (@fst nat EntityAnnotation)).
  rewrite fmap_drop.
  eapply sublist_NoDup; [|apply sublist_drop].
  change (fmap fst (objects detections)) with (List.map fst (objects detections)).
  rewrite objects_refs. apply NoDup_seq.
Qed.

Lemma same_ref_same_block (l : list block) (b b' : block) :
  NoDup (List.map fst l) -> b ∈ l -> b' ∈ l -> fst b' = fst b -> b' = b.
Proof.
  induction l as [|a l IH]; intros Hnd Hb Hb' Heq; [inversion Hb|].
  simpl in Hnd. apply NoDup_cons in Hnd as [Ha Hnd].
  inversion Hb as [|? ? ? Hb1]; inversion Hb' as [|? ? ? Hb1']; subst;
    try reflexivity.
  - exfalso. apply Ha. rewrite <- Heq.
    exact (list_elem_of_fmap_2 (A:=block) fst _ _ Hb1').
  - exfalso. apply Ha. rewrite Heq.
    exact (list_elem_of_fmap_2 (A:=block) fst _ _ Hb1).
  - apply IH; assumption.
Qed.

Lemma includesBlock_filter (p : block -> bool) (l : list block) (b : block) :
  NoDup (List.map fst l) -> b ∈ l ->
  includesBlock (List.filter p l) b = p b.
Proof.
  intros Hnd Hb. unfold includesBlock.
  destruct (p b) eqn:Hp.
  - apply existsb_exists. exists b. split; [|apply Nat.eqb_refl].
    apply filter_In. split; [apply list_elem_of_In; assumption | assumption].
  - destruct (existsb _ _) eqn:E; [|reflexivity].
    apply existsb_exists in E as (b' & Hb' & Heq).
    apply filter_In in Hb' as [Hb' Hp']. apply Nat.eqb_eq in Heq.
    apply list_elem_of_In in Hb'.
    rewrite (same_ref_same_block l b b' Hnd Hb Hb' Heq) in Hp'. congruence.
Qed.

Lemma filter_filter_in {A} (p q r : A -> bool) (l : list A) :
  (forall a, a ∈ l -> q a = r a) ->
  List.filter q (List.filter p l) = List.filter (fun a => p a && r a) l.
Proof.
  induction l as [|a l IH]; intros H; simpl; [reflexivity|].
  assert (q a = r a) as Ha by (apply H; left).
  assert (forall a', a' ∈ l -> q a' = r a') as Hl
      by (intros; apply H; right; assumption).
  destruct (p a); simpl;
    [rewrite Ha; destruct (r a); rewrite (IH Hl); reflexivity | apply (IH Hl)].
Qed.

Lemma combinedBlocks_eq detections :
  combinedBlocks detections
  = mainDataBlocks detections
    ++ List.filter (fun b => isExtended detections b && negb (isMain detections b))
         (slice1 detections).
Proof.
  unfold combinedBlocks. rewrite pushMissing_fold. f_equal.
  unfold extendedDataBlocks. apply filter_filter_in.
  intros b Hb. f_equal. unfold mainDataBlocks.
  apply includesBlock_filter; [apply slice1_refs_NoDup | assumption].
Qed.

Lemma filter_union_perm {A} (p q : A -> bool) (l : list A) :
  List.filter p l ++ List.filter (fun a => q a && negb (p a)) l
  ≡ₚ List.filter (fun a => p a || q a) l.
Proof.
  induction l as [|a l IH]; simpl; [reflexivity|].
  destruct (p a), (q a); simpl.
  - rewrite IH. reflexivity.
  - rewrite IH. reflexivity.
  - rewrite <- Permutation_middle, IH. reflexivity.
  - exact IH.
Qed.

Lemma filter_sublist {A} (p : A -> bool) (l : list A) :
  List.filter p l `sublist_of` l.
Proof.
  induction l as [|a l IH]; simpl; [constructor|].
  destruct (p a); [apply sublist_skip | apply sublist_cons]; assumption.
Qed.

(** C5 (as the code has it): the fragments returned for a full page are
    the primary fragments in detector order followed by the extended
    fragments that are not primary, in detector order.  The sequence holds
    every fragment of the union exactly once: it is a permutation of the
    detector-order subsequence of the union, and no fragment is in it
    twice. *)
Theorem combinedBlocks_spec detections :
  combinedBlocks detections
  = List.filter (isMain detections) (slice1 detections)
    ++ List.filter (fun b => isExtended detections b && negb (isMain detections b))
         (slice1 detections)
  /\ combinedBlocks detections
     ≡ₚ List.filter (fun b => isMain detections b || isExtended detections b)
          (slice1 detections)
  /\ NoDup (List.map fst (combinedBlocks detections))
  /\ filteredTextBlocks detections (js "full") = combinedBlocks detections.
Proof.
  split; [apply combinedBlocks_eq|].
  assert (combinedBlocks detections
     ≡ₚ List.filter (fun b => isMain detections b || isExtended detections b)
          (slice1 detections)) as Hperm.
  { rewrite combinedBlocks_eq. apply filter_union_perm. }
  split; [exact Hperm|]. split; [|reflexivity].
  change (List.map fst) with (fmap (M:=list) (@fst nat EntityAnnotation)).
  rewrite Hperm.
  eapply sublist_NoDup; [apply slice1_refs_NoDup|].
  apply fmap_sublist, filter_sublist.
Qed.

(** Detector order is lost when a keyword block of the extended column
    comes before a block of the left column. *)
Lemma combinedBlocks_out_of_order :
  List.map fst (List.filter
                  (fun b => isMain outOfOrder b || isExtended outOfOrder b)
                  (slice1 outOfOrder)) = [1; 2]
  /\ List.map fst (combinedBlocks outOfOrder) = [2; 1]
  /\ combinedBlocks outOfOrder
     <> List.filter (fun b => isMain outOfOrder b || isExtended outOfOrder b)
          (slice1 outOfOrder).
Proof.
  split; [reflexivity|]. split; [reflexivity|].
  intros H. apply (f_equal (List.map fst)) in H. vm_compute in H. discriminate.
Qed.

(** C4 (as the code has it): in full-page attribution there is no
    fallback to the unfiltered fragment list.  The fragments returned are
    always the union; the text is the newline-joined text of the union
    when that is not empty, and otherwise the whole-image summary text
    (the empty string when the summary has none).  When the union is empty
    the answer is the summary text with an empty fragment list. *)
Theorem full_page_fallback detections :
  detections <> [] ->
  POST (Some detections) (js "full")
  = Success (processedText detections (js "full"))
            (List.map snd (combinedBlocks detections))
  /\ (joinDescriptions (combinedBlocks detections) <> [] ->
      processedText detections (js "full")
      = joinDescriptions (combinedBlocks detections))
  /\ (joinDescriptions (combinedBlocks detections) = [] ->
      processedText detections (js "full") = summaryText detections)
  /\ (combinedBlocks detections = [] ->
      POST (Some detections) (js "full") = Success (summaryText detections) []).
Proof.
  intros Hne.
  assert (POST (Some detections) (js "full")
          = Success (processedText detections (js "full"))
              (List.map snd (combinedBlocks detections))) as Hpost.
  { destruct detections; [contradiction | reflexivity]. }
  assert (forall t, orElse (Some t) (summaryText detections)
                    = match t with [] => summaryText detections | _ => t end)
    as Hor by (intros [|]; reflexivity).
  split; [exact Hpost|].
  change (processedText detections (js "full"))
    with (orElse (Some (joinDescriptions (combinedBlocks detections)))
            (summaryText detections)) in *.
  rewrite Hor in *. repeat split.
  - destruct (joinDescriptions (combinedBlocks detections)); [contradiction|].
    reflexivity.
  - intros ->. reflexivity.
  - intros Hempty. rewrite Hpost, Hempty. reflexivity.
Qed.

Lemma full_page_fallback_witness :
  rightOnly <> [] /\ combinedBlocks rightOnly = []
  /\ POST (Some rightOnly) (js "full") = Success (js "K1 43.5") [].
Proof.
  assert (rightOnly <> []) as Hne by discriminate.
  split; [exact Hne|]. split; [reflexivity|].
  exact (proj2 (proj2 (proj2 (full_page_fallback rightOnly Hne))) eq_refl).
Defined.

(** The union is empty, the fragment list is not, and the answer is the
    summary text with no fragment, not the unfiltered list joined by
    newlines. *)
Lemma no_fallback_to_unfiltered :
  combinedBlocks rightOnly = []
  /\ slice1 rightOnly <> []
  /\ joinDescriptions (slice1 rightOnly) = js "K1" ++ nl ++ js "43.5"
  /\ processedText rightOnly (js "full") = js "K1 43.5"
  /\ processedText rightOnly (js "full") <> joinDescriptions (slice1 rightOnly)
  /\ filteredTextBlocks rightOnly (js "full") <> slice1 rightOnly.
Proof.
  split; [reflexivity|]. split; [discriminate|]. split; [reflexivity|].
  split; [reflexivity|]. split; vm_compute; discriminate.
Qed.

(** * Further properties *)

(** ** The parser returns numbers or the sentinel *)

Lemma group_capture n p R : endsWithGroup n p R ->
  forall s i c s' e c',
  matches R (s, i, c) (s', e, c') ->
  exists pre v,
    s = pre ++ v ++ s' /\ lookupCapture n c' = Some (i + length pre, e)
    /\ e = i + length pre + length v /\ v <> []
    /\ Forall (fun ch => p ch = true) v.
Proof.
  induction 1 as [|A R HR IH]; intros s i c s' e c' Hm.
  - inversion Hm as [| | | | | | |? ? ? ? ? ? ? ? HP| |]; subst.
    apply matches_plus_char in HP as (v & EV & LV & _ & Hne & HF).
    simpl in *. subst. exists [], v. simpl. rewrite Nat.eqb_refl.
    repeat split; try assumption; try lia. do 2 f_equal. lia.
  - inversion Hm as [| |? ? ? [[s1 i1] c1] ? HA HR'| | | | | | |]; subst.
    apply matches_consumes in HA as (pA & EA & LA). simpl in *. subst.
    apply IH in HR' as (pre & v & -> & Hcap & -> & Hne & HF).
    exists (pA ++ pre), v. rewrite length_app, <- app_assoc.
    repeat split; try assumption; try lia.
    rewrite Hcap. do 2 f_equal. lia.
Qed.

(** The text of the group of a successful [match]. *)
Lemma match_group n p R text m :
  endsWithGroup n p R -> n <> 0 ->
  String_match text R = Some m ->
  exists v, group m n = Some v /\ v <> [] /\ Forall (fun ch => p ch = true) v.
Proof.
  intros HR Hn. unfold String_match.
  destruct (searchFrom R text 0) as [[[a e] c]|] eqn:E; [|discriminate].
  intros [= <-].
  apply searchFrom_sound in E as (pre & rest & s' & -> & -> & Hm).
  apply (group_capture n p R HR) in Hm as (pA & v & -> & Hcap & -> & Hne & HF).
  exists v. split; [|split; assumption].
  unfold group. destruct n as [|n]; [contradiction|].
  simpl m_captures. rewrite Hcap. simpl m_input. unfold substring.
  replace (0 + length pre + length pA + length v - (0 + length pre + length pA))
    with (length v) by lia.
  replace (pre ++ pA ++ v ++ s') with ((pre ++ pA) ++ v ++ s')
    by (rewrite <- app_assoc; reflexivity).
  replace (0 + length pre + length pA) with (length (pre ++ pA))
    by (rewrite length_app; lia).
  rewrite drop_app_length, take_app_length. reflexivity.
Qed.

Lemma minusDigitDot_not_space ch :
  minusDigitDot ch = true -> isWhiteSpace ch = false.
Proof.
  unfold minusDigitDot, isDigit. intros H.
  assert (45 <= ch <= 57)%N as Hr.
  { apply orb_true_iff in H as [H|H]; [apply orb_true_iff in H as [H|H]|].
    - apply N.eqb_eq in H. lia.
    - apply andb_true_iff in H as [H1 H2]. apply N.leb_le in H1, H2. lia.
    - apply N.eqb_eq in H. lia. }
  unfold isWhiteSpace. decide_units. reflexivity.
Qed.

Lemma digitDot_minusDigitDot ch : digitDot ch = true -> minusDigitDot ch = true.
Proof.
  unfold digitDot, minusDigitDot. intros H.
  apply orb_true_iff in H as [H|H]; rewrite H; [rewrite orb_true_r|];
    try reflexivity. apply orb_true_r.
Qed.

Lemma isDigit_minusDigitDot ch : isDigit ch = true -> minusDigitDot ch = true.
Proof. unfold minusDigitDot. intros ->. rewrite orb_true_r. reflexivity. Qed.

Lemma numeric_sentinel : numeric sentinel.
Proof. split; [discriminate | repeat constructor]. Qed.

Lemma numeric_of_class p v :
  (forall ch, p ch = true -> minusDigitDot ch = true) ->
  v <> [] -> Forall (fun ch => p ch = true) v -> numeric v.
Proof.
  intros Hp Hne HF. split; [assumption|].
  eapply Forall_impl; [exact HF | exact Hp].
Qed.

Lemma numeric_trim v : numeric v -> trim v = v.
Proof.
  intros [_ HF]. apply trim_id.
  eapply Forall_impl; [exact HF | apply minusDigitDot_not_space].
Qed.

Lemma extractValue_numeric p R text :
  endsWithGroup 1 p R ->
  (forall ch, p ch = true -> minusDigitDot ch = true) ->
  numeric (extractValue text R 1).
Proof.
  intros HR Hp. unfold extractValue.
  destruct (String_match text R) as [m|] eqn:E; [|apply numeric_sentinel].
  destruct (match_group 1 p R text m HR ltac:(discriminate) E)
    as (v & -> & Hne & HF).
  pose proof (numeric_of_class p v Hp Hne HF) as Hnum.
  destruct v as [|ch v]; [contradiction|].
  rewrite numeric_trim; assumption.
Qed.

Lemma extractValueWithNegative_numeric p R text :
  endsWithGroup 1 p R ->
  (forall ch, p ch = true -> minusDigitDot ch = true) ->
  numeric (extractValueWithNegative text R 1).
Proof. exact (extractValue_numeric p R text). Qed.

Lemma reLabel_shape label : endsWithGroup 1 digitDot (reLabel label).
Proof. unfold reLabel. cbn [seqs]. repeat constructor. Qed.

Lemma reLabelSigned_shape label :
  endsWithGroup 1 minusDigitDot (reLabelSigned label).
Proof. unfold reLabelSigned. cbn [seqs]. repeat constructor. Qed.

Lemma reQval_shape : endsWithGroup 1 minusDigitDot reQval.
Proof. unfold reQval. cbn [seqs]. repeat constructor. Qed.

Lemma rePupilCenter_shape : endsWithGroup 1 digitDot rePupilCenter.
Proof. unfold rePupilCenter. cbn [seqs]. repeat constructor. Qed.

Lemma reThinnestLocal_shape : endsWithGroup 1 digitDot reThinnestLocal.
Proof. unfold reThinnestLocal. cbn [seqs]. repeat constructor. Qed.

Lemma reAxis_shape : endsWithGroup 2 digitDot reAxis.
Proof. unfold reAxis. cbn [seqs]. repeat constructor. Qed.

Lemma rePupilDia_shape : endsWithGroup 1 digitDot rePupilDia.
Proof. unfold rePupilDia. cbn [seqs]. repeat constructor. Qed.

Lemma rePupilDiameter_shape : endsWithGroup 1 digitDot rePupilDiameter.
Proof. unfold rePupilDiameter. cbn [seqs]. repeat constructor. Qed.

(** The degree pattern [([0-9.]+)\s*°]: its only capture is group 1. *)
Lemma match_reDegree text m :
  String_match text reDegree = Some m ->
  group m 2 = None
  /\ exists v, group m 1 = Some v /\ v <> []
       /\ Forall (fun ch => digitDot ch = true) v.
Proof.
  unfold String_match.
  destruct (searchFrom reDegree text 0) as [[[a e] c]|] eqn:E; [|discriminate].
  intros [= <-].
  apply searchFrom_sound in E as (pre & rest & s' & -> & -> & Hm).
  unfold reDegree in Hm. cbn [seqs] in Hm.
  inversion Hm as [| |? ? ? [[s1 i1] c1] ? HG HR| | | | | | |]; subst.
  inversion HR as [| |? ? ? [[s2 i2] c2] ? HS HC| | | | | | |]; subst.
  inversion HG as [| | | | | | |? ? ? ? ? ? ? ? HP| |]; subst.
  apply matches_plus_char in HP as (v & EV & LV & EC & Hne & HF).
  apply matches_star_char in HS as (w & EW & LW & EC2 & _).
  inversion HC as [|? ch ? ? ? Hp| | | | | | | |]; subst.
  simpl in *. subst.
  unfold group. simpl. split; [reflexivity|].
  exists v. split; [|split; assumption].
  unfold substring.
  replace (length pre + length v - length pre) with (length v) by lia.
  rewrite drop_app_length, take_app_length. reflexivity.
Qed.

Lemma axisValue_numeric text : numeric (axisValue text).
Proof.
  unfold axisValue.
  destruct (String_match text reAxis) as [m|] eqn:E.
  - destruct (match_group 2 digitDot reAxis text m reAxis_shape
                ltac:(discriminate) E) as (v & -> & Hne & HF).
    destruct v as [|ch v]; [contradiction|]. simpl.
    apply (numeric_of_class digitDot);
      [apply digitDot_minusDigitDot | discriminate | assumption].
  - destruct (String_match text reDegree) as [m|] eqn:E';
      [|apply numeric_sentinel].
    destruct (match_reDegree text m E') as (-> & v & -> & Hne & HF).
    destruct v as [|ch v]; [contradiction|]. simpl.
    apply (numeric_of_class digitDot);
      [apply digitDot_minusDigitDot | discriminate | assumption].
Qed.

Lemma isDecimal_numeric d : isDecimal d -> numeric d.
Proof.
  intros (whole & frac & -> & Hw & Hf & HFw & HFf). split.
  - destruct whole; [contradiction | discriminate].
  - apply Forall_app. split.
    + eapply Forall_impl; [exact HFw | apply isDigit_minusDigitDot].
    + constructor; [reflexivity|].
      eapply Forall_impl; [exact HFf | apply isDigit_minusDigitDot].
Qed.

Lemma acDepthValue_numeric text : numeric (acDepthValue text).
Proof.
  rewrite acDepthValue_acDepthSpec. unfold acDepthSpec.
  destruct (firstOccurrence_i _ _ _); [|apply numeric_sentinel].
  destruct (afterFirstColon _) as [rest|]; [|apply numeric_sentinel].
  destruct (firstDecimal rest) as [d|] eqn:E; [|apply numeric_sentinel].
  simpl. apply isDecimal_numeric. apply (firstDecimal_sound rest d E).
Qed.

Lemma pupilDiaValue_numeric text : numeric (pupilDiaValue text).
Proof.
  unfold pupilDiaValue.
  destruct (String_match text rePupilDia) as [m|] eqn:E.
  - destruct (match_group 1 digitDot _ text m rePupilDia_shape
                ltac:(discriminate) E) as (v & -> & Hne & HF).
    simpl. apply (numeric_of_class digitDot);
      [apply digitDot_minusDigitDot | assumption | assumption].
  - destruct (String_match text rePupilDiameter) as [m|] eqn:E';
      [|apply numeric_sentinel].
    destruct (match_group 1 digitDot _ text m rePupilDiameter_shape
                ltac:(discriminate) E') as (v & -> & Hne & HF).
    simpl. apply (numeric_of_class digitDot);
      [apply digitDot_minusDigitDot | assumption | assumption].
Qed.

(** Assignments keep a property that all values have. *)
Lemma set_values (P : jsstring -> Prop) data key value :
  Forall (fun kv => P (snd kv)) data -> P value ->
  Forall (fun kv => P (snd kv)) (set data key value).
Proof.
  intros Hdata Hv. induction Hdata as [|[k v] data Hkv Hdata IH]; simpl.
  - repeat constructor. exact Hv.
  - destruct (strEq k key); constructor; try assumption.
Qed.

Lemma get_In data key v : get data key = Some v -> exists k, In (k, v) data.
Proof.
  induction data as [|[k w] data IH]; simpl; [discriminate|].
  destruct (strEq k key).
  - intros [= <-]. exists k. left. reflexivity.
  - intros H. destruct (IH H) as [k' Hk']. exists k'. right. exact Hk'.
Qed.

Ltac numeric_values :=
  repeat first
    [ assumption
    | apply set_values
    | apply (extractValue_numeric digitDot);
        [first [ apply reLabel_shape | apply rePupilCenter_shape
               | apply reThinnestLocal_shape ]
        | apply digitDot_minusDigitDot ]
    | apply (extractValue_numeric minusDigitDot);
        [apply reQval_shape | intros ? Hch; exact Hch]
    | apply (extractValueWithNegative_numeric digitDot);
        [apply reLabel_shape | apply digitDot_minusDigitDot]
    | apply (extractValueWithNegative_numeric minusDigitDot);
        [first [apply reLabelSigned_shape | apply reQval_shape]
        | intros ? Hch; exact Hch]
    | apply axisValue_numeric
    | apply acDepthValue_numeric
    | apply pupilDiaValue_numeric ].

Lemma parseCorneaData_values text fields :
  Forall (fun kv => numeric (snd kv)) (parseCorneaData text fields).
Proof.
  unfold parseCorneaData. cbv zeta.
  repeat match goal with
         | |- Forall _ (?block ?f ?t ?data) =>
             let H := fresh "H" in
             assert (Forall (fun kv => numeric (snd kv)) data) as H;
             [| unfold block; destruct (wanted _ _); cbv zeta; numeric_values ]
         end.
  constructor.
Qed.

(** X1: every value the parser stores, for any text and any requested
    fields, is a non-empty string of digits, dots and minus signs only
    (the sentinel "-" included) with no white space at either end. *)
Theorem values_are_numeric text fields key v :
  get (parseCorneaData text fields) key = Some v ->
  v <> [] /\ Forall (fun ch => minusDigitDot ch = true) v
  /\ trim v = v.
Proof.
  intros H. destruct (get_In _ _ _ H) as [k Hk].
  pose proof (parseCorneaData_values text fields) as Hall.
  rewrite List.Forall_forall in Hall. specialize (Hall _ Hk). simpl in Hall.
  destruct Hall as [Hne HF]. repeat split; try assumption.
  apply numeric_trim. split; assumption.
Qed.

Lemma values_are_numeric_witness :
  js "-6.10" <> []
  /\ Forall (fun ch => minusDigitDot ch = true) (js "-6.10")
  /\ trim (js "-6.10") = js "-6.10".
Proof.
  apply (values_are_numeric kExampleText (js "k") (js "Back_K1")).
  vm_compute. reflexivity.
Defined.

(** ** The parsed object as the entries of the open blocks *)

Lemma gated_sublist {A B} (gate : A -> bool) (out : A -> list B) (table : list A) :
  flat_map (fun b => if gate b then out b else []) table
  `sublist_of` flat_map out table.
Proof.
  induction table as [|b table IH]; simpl; [constructor|].
  destruct (gate b); simpl.
  - apply sublist_app; [reflexivity | exact IH].
  - apply sublist_inserts_l. exact IH.
Qed.

Lemma allKeys_NoDup : NoDup allKeys.
Proof. apply (bool_decide_unpack _). vm_compute. reflexivity. Qed.

Lemma allKeys_table : flat_map snd blockTable = allKeys.
Proof. reflexivity. Qed.

(** A key that is new goes to the end of the object. *)
Lemma set_new data key value :
  key ∉ keys data -> set data key value = data ++ [(key, value)].
Proof.
  induction data as [|[k v] data IH]; intros Hnew; [reflexivity|].
  cbn [set]. destruct (strEq k key) eqn:E.
  - apply strEq_eq in E as ->. exfalso. apply Hnew. left.
  - cbn [app]. f_equal. apply IH. intros Hin. apply Hnew. right. exact Hin.
Qed.

Lemma setAll_new entries : forall data,
  NoDup (keys data ++ keys entries) -> setAll data entries = data ++ entries.
Proof.
  induction entries as [|[k v] entries IH]; intros data Hnd.
  - cbn. rewrite app_nil_r. reflexivity.
  - unfold setAll. cbn [fold_left fst snd]. fold (setAll (set data k v) entries).
    assert (k ∉ keys data) as Hnew.
    { apply NoDup_app in Hnd as (_ & Hdisj & _). intros Hin.
      apply (Hdisj k Hin). left. }
    rewrite (set_new data k v Hnew), IH.
    + rewrite <- app_assoc. reflexivity.
    + unfold keys in *. rewrite List.map_app, <- app_assoc. exact Hnd.
Qed.

Lemma setAll_app data a b : setAll data (a ++ b) = setAll (setAll data a) b.
Proof. apply fold_left_app. Qed.

Ltac block_entries := intros; destruct (wanted _ _); reflexivity.

Lemma frontRadius_entries fields t data :
  frontRadius fields t data
  = setAll data
      (if wanted fields ["rh"; "radius"]%string then
         [(js "Front_Rh", extractValue t (reLabel "Rh") 1);
          (js "Front_Rv", extractValue t (reLabel "Rv") 1);
          (js "Front_Rm", extractValue t (reLabel "Rm") 1)]
       else []).
Proof. unfold frontRadius. block_entries. Qed.

Lemma frontKeratometry_entries fields t data :
  frontKeratometry fields t data
  = setAll data
      (if wanted fields ["k"; "keratometry"]%string then
         [(js "Front_K1", extractValue t (reLabel "K1") 1);
          (js "Front_K2", extractValue t (reLabel "K2") 1);
          (js "Front_Km", extractValue t (reLabel "Km") 1)]
       else []).
Proof. unfold frontKeratometry. block_entries. Qed.

Lemma frontAxisAstig_entries fields t data :
  frontAxisAstig fields t data
  = setAll data
      (if wanted fields ["axis"; "astig"]%string then
         [(js "Front_Axis", axisValue t);
          (js "Front_Astig", extractValue t (reLabel "Astig") 1)]
       else []).
Proof. unfold frontAxisAstig. block_entries. Qed.

Lemma frontQval_entries fields t data :
  frontQval fields t data
  = setAll data
      (if wanted fields ["q"]%string then
         [(js "Front_Q-val", extractValue t reQval 1)]
       else []).
Proof. unfold frontQval. block_entries. Qed.

Lemma frontRperRmin_entries fields t data :
  frontRperRmin fields t data
  = setAll data
      (if wanted fields ["rper"; "rmin"]%string then
         [(js "Front_Rper", extractValue t (reLabel "Rper") 1);
          (js "Front_Rmin", extractValue t (reLabel "Rmin") 1)]
       else []).
Proof. unfold frontRperRmin. block_entries. Qed.

Lemma backRadius_entries fields t data :
  backRadius fields t data
  = setAll data
      (if wanted fields ["rh"; "radius"]%string then
         [(js "Back_Rh", extractValueWithNegative t (reLabel "Rh") 1);
          (js "Back_Rv", extractValueWithNegative t (reLabel "Rv") 1);
          (js "Back_Rm", extractValueWithNegative t (reLabel "Rm") 1)]
       else []).
Proof. unfold backRadius. block_entries. Qed.

Lemma backKeratometry_entries fields t data :
  backKeratometry fields t data
  = setAll data
      (if wanted fields ["k"; "keratometry"]%string then
         [(js "Back_K1", extractValueWithNegative t (reLabelSigned "K1") 1);
          (js "Back_K2", extractValueWithNegative t (reLabelSigned "K2") 1);
          (js "Back_Km", extractValueWithNegative t (reLabelSigned "Km") 1)]
       else []).
Proof. unfold backKeratometry. block_entries. Qed.

Lemma backAxisAstig_entries fields t data :
  backAxisAstig fields t data
  = setAll data
      (if wanted fields ["axis"; "astig"]%string then
         [(js "Back_Axis", axisValue t);
          (js "Back_Astig", extractValueWithNegative t (reLabel "Astig") 1)]
       else []).
Proof. unfold backAxisAstig. block_entries. Qed.

Lemma backQval_entries fields t data :
  backQval fields t data
  = setAll data
      (if wanted fields ["q"]%string then
         [(js "Back_Q-val", extractValueWithNegative t reQval 1)]
       else []).
Proof. unfold backQval. block_entries. Qed.

Lemma backRperRmin_entries fields t data :
  backRperRmin fields t data
  = setAll data
      (if wanted fields ["rper"; "rmin"]%string then
         [(js "Back_Rper", extractValueWithNegative t (reLabel "Rper") 1);
          (js "Back_Rmin", extractValueWithNegative t (reLabel "Rmin") 1)]
       else []).
Proof. unfold backRperRmin. block_entries. Qed.

Lemma pachymetry_entries fields t data :
  pachymetry fields t data
  = setAll data
      (if wanted fields ["pachy"]%string then
         [(js "Pachy_Center", extractValue t rePupilCenter 1);
          (js "Pachy_Apex", extractValue t (reLabel "Pachy Apex") 1);
          (js "Pachy_Thinnest", extractValue t reThinnestLocal 1)]
       else []).
Proof. unfold pachymetry. block_entries. Qed.

Lemma acDepthPupilDia_entries fields t data :
  acDepthPupilDia fields t data
  = setAll data
      (if wanted fields ["ac"; "depth"; "pupil"]%string then
         [(js "AC_Depth", acDepthValue t); (js "Pupil_Dia", pupilDiaValue t)]
       else []).
Proof. unfold acDepthPupilDia. block_entries. Qed.

Lemma parseCorneaData_setAll text fields :
  parseCorneaData text fields = setAll [] (requestedEntries text fields).
Proof.
  unfold parseCorneaData. cbv zeta.
  rewrite acDepthPupilDia_entries, pachymetry_entries, backRperRmin_entries,
    backQval_entries, backAxisAstig_entries, backKeratometry_entries,
    backRadius_entries, frontRperRmin_entries, frontQval_entries,
    frontAxisAstig_entries, frontKeratometry_entries, frontRadius_entries.
  unfold requestedEntries, valueTable. cbv zeta. cbn [flat_map fst snd].
  rewrite !setAll_app. reflexivity.
Qed.

Lemma keys_gated {A} (gate : A -> bool) (table : list (A * record)) :
  keys (flat_map (fun b => if gate (fst b) then snd b else []) table)
  = flat_map (fun b => if gate (fst b) then snd b else [])
      (List.map (fun b => (fst b, keys (snd b))) table).
Proof.
  unfold keys. induction table as [|b table IH]; [reflexivity|].
  destruct b as [k entries]. cbn [flat_map List.map fst snd].
  rewrite List.map_app, IH. destruct (gate k); reflexivity.
Qed.

Lemma keys_requestedEntries text fields :
  keys (requestedEntries text fields) = requestedKeys fields.
Proof. unfold requestedEntries. rewrite keys_gated. reflexivity. Qed.

Lemma requestedKeys_NoDup fields : NoDup (requestedKeys fields).
Proof.
  eapply sublist_NoDup; [apply allKeys_NoDup|].
  rewrite <- allKeys_table. apply gated_sublist.
Qed.

(** The parsed object, written as the entries of the open blocks. *)
Lemma parseCorneaData_entries text fields :
  parseCorneaData text fields = requestedEntries text fields.
Proof.
  rewrite parseCorneaData_setAll, setAll_new; [reflexivity|].
  cbn [keys List.map app]. fold (keys (requestedEntries text fields)).
  rewrite keys_requestedEntries. apply requestedKeys_NoDup.
Qed.

Lemma keys_requestedKeys text fields :
  keys (parseCorneaData text fields) = requestedKeys fields.
Proof. rewrite parseCorneaData_entries. apply keys_requestedEntries. Qed.

(** ** The keys depend on the requested fields only *)

(** X2: the keys of the parsed object are decided by the requested fields
    alone: they are the keys of the requested groups in source order, the
    same for every text, a sublist of the twenty-seven known keys, and
    none occurs twice. *)
Theorem keys_follow_fields text fields :
  keys (parseCorneaData text fields) = requestedKeys fields
  /\ (forall text', keys (parseCorneaData text' fields)
                    = keys (parseCorneaData text fields))
  /\ keys (parseCorneaData text fields) `sublist_of` allKeys
  /\ NoDup (keys (parseCorneaData text fields)).
Proof.
  assert (keys (parseCorneaData text fields) `sublist_of` allKeys) as Hsub.
  { rewrite keys_requestedKeys, <- allKeys_table. apply gated_sublist. }
  split; [apply keys_requestedKeys|]. split.
  - intros text'. rewrite !keys_requestedKeys. reflexivity.
  - split; [exact Hsub|]. eapply sublist_NoDup; [apply allKeys_NoDup | exact Hsub].
Qed.

(** ** One "all" token opens every gate *)

Lemma existsb_strEq_In (x : jsstring) (l : list jsstring) :
  In x l -> existsb (strEq x) l = true.
Proof.
  intros H. apply existsb_exists. exists x. split; [exact H | apply strEq_refl].
Qed.

Lemma requestedKeys_all fields :
  extractAll fields = true -> requestedKeys fields = allKeys.
Proof.
  intros H. unfold requestedKeys, blockTable, wanted. rewrite H. reflexivity.
Qed.

(** X3: one "all" or "t\u00fcm\u00fc" entry among the requested fields (after
    trimming and lower-casing), or an empty field string, requests every
    group: the parsed object then has all twenty-seven keys whatever the
    other entries are. *)
Theorem all_token_overrides text fields :
  fields = [] \/ In (js "all") (requestedFields fields)
  \/ In tumu (requestedFields fields) ->
  extractAll fields = true
  /\ keys (parseCorneaData text fields) = allKeys.
Proof.
  intros H.
  assert (extractAll fields = true) as Hall.
  { unfold extractAll. destruct H as [->|[H|H]].
    - reflexivity.
    - rewrite (existsb_strEq_In _ _ H). apply orb_true_r.
    - rewrite (existsb_strEq_In _ _ H). rewrite orb_true_r. reflexivity. }
  split; [exact Hall|].
  rewrite keys_requestedKeys. apply requestedKeys_all. exact Hall.
Qed.

Lemma all_token_overrides_witness :
  In (js "all") (requestedFields (js " K , ALL "))
  /\ keys (parseCorneaData kExampleText (js " K , ALL ")) = allKeys.
Proof.
  assert (In (js "all") (requestedFields (js " K , ALL "))) as H
      by (right; left; reflexivity).
  split; [exact H|].
  exact (proj2 (all_token_overrides kExampleText _ (or_intror (or_introl H)))).
Defined.

(** ** Without headings the front and back fields coincide *)

Lemma sections_without_headings text :
  frontIndex text = (-1)%Z -> backIndex text = (-1)%Z ->
  frontText text = text /\ backText text = text.
Proof.
  intros Hf Hb. unfold frontText, backText, bothFound, oneFound.
  rewrite Hf, Hb. split; reflexivity.
Qed.

(** A lookup through one block. *)
Ltac get_block :=
  intros; destruct (wanted _ _); rewrite ?get_set;
  repeat match goal with |- context [strEq ?a ?b] => destruct (strEq a b) end;
  reflexivity.

Lemma get_frontRadius fields t data key :
  get (frontRadius fields t data) key =
    match
      if wanted fields ["rh"; "radius"]%string then
        if strEq (js "Front_Rm") key then Some (extractValue t (reLabel "Rm") 1)
        else if strEq (js "Front_Rv") key then Some (extractValue t (reLabel "Rv") 1)
        else if strEq (js "Front_Rh") key then Some (extractValue t (reLabel "Rh") 1)
        else None
      else None
    with
    | Some value => Some value
    | None => get data key
    end.
Proof. unfold frontRadius. get_block. Qed.

Lemma get_frontKeratometry fields t data key :
  get (frontKeratometry fields t data) key =
    match
      if wanted fields ["k"; "keratometry"]%string then
        if strEq (js "Front_Km") key then Some (extractValue t (reLabel "Km") 1)
        else if strEq (js "Front_K2") key then Some (extractValue t (reLabel "K2") 1)
        else if strEq (js "Front_K1") key then Some (extractValue t (reLabel "K1") 1)
        else None
      else None
    with
    | Some value => Some value
    | None => get data key
    end.
Proof. unfold frontKeratometry. get_block. Qed.

Lemma get_frontAxisAstig fields t data key :
  get (frontAxisAstig fields t data) key =
    match
      if wanted fields ["axis"; "astig"]%string then
        if strEq (js "Front_Astig") key
        then Some (extractValue t (reLabel "Astig") 1)
        else if strEq (js "Front_Axis") key then Some (axisValue t)
        else None
      else None
    with
    | Some value => Some value
    | None => get data key
    end.
Proof. unfold frontAxisAstig. get_block. Qed.

Lemma get_frontQval fields t data key :
  get (frontQval fields t data) key =
    match
      if wanted fields ["q"]%string then
        if strEq (js "Front_Q-val") key then Some (extractValue t reQval 1)
        else None
      else None
    with
    | Some value => Some value
    | None => get data key
    end.
Proof. unfold frontQval. get_block. Qed.

Lemma get_frontRperRmin fields t data key :
  get (frontRperRmin fields t data) key =
    match
      if wanted fields ["rper"; "rmin"]%string then
        if strEq (js "Front_Rmin") key
        then Some (extractValue t (reLabel "Rmin") 1)
        else if strEq (js "Front_Rper") key
        then Some (extractValue t (reLabel "Rper") 1)
        else None
      else None
    with
    | Some value => Some value
    | None => get data key
    end.
Proof. unfold frontRperRmin. get_block. Qed.

Lemma get_backRadius fields t data key :
  get (backRadius fields t data) key =
    match
      if wanted fields ["rh"; "radius"]%string then
        if strEq (js "Back_Rm") key
        then Some (extractValueWithNegative t (reLabel "Rm") 1)
        else if strEq (js "Back_Rv") key
        then Some (extractValueWithNegative t (reLabel "Rv") 1)
        else if strEq (js "Back_Rh") key
        then Some (extractValueWithNegative t (reLabel "Rh") 1)
        else None
      else None
    with
    | Some value => Some value
    | None => get data key
    end.
Proof. unfold backRadius. get_block. Qed.

Lemma get_backKeratometry fields t data key :
  get (backKeratometry fields t data) key =
    match
      if wanted fields ["k"; "keratometry"]%string then
        if strEq (js "Back_Km") key
        then Some (extractValueWithNegative t (reLabelSigned "Km") 1)
        else if strEq (js "Back_K2") key
        then Some (extractValueWithNegative t (reLabelSigned "K2") 1)
        else if strEq (js "Back_K1") key
        then Some (extractValueWithNegative t (reLabelSigned "K1") 1)
        else None
      else None
    with
    | Some value => Some value
    | None => get data key
    end.
Proof. unfold backKeratometry. get_block. Qed.

Lemma get_backAxisAstig fields t data key :
  get (backAxisAstig fields t data) key =
    match
      if wanted fields ["axis"; "astig"]%string then
        if strEq (js "Back_Astig") key
        then Some (extractValueWithNegative t (reLabel "Astig") 1)
        else if strEq (js "Back_Axis") key then Some (axisValue t)
        else None
      else None
    with
    | Some value => Some value
    | None => get data key
    end.
Proof. unfold backAxisAstig. get_block. Qed.

Lemma get_backQval fields t data key :
  get (backQval fields t data) key =
    match
      if wanted fields ["q"]%string then
        if strEq (js "Back_Q-val") key
        then Some (extractValueWithNegative t reQval 1)
        else None
      else None
    with
    | Some value => Some value
    | None => get data key
    end.
Proof. unfold backQval. get_block. Qed.

Lemma get_backRperRmin fields t data key :
  get (backRperRmin fields t data) key =
    match
      if wanted fields ["rper"; "rmin"]%string then
        if strEq (js "Back_Rmin") key
        then Some (extractValueWithNegative t (reLabel "Rmin") 1)
        else if strEq (js "Back_Rper") key
        then Some (extractValueWithNegative t (reLabel "Rper") 1)
        else None
      else None
    with
    | Some value => Some value
    | None => get data key
    end.
Proof. unfold backRperRmin. get_block. Qed.

Lemma get_pachymetry fields t data key :
  get (pachymetry fields t data) key =
    match
      if wanted fields ["pachy"]%string then
        if strEq (js "Pachy_Thinnest") key
        then Some (extractValue t reThinnestLocal 1)
        else if strEq (js "Pachy_Apex") key
        then Some (extractValue t (reLabel "Pachy Apex") 1)
        else if strEq (js "Pachy_Center") key
        then Some (extractValue t rePupilCenter 1)
        else None
      else None
    with
    | Some value => Some value
    | None => get data key
    end.
Proof. unfold pachymetry. get_block. Qed.

Lemma get_acDepthPupilDia fields t data key :
  get (acDepthPupilDia fields t data) key =
    match
      if wanted fields ["ac"; "depth"; "pupil"]%string then
        if strEq (js "Pupil_Dia") key then Some (pupilDiaValue t)
        else if strEq (js "AC_Depth") key then Some (acDepthValue t)
        else None
      else None
    with
    | Some value => Some value
    | None => get data key
    end.
Proof. unfold acDepthPupilDia. get_block. Qed.

(** The value of a key literal, through all twelve blocks. *)
Ltac get_parse :=
  unfold parseCorneaData; cbv zeta;
  rewrite ?get_acDepthPupilDia, ?get_pachymetry, ?get_backRperRmin,
    ?get_backQval, ?get_backAxisAstig, ?get_backKeratometry, ?get_backRadius,
    ?get_frontRperRmin, ?get_frontQval, ?get_frontAxisAstig,
    ?get_frontKeratometry, ?get_frontRadius;
  decide_keys;
  repeat match goal with
         | |- context [if ?g then None else None] =>
             replace (if g then None else None) with (@None jsstring)
               by (destruct g; reflexivity);
             cbv beta iota
         end.

Lemma extractValueWithNegative_eq text pattern groupIndex :
  extractValueWithNegative text pattern groupIndex
  = extractValue text pattern groupIndex.
Proof. reflexivity. Qed.

(** X4: when the text has neither a "Cornea Front" nor a "Cornea Back"
    heading, front and back fields are read from the same whole text, so
    every back key whose pattern is the front one (radius, axis, astig,
    Q-val, Rper, Rmin) holds the same value as its front twin, whatever
    the requested fields. *)
Theorem twins_without_headings text fields :
  frontIndex text = (-1)%Z -> backIndex text = (-1)%Z ->
  Forall (fun pair =>
            get (parseCorneaData text fields) (fst pair)
            = get (parseCorneaData text fields) (snd pair))
         twinKeys.
Proof.
  intros Hf Hb. destruct (sections_without_headings text Hf Hb) as [Hft Hbt].
  unfold twinKeys.
  repeat constructor; cbn [fst snd]; get_parse; rewrite Hft, Hbt;
    reflexivity.
Qed.

Lemma twins_without_headings_witness :
  Forall (fun pair =>
            get (parseCorneaData (js "Rh: 7.71 Rv: 7.52") (js "rh")) (fst pair)
            = get (parseCorneaData (js "Rh: 7.71 Rv: 7.52") (js "rh")) (snd pair))
         twinKeys
  /\ get (parseCorneaData (js "Rh: 7.71 Rv: 7.52") (js "rh")) (js "Back_Rv")
     = Some (js "7.52").
Proof.
  split.
  - apply (twins_without_headings (js "Rh: 7.71 Rv: 7.52") (js "rh"));
      vm_compute; reflexivity.
  - vm_compute. reflexivity.
Defined.

(** ** Both headings *)

Lemma findIndexFrom_spec {A} (p : A -> bool) (l : list A) (i : Z) :
  (0 <= i)%Z -> findIndexFrom p l i <> (-1)%Z ->
  exists before found after,
    l = before ++ found :: after
    /\ Forall (fun a => p a = false) before
    /\ p found = true
    /\ findIndexFrom p l i = (i + Z.of_nat (length before))%Z.
Proof.
  revert i. induction l as [|a l IH]; intros i Hi H; simpl in *.
  - congruence.
  - destruct (p a) eqn:E.
    + exists [], a, l. repeat split; [constructor | assumption | simpl; lia].
    + destruct (IH (i + 1)%Z ltac:(lia) H)
        as (before & found & after & -> & Hb & Hp & Hr).
      exists (a :: before), found, after.
      repeat split; [constructor; assumption | assumption |].
      rewrite Hr. simpl length. lia.
Qed.

(** X5: when both headings are found and "Cornea Back" comes after
    "Cornea Front", the lines of the text split into the lines before the
    front heading (which no front or back field reads), the front section
    and the back section.  The front section starts at the first line
    that matches the front heading ("Cornea Front", or a line that is just
    "Front", in any letter case), the back section at the first line that
    matches the back heading, and each section text is its lines joined by
    one space. *)
Theorem sections_between_headings text :
  bothFound text = true ->
  exists before front back,
    lines text = before ++ front ++ back
    /\ Forall (fun line => test reCorneaFront line = false) before
    /\ Forall (fun line => test reCorneaBack line = false) (before ++ front)
    /\ (exists heading rest,
          front = heading :: rest /\ test reCorneaFront heading = true)
    /\ (exists heading rest,
          back = heading :: rest /\ test reCorneaBack heading = true)
    /\ frontText text = join (js " ") front
    /\ backText text = join (js " ") back.
Proof.
  intros H. unfold frontText, backText. rewrite H.
  unfold bothFound in H.
  apply andb_true_iff in H as [H Hgt]. apply andb_true_iff in H as [Hf Hb].
  apply negb_true_iff, Z.eqb_neq in Hf, Hb. apply Z.gtb_lt in Hgt.
  unfold frontIndex, backIndex, findIndex in *.
  destruct (findIndexFrom_spec _ _ 0%Z ltac:(lia) Hf)
    as (fl & hf & fa & Efl & Hfl & Hhf & Efi).
  destruct (findIndexFrom_spec _ _ 0%Z ltac:(lia) Hb)
    as (bl & hb & ba & Ebl & Hbl & Hhb & Ebi).
  rewrite Efi, Ebi in *.
  assert (Hlen : length fl < length bl) by lia.
  unfold slice, sliceFrom.
  replace (Z.to_nat (0 + Z.of_nat (length fl))) with (length fl) by lia.
  replace (Z.to_nat (0 + Z.of_nat (length bl))) with (length bl) by lia.
  assert (Etake : take (length bl) (lines text) = bl)
    by (rewrite Ebl; apply take_app_length).
  assert (Edrop : drop (length bl) (lines text) = hb :: ba)
    by (rewrite Ebl; apply drop_app_length).
  assert (Efront : fl ++ take (length bl - length fl) (drop (length fl) (lines text)) = bl).
  { rewrite <- Etake at 2. rewrite Efl at 2.
    rewrite take_app_ge by lia. f_equal.
    rewrite Efl at 1. rewrite drop_app_length. reflexivity. }
  exists fl, (take (length bl - length fl) (drop (length fl) (lines text))),
    (drop (length bl) (lines text)).
  repeat split.
  - rewrite app_assoc, Efront, Edrop. exact Ebl.
  - exact Hfl.
  - rewrite Efront. exact Hbl.
  - assert (drop (length fl) (lines text) = hf :: fa) as ->
      by (rewrite Efl; apply drop_app_length).
    destruct (length bl - length fl) as [|n] eqn:En; [lia|].
    exists hf, (take n fa). split; [reflexivity | exact Hhf].
  - rewrite Edrop. exists hb, ba. split; [reflexivity | exact Hhb].
Qed.

Lemma sections_between_headings_witness :
  exists before front back,
    lines kExampleText = before ++ front ++ back
    /\ Forall (fun line => test reCorneaFront line = false) before
    /\ Forall (fun line => test reCorneaBack line = false) (before ++ front)
    /\ (exists heading rest,
          front = heading :: rest /\ test reCorneaFront heading = true)
    /\ (exists heading rest,
          back = heading :: rest /\ test reCorneaBack heading = true)
    /\ frontText kExampleText = join (js " ") front
    /\ backText kExampleText = join (js " ") back.
Proof.
  apply (sections_between_headings kExampleText). vm_compute. reflexivity.
Defined.

(** ** Asking for more fields *)

Lemma split_nonempty sep s : split sep s <> [].
Proof.
  induction s as [|ch s IH]; simpl; [discriminate|].
  destruct (ch =? sep)%N; [discriminate|].
  destruct (split sep s); discriminate.
Qed.

Lemma split_app sep a b :
  split sep (a ++ sep :: b) = split sep a ++ split sep b.
Proof.
  induction a as [|ch a IH]; simpl.
  - rewrite N.eqb_refl. reflexivity.
  - destruct (ch =? sep)%N; [rewrite IH; reflexivity|].
    rewrite IH. pose proof (split_nonempty sep a) as Hne.
    destruct (split sep a); [congruence | reflexivity].
Qed.

(** The entries of a field string that is not empty, and those of two
    field strings joined by a comma. *)
Lemma requestedFields_nonempty fields :
  fields <> [] ->
  requestedFields fields
  = List.map (fun f => toLowerCase (trim f)) (split 44 fields)
  /\ requestedFields fields <> [].
Proof.
  intros Hne. destruct fields as [|ch fields]; [congruence|].
  split; [reflexivity|]. cbn [requestedFields].
  pose proof (split_nonempty 44 (ch :: fields)) as H.
  destruct (split 44 (ch :: fields)); [congruence | discriminate].
Qed.

Lemma requestedFields_app fields more :
  fields <> [] ->
  requestedFields (fields ++ js "," ++ more)
  = requestedFields fields
    ++ List.map (fun f => toLowerCase (trim f)) (split 44 more).
Proof.
  intros Hne. destruct (requestedFields_nonempty fields Hne) as [-> _].
  assert (fields ++ js "," ++ more <> []) as Hne'
    by (destruct fields; [congruence | discriminate]).
  destruct (requestedFields_nonempty _ Hne') as [-> _].
  change (js "," ++ more) with (44%N :: more).
  rewrite split_app, List.map_app. reflexivity.
Qed.

Lemma wanted_more fields more keywords :
  fields <> [] ->
  wanted fields keywords = true ->
  wanted (fields ++ js "," ++ more) keywords = true.
Proof.
  intros Hne. unfold wanted, extractAll.
  rewrite (requestedFields_app fields more Hne).
  destruct (requestedFields_nonempty fields Hne) as [_ Hrf].
  rewrite length_app, !existsb_app.
  destruct (requestedFields fields) as [|f fs]; [congruence|].
  cbn [length Nat.add Nat.eqb orb].
  intros H. apply orb_true_iff in H as [H|H].
  - apply orb_true_iff in H as [H|H]; rewrite H; cbn [orb];
      rewrite ?orb_true_r; reflexivity.
  - rewrite H. cbn [orb]. rewrite ?orb_true_r. reflexivity.
Qed.

Lemma gated_sublist_mono {A B} (g1 g2 : A -> bool) (out : A -> list B)
  (table : list A) :
  (forall b, g1 b = true -> g2 b = true) ->
  flat_map (fun b => if g1 b then out b else []) table
  `sublist_of` flat_map (fun b => if g2 b then out b else []) table.
Proof.
  intros H. induction table as [|b table IH]; simpl; [constructor|].
  destruct (g1 b) eqn:E1.
  - rewrite (H b E1). apply sublist_app; [reflexivity | exact IH].
  - destruct (g2 b); [apply sublist_inserts_l|]; exact IH.
Qed.

(** X6: asking for more fields never loses or changes an entry.  For a
    field string that is not empty, the object parsed for it is a
    sub-sequence (same keys, same values, same order) of the object parsed
    for the string with further fields appended after a comma; and every
    parsed object is a sub-sequence of the one parsed for "all".  (The
    empty field string asks for everything, so appending to it can only
    take entries away.) *)
Theorem more_fields_keep_entries text fields more :
  fields <> [] ->
  parseCorneaData text fields
    `sublist_of` parseCorneaData text (fields ++ js "," ++ more)
  /\ parseCorneaData text (fields ++ js "," ++ more)
       `sublist_of` parseCorneaData text (js "all")
  /\ parseCorneaData text [] = parseCorneaData text (js "all").
Proof.
  intros Hne. rewrite !parseCorneaData_entries. unfold requestedEntries.
  split; [|split].
  - apply gated_sublist_mono. intros b. apply wanted_more. exact Hne.
  - apply gated_sublist_mono. intros b _. reflexivity.
  - reflexivity.
Qed.

Lemma more_fields_keep_entries_witness :
  parseCorneaData kExampleText (js "k")
    `sublist_of` parseCorneaData kExampleText (js "k" ++ js "," ++ js " pupil")
  /\ parseCorneaData kExampleText (js "k" ++ js "," ++ js " pupil")
       `sublist_of` parseCorneaData kExampleText (js "all")
  /\ parseCorneaData kExampleText [] = parseCorneaData kExampleText (js "all").
Proof.
  apply (more_fields_keep_entries kExampleText (js "k") (js " pupil")).
  discriminate.
Defined.

(** ** The exported text reads back as the table *)

(** A global replace of one character class is a map over the
    characters. *)
Lemma replace_char p rep : forall fuel s i,
  length s < fuel ->
  replaceFrom fuel (Char p) rep s i
  = flat_map (fun ch => if p ch then rep else [ch]) s.
Proof.
  induction fuel as [|fuel IH]; intros s i Hlen; [lia|].
  revert i Hlen. induction s as [|ch s IHs]; intros i Hlen.
  - reflexivity.
  - cbn [replaceFrom searchFrom flat_map]. rewrite matchR_Char.
    destruct (p ch) eqn:E.
    + unfold accept. replace (i - i) with 0 by lia.
      replace (S i =? i) with false by (symmetry; apply Nat.eqb_neq; lia).
      replace (S i - i) with 1 by lia. cbn [take drop app]. f_equal.
      apply IH. simpl in Hlen. lia.
    + specialize (IHs (S i) ltac:(simpl in Hlen; lia)).
      cbn [replaceFrom] in IHs.
      destruct (searchFrom (Char p) s (S i)) as [[[a b] c]|] eqn:Es.
      * apply searchFrom_sound in Es as Hs.
        destruct Hs as (pre & rest & s' & Hpre & Ha & Hm).
        inversion Hm; subst.
        replace (S (S i + length pre) =? S i + length pre) with false in *
          by (symmetry; apply Nat.eqb_neq; lia).
        replace (S i + length pre - i) with (S (S i + length pre - S i)) by lia.
        replace (S (S i + length pre) - i)
          with (S (S (S i + length pre) - S i)) by lia.
        cbn [take drop app]. f_equal. exact IHs.
      * cbn [app]. f_equal. exact IHs.
Qed.

Lemma escapeQuotes_doubled value : escapeQuotes value = doubled value.
Proof. unfold escapeQuotes, chr. apply replace_char. lia. Qed.

Lemma doubled_quoteFree value : quoteFree value = true -> doubled value = value.
Proof.
  induction value as [|ch value IH]; [reflexivity|]. simpl.
  intros H. apply andb_true_iff in H as [H1 H2]. apply negb_true_iff in H1.
  unfold quote in *. rewrite H1. simpl. f_equal. apply IH. exact H2.
Qed.

Lemma pushAll_field v field row rows :
  pushAll v ((field :: row) :: rows) = ((v ++ field) :: row) :: rows.
Proof. induction v as [|ch v IH]; simpl; [reflexivity|]. rewrite IH. reflexivity. Qed.

Lemma option_map_pushAll ch v (t : option table) :
  option_map (push ch) (option_map (pushAll v) t)
  = option_map (pushAll (ch :: v)) t.
Proof. destruct t; reflexivity. Qed.

Lemma readFrom_boundary rest m :
  boundary rest = true -> m <> Quoted ->
  readFrom rest m = readFrom rest FieldStart.
Proof.
  destruct rest as [|ch rest]; simpl; intros H Hm.
  - destruct m; congruence.
  - assert ((ch =? quote)%N = false) as Hq.
    { unfold quote. apply N.eqb_neq. intros ->. discriminate. }
    rewrite Hq. destruct m; try congruence; try reflexivity.
    destruct (ch =? 44)%N; [reflexivity|]. destruct (ch =? 10)%N; [reflexivity|].
    discriminate.
Qed.

Lemma read_quoted v rest :
  readFrom (doubled v ++ quote :: rest) Quoted
  = option_map (pushAll v) (readFrom rest QuoteSeen).
Proof.
  induction v as [|ch v IH].
  - simpl. destruct (readFrom rest QuoteSeen); reflexivity.
  - cbn [doubled flat_map]. fold (doubled v).
    destruct (ch =? quote)%N eqn:E.
    + apply N.eqb_eq in E as ->. cbn [app readFrom]. rewrite N.eqb_refl.
      rewrite IH. apply option_map_pushAll.
    + cbn [app readFrom]. rewrite E, IH. apply option_map_pushAll.
Qed.

Lemma read_plain v : forall rest m,
  forallb (fun c => negb ((c =? 44) || (c =? 10))%N) v = true ->
  m = Unquoted \/ (m = FieldStart /\ plain v = true) ->
  boundary rest = true ->
  readFrom (v ++ rest) m = option_map (pushAll v) (readFrom rest FieldStart).
Proof.
  induction v as [|ch v IH]; intros rest m Hv Hm Hrest.
  - simpl. rewrite readFrom_boundary
      by (try assumption; destruct Hm as [->|[-> _]]; discriminate).
    destruct (readFrom rest FieldStart); reflexivity.
  - simpl in Hv. apply andb_true_iff in Hv as [Hch Hv].
    apply negb_true_iff, orb_false_iff in Hch as [H44 H10].
    assert (readFrom (v ++ rest) Unquoted
            = option_map (pushAll v) (readFrom rest FieldStart)) as Hrec
      by (apply IH; [assumption | left; reflexivity | assumption]).
    cbn [app readFrom]. rewrite H44, H10.
    destruct Hm as [->|[-> Hp]].
    + rewrite Hrec. apply option_map_pushAll.
    + unfold plain in Hp. apply andb_true_iff in Hp as [_ Hq].
      apply negb_true_iff in Hq. rewrite Hq, Hrec. apply option_map_pushAll.
Qed.

Lemma read_field field rest :
  encodes field -> boundary rest = true ->
  readFrom (fst field ++ rest) FieldStart
  = option_map (pushAll (snd field)) (readFrom rest FieldStart).
Proof.
  destruct field as [e v]. intros [He|[He Hp]] Hrest; simpl in *; subst e.
  - unfold quoted. cbn [app readFrom]. rewrite N.eqb_refl.
    rewrite <- app_assoc. cbn [app]. rewrite read_quoted.
    rewrite readFrom_boundary by (assumption || discriminate). reflexivity.
  - apply read_plain; [|right; split; [reflexivity | assumption] | assumption].
    unfold plain in Hp. apply andb_true_iff in Hp as [Hp _]. exact Hp.
Qed.

Lemma read_fields : forall (row : list (jsstring * jsstring)) rest t,
  row <> [] -> Forall encodes row -> boundary rest = true ->
  readFrom rest FieldStart = Some ([[]] :: t) ->
  readFrom (join (js ",") (List.map fst row) ++ rest) FieldStart
  = Some (List.map snd row :: t).
Proof.
  induction row as [|field row IH]; intros rest t Hne Hrow Hrest Ht;
    [congruence|].
  inversion Hrow as [|? ? Hfield Hrow']; subst.
  destruct row as [|field' row].
  - cbn [List.map join]. rewrite read_field, Ht by assumption.
    simpl. rewrite pushAll_field, app_nil_r. reflexivity.
  - change (join (js ",") (List.map fst (field :: field' :: row)))
      with (fst field ++ js "," ++ join (js ",") (List.map fst (field' :: row))).
    rewrite <- !app_assoc. rewrite read_field by (assumption || reflexivity).
    change (js "," ++ ?l) with (44%N :: l). cbn [readFrom].
    change (44 =? quote)%N with false. rewrite N.eqb_refl. cbv iota.
    rewrite (IH rest t) by (assumption || discriminate).
    simpl. rewrite pushAll_field, app_nil_r. reflexivity.
Qed.

(** A text of rows of encoded fields reads back as the fields. *)
Lemma read_table : forall rows : list (list (jsstring * jsstring)),
  rows <> [] -> Forall (fun row => row <> [] /\ Forall encodes row) rows ->
  readCSV (join [10%N] (List.map (fun row => join (js ",") (List.map fst row)) rows))
  = Some (List.map (List.map snd) rows).
Proof.
  unfold readCSV.
  induction rows as [|row rows IH]; intros Hne Hrows; [congruence|].
  inversion Hrows as [|? ? [Hrow Henc] Hrows']; subst.
  destruct rows as [|row' rows].
  - cbn [List.map join].
    rewrite <- (app_nil_r (join _ _)). apply read_fields; auto.
  - set (f := fun row => join (js ",") (List.map fst row)) in *.
    change (join [10%N] (List.map f (row :: row' :: rows)))
      with (f row ++ 10%N :: join [10%N] (List.map f (row' :: rows))).
    unfold f at 1. apply read_fields; [assumption.. | reflexivity |].
    cbn [readFrom]. change (10 =? quote)%N with false.
    change (10 =? 44)%N with false. rewrite N.eqb_refl. cbv iota.
    rewrite IH by (assumption || discriminate). reflexivity.
Qed.

(** *** The editor page *)

(** X7: the text the editor page exports reads back, as comma-separated
    values, to the header row "Dosya Adi" and the labels, then one row
    per result with the file name and, for each rectangle in order, the
    value stored under the rectangle's id ("-" when there is none),
    whatever characters the values hold.  File names are written in
    quotes without escaping and labels without quotes, so this needs file
    names free of double quotes and labels free of commas, line feeds and
    a leading quote. *)
Theorem editorCSV_reads_back rectangles results :
  results <> [] ->
  Forall (fun rect => plain (label rect) = true) rectangles ->
  Forall (fun result => quoteFree (e_fileName result) = true) results ->
  exists csv,
    editorCSV rectangles results = Some csv
    /\ readCSV csv
       = Some ((js "Dosya Adi" :: List.map label rectangles)
               :: List.map (fun result =>
                              e_fileName result
                              :: List.map (cellValue result) rectangles)
                           results).
Proof.
  intros Hne Hlabels Hnames.
  destruct results as [|result results]; [congruence|]. clear Hne.
  eexists. split; [reflexivity|]. cbv zeta.
  set (header := List.map (fun v : jsstring => (v, v))
                          (js "Dosya Adi" :: List.map label rectangles)).
  set (row := fun result : EditorResult =>
                (quoted (e_fileName result), e_fileName result)
                :: List.map (fun rect =>
                               (quoted (escapeQuotes (cellValue result rect)),
                                cellValue result rect)) rectangles).
  pose (rows := header :: List.map row (result :: results)).
  assert (Efst : List.map (fun r => join (js ",") (List.map fst r)) rows
                 = join (js ",") (js "Dosya Adi" :: List.map label rectangles)
                   :: List.map (editorRow rectangles) (result :: results)).
  { unfold rows. rewrite List.map_cons. f_equal.
    - unfold header. rewrite List.map_map. cbn [fst]. rewrite List.map_id.
      reflexivity.
    - rewrite List.map_map. apply List.map_ext.
      intros r. unfold row, editorRow. cbn [List.map fst]. do 2 f_equal.
      rewrite List.map_map. reflexivity. }
  assert (Esnd : List.map (List.map snd) rows
                 = (js "Dosya Adi" :: List.map label rectangles)
                   :: List.map (fun result =>
                                  e_fileName result
                                  :: List.map (cellValue result) rectangles)
                               (result :: results)).
  { unfold rows. rewrite List.map_cons. f_equal.
    - unfold header. rewrite List.map_map. cbn [snd]. rewrite List.map_id.
      reflexivity.
    - rewrite List.map_map. apply List.map_ext.
      intros r. unfold row. cbn [List.map snd]. f_equal.
      rewrite List.map_map. reflexivity. }
  rewrite <- Efst, <- Esnd. apply read_table; [discriminate|].
  unfold rows. constructor.
  - split; [discriminate|]. unfold header. cbn [List.map]. constructor.
    + right. split; reflexivity.
    + rewrite List.map_map. apply Forall_map.
      eapply Forall_impl; [exact Hlabels|]. intros rect Hp.
      right. split; [reflexivity | exact Hp].
  - apply Forall_map. eapply Forall_impl; [exact Hnames|].
    intros r Hq. split; [discriminate|]. unfold row. constructor.
    + left. cbn [fst snd]. rewrite doubled_quoteFree by exact Hq. reflexivity.
    + apply Forall_map. apply Forall_forall. intros rect _. left.
      cbn [fst snd]. rewrite escapeQuotes_doubled. reflexivity.
Qed.

Lemma editorCSV_reads_back_witness :
  exists csv,
    editorCSV [regionA; regionB] [awkwardResult] = Some csv
    /\ readCSV csv
       = Some ((js "Dosya Adi" :: List.map label [regionA; regionB])
               :: List.map (fun result =>
                              e_fileName result
                              :: List.map (cellValue result) [regionA; regionB])
                           [awkwardResult]).
Proof.
  apply (editorCSV_reads_back [regionA; regionB] [awkwardResult]).
  - discriminate.
  - repeat constructor.
  - repeat constructor.
Defined.

(** *** The automatic page *)

Lemma processResults_success fieldNames : forall items files results,
  processResults fieldNames files items = Some results ->
  Forall (fun item => success item = true) items ->
  Forall (fun name => quoteFree name = true) files ->
  Forall (fun result =>
            quoteFree (fileName result) = true
            /\ exists text,
                 extractedData result = parseCorneaData text fieldNames)
         results.
Proof.
  induction items as [|item items IH]; intros files results H Hok Hfiles.
  - injection H as <-. constructor.
  - inversion Hok as [|? ? Hitem Hitems]; subst. cbn [processResults] in H.
    destruct files as [|name files]; [discriminate|].
    inversion Hfiles as [|? ? Hname Hfiles']; subst.
    cbn [head tail processResult] in H. rewrite Hitem in H. cbn [negb] in H.
    destruct (processResults fieldNames files items) as [rs|] eqn:E;
      [|discriminate].
    injection H as <-. constructor.
    + split; [exact Hname|]. eexists. reflexivity.
    + apply (IH files); assumption.
Qed.

Lemma numeric_quoteFree v : numeric v -> quoteFree v = true.
Proof.
  intros [_ H]. unfold quoteFree. apply forallb_forall. intros ch Hin.
  rewrite List.Forall_forall in H. specialize (H ch Hin).
  apply negb_true_iff, N.eqb_neq. intros ->. discriminate.
Qed.

Lemma allKeys_plain : Forall (fun key => plain key = true) allKeys.
Proof. repeat constructor. Qed.

Lemma requestedKeys_plain fields :
  Forall (fun key => plain key = true) (requestedKeys fields).
Proof.
  apply Forall_forall. intros key Hin.
  assert (key ∈ allKeys) as Hall.
  { eapply elem_of_sublist; [exact Hin|].
    rewrite <- allKeys_table. apply gated_sublist. }
  pose proof allKeys_plain as Hp. rewrite Forall_forall in Hp.
  apply Hp. exact Hall.
Qed.

(** X8: when every image of a batch was read with success, the text the
    automatic page exports reads back, as comma-separated values, to the
    header row (the first-column title and the keys of the requested
    fields) and one row per file with the file name and the parsed
    values; every row has its values under the keys of the header.  The
    values never need escaping; the file names are written unescaped, so
    they must be free of double quotes. *)
Theorem exportToCSV_reads_back fieldNames files items results :
  processResults fieldNames files items = Some results ->
  items <> [] ->
  Forall (fun item => success item = true) items ->
  Forall (fun name => quoteFree name = true) files ->
  exists csv,
    exportToCSV results = Some csv
    /\ readCSV csv
       = Some ((dosyaAdi :: requestedKeys fieldNames)
               :: List.map (fun result =>
                              fileName result :: values (extractedData result))
                           results)
    /\ Forall (fun result =>
                 keys (extractedData result) = requestedKeys fieldNames)
              results.
Proof.
  intros Hres Hne Hok Hfiles.
  pose proof (processResults_success _ _ _ _ Hres Hok Hfiles) as Hall.
  assert (Hkeys : Forall (fun result =>
                    keys (extractedData result) = requestedKeys fieldNames)
                    results).
  { eapply Forall_impl; [exact Hall|]. intros r [_ [text ->]].
    apply keys_requestedKeys. }
  destruct results as [|result results].
  { destruct items as [|item items]; [congruence|]. cbn [processResults] in Hres.
    destruct (processResult _ _ _); [|discriminate].
    destruct (processResults _ _ _); discriminate. }
  eexists. split; [reflexivity|]. split; [|exact Hkeys]. cbv zeta.
  inversion Hkeys as [|? ? Hfirst _]; subst. rewrite Hfirst.
  set (header := List.map (fun v : jsstring => (v, v))
                          (dosyaAdi :: requestedKeys fieldNames)).
  set (row := fun result : OCRResult =>
                List.map (fun v : jsstring => (quoted v, v))
                         (fileName result :: values (extractedData result))).
  pose (rows := header :: List.map row (result :: results)).
  assert (Efst : List.map (fun r => join (js ",") (List.map fst r)) rows
                 = join (js ",") (dosyaAdi :: requestedKeys fieldNames)
                   :: List.map exportRow (result :: results)).
  { unfold rows. rewrite List.map_cons. f_equal.
    - unfold header. rewrite List.map_map. cbn [fst]. rewrite List.map_id.
      reflexivity.
    - rewrite List.map_map. apply List.map_ext.
      intros r. unfold row, exportRow. rewrite List.map_map. reflexivity. }
  assert (Esnd : List.map (List.map snd) rows
                 = (dosyaAdi :: requestedKeys fieldNames)
                   :: List.map (fun result =>
                                  fileName result
                                  :: values (extractedData result))
                               (result :: results)).
  { unfold rows. rewrite List.map_cons. f_equal.
    - unfold header. rewrite List.map_map. cbn [snd]. rewrite List.map_id.
      reflexivity.
    - rewrite List.map_map. apply List.map_ext.
      intros r. unfold row. rewrite List.map_map. cbn [snd].
      rewrite List.map_id. reflexivity. }
  rewrite <- Efst, <- Esnd. apply read_table; [discriminate|].
  unfold rows. constructor.
  - split; [discriminate|]. unfold header. cbn [List.map]. constructor.
    + right. split; reflexivity.
    + apply Forall_map.
      eapply Forall_impl; [apply requestedKeys_plain|]. intros key Hp.
      right. split; [reflexivity | exact Hp].
  - apply Forall_map. eapply Forall_impl; [exact Hall|].
    intros r [Hname [text Hdata]]. split; [discriminate|].
    unfold row. cbn [List.map]. constructor.
    + left. cbn [fst snd]. rewrite doubled_quoteFree by exact Hname.
      reflexivity.
    + apply Forall_map. unfold values. apply Forall_map.
      rewrite Hdata. eapply Forall_impl; [apply parseCorneaData_values|].
      intros kv Hnum. left. cbn [fst snd].
      rewrite doubled_quoteFree by (apply numeric_quoteFree; exact Hnum).
      reflexivity.
Qed.

Lemma exportToCSV_reads_back_witness :
  exists results csv,
    processResults (js "k") [js "a.png"; js "b.png"] twoItems = Some results
    /\ exportToCSV results = Some csv
    /\ readCSV csv
       = Some ((dosyaAdi :: requestedKeys (js "k"))
               :: List.map (fun result =>
                              fileName result :: values (extractedData result))
                           results).
Proof.
  eexists.
  destruct (exportToCSV_reads_back (js "k") [js "a.png"; js "b.png"] twoItems _
              eq_refl) as (csv & Hcsv & Hread & _).
  - discriminate.
  - repeat constructor.
  - repeat constructor.
  - exists csv. split; [reflexivity|]. split; assumption.
Defined.

(** ** The text of a cell is its words *)

Lemma trimStart_app a b :
  trimStart (a ++ b)
  = if forallb isWhiteSpace a then trimStart b else trimStart a ++ b.
Proof.
  induction a as [|ch a IH]; simpl; [reflexivity|].
  destruct (isWhiteSpace ch); [exact IH | reflexivity].
Qed.

Lemma trimStart_nil s : trimStart s = [] <-> forallb isWhiteSpace s = true.
Proof.
  induction s as [|ch s IH]; simpl; [tauto|].
  destruct (isWhiteSpace ch); simpl; [exact IH|]. split; discriminate.
Qed.

Lemma forallb_rev {A} (p : A -> bool) l : forallb p (rev l) = forallb p l.
Proof.
  induction l as [|a l IH]; simpl; [reflexivity|].
  rewrite forallb_app, IH. simpl. rewrite andb_true_r, andb_comm. reflexivity.
Qed.

Lemma trimEnd_nil s : trimEnd s = [] <-> forallb isWhiteSpace s = true.
Proof.
  unfold trimEnd. rewrite <- (forallb_rev _ s), <- trimStart_nil.
  split; intros H.
  - apply (f_equal (@rev N)) in H. rewrite rev_involutive in H. exact H.
  - rewrite H. reflexivity.
Qed.

Lemma trimEnd_cons ch s :
  trimEnd (ch :: s)
  = match trimEnd s with
    | [] => if isWhiteSpace ch then [] else [ch]
    | _ :: _ => ch :: trimEnd s
    end.
Proof.
  unfold trimEnd at 1. cbn [rev]. rewrite trimStart_app, forallb_rev.
  destruct (forallb isWhiteSpace s) eqn:E.
  - apply trimEnd_nil in E. rewrite E. simpl.
    destruct (isWhiteSpace ch); reflexivity.
  - rewrite rev_app_distr. simpl. fold (trimEnd s).
    destruct (trimEnd s) eqn:Et; [|reflexivity].
    apply trimEnd_nil in Et. congruence.
Qed.

(** A word is not empty and holds no white space. *)
Lemma words_wellformed s :
  Forall (fun word => word <> [] /\ Forall (fun ch => isWhiteSpace ch = false) word)
         (words s).
Proof.
  induction s as [|ch s IH]; [constructor|]. cbn [words].
  destruct (isWhiteSpace ch) eqn:E; [exact IH|].
  destruct s as [|next s]; [repeat constructor; congruence|].
  destruct (isWhiteSpace next) eqn:En.
  - constructor; [|exact IH]. split; [discriminate | repeat constructor; exact E].
  - destruct (words (next :: s)) as [|word rest];
      [repeat constructor; congruence|].
    inversion IH as [|? ? [Hne Hw] Hrest]; subst.
    constructor; [|exact Hrest]. split; [discriminate | constructor; assumption].
Qed.

Lemma words_head ch s : isWhiteSpace ch = false -> words (ch :: s) <> [].
Proof.
  intros E. cbn [words]. rewrite E. destruct s as [|next s]; [discriminate|].
  destruct (isWhiteSpace next); [discriminate|].
  destruct (words (next :: s)); discriminate.
Qed.

Lemma join_words_nil s : join (js " ") (words s) = [] -> words s = [].
Proof.
  intros H. apply (join_nil_inv (js " ")); [|exact H].
  intros word Hin. pose proof (words_wellformed s) as Hw.
  rewrite List.Forall_forall in Hw. apply (Hw word Hin).
Qed.

Lemma join_cons_char ch word rest :
  join (js " ") ((ch :: word) :: rest) = ch :: join (js " ") (word :: rest).
Proof. destruct rest; reflexivity. Qed.

(** The collapsed text without its trailing space. *)
Lemma trimEnd_collapse s : forall inRun,
  trimEnd (collapseSpaces inRun s)
  = (if negb inRun
        && match s with ch :: _ => isWhiteSpace ch | [] => false end
        && match words s with [] => false | _ :: _ => true end
     then [32%N] else [])
    ++ join (js " ") (words s).
Proof.
  induction s as [|ch s IH]; intros inRun.
  - simpl. rewrite andb_false_r. reflexivity.
  - cbn [collapseSpaces]. destruct (isWhiteSpace ch) eqn:E.
    + assert (words (ch :: s) = words s) as Hw by (cbn [words]; rewrite E; reflexivity).
      rewrite Hw. destruct inRun.
      * rewrite IH. reflexivity.
      * rewrite trimEnd_cons, IH. cbn [negb andb app].
        change (isWhiteSpace 32) with true.
        destruct (words s) as [|word rest] eqn:Ew; [reflexivity|].
        destruct (join (js " ") (word :: rest)) eqn:Ej; [|reflexivity].
        rewrite <- Ew in Ej. apply join_words_nil in Ej. congruence.
    + replace (negb inRun && false) with false by (destruct inRun; reflexivity).
      cbn [andb app].
      assert (trimEnd (ch :: collapseSpaces false s)
              = join (js " ") (words (ch :: s))) as Hgoal.
      { rewrite trimEnd_cons, IH. cbn [negb andb words]. rewrite E.
        destruct s as [|next s]; [reflexivity|].
        destruct (isWhiteSpace next) eqn:En.
        - destruct (words (next :: s)) as [|word rest] eqn:Ew; [reflexivity|].
          reflexivity.
        - pose proof (words_head next s En) as Hne.
          destruct (words (next :: s)) as [|word rest] eqn:Ew; [congruence|].
          cbn [app]. rewrite join_cons_char.
          destruct (join (js " ") (word :: rest)) eqn:Ej; [|reflexivity].
          rewrite <- Ew in Ej. apply join_words_nil in Ej. congruence. }
      destruct inRun; exact Hgoal.
Qed.

Lemma collapse_head s :
  match collapseSpaces true s with
  | ch :: _ => isWhiteSpace ch = false
  | [] => True
  end.
Proof.
  induction s as [|ch s IH]; simpl; [exact I|].
  destruct (isWhiteSpace ch) eqn:E; [exact IH | exact E].
Qed.

Lemma trimStart_collapse s :
  trimStart (collapseSpaces false s) = collapseSpaces true s.
Proof.
  destruct s as [|ch s]; [reflexivity|]. cbn [collapseSpaces].
  destruct (isWhiteSpace ch) eqn:E.
  - cbn [trimStart]. change (isWhiteSpace 32) with true. cbv iota.
    pose proof (collapse_head s) as H.
    destruct (collapseSpaces true s) as [|ch' t]; [reflexivity|].
    simpl. rewrite H. reflexivity.
  - simpl. rewrite E. reflexivity.
Qed.

Lemma trim_collapse s :
  trim (collapseSpaces false s) = join (js " ") (words s).
Proof.
  unfold trim. rewrite trimStart_collapse, trimEnd_collapse. reflexivity.
Qed.

(** The words of a text joined to another by white space. *)
Lemma words_app_space a b :
  words (a ++ 32%N :: b) = words a ++ words b.
Proof.
  induction a as [|ch a IH]; [reflexivity|].
  cbn [app words]. destruct (isWhiteSpace ch) eqn:E; [exact IH|].
  destruct a as [|next a]; [reflexivity|].
  cbn [app] in *. destruct (isWhiteSpace next) eqn:En.
  - rewrite IH. reflexivity.
  - rewrite IH. pose proof (words_head next a En) as Hne.
    destruct (words (next :: a)); [congruence | reflexivity].
Qed.

Lemma words_join texts :
  words (join (js " ") texts) = flat_map words texts.
Proof.
  induction texts as [|text texts IH]; [reflexivity|].
  destruct texts as [|text' texts].
  - simpl. rewrite app_nil_r. reflexivity.
  - change (join (js " ") (text :: text' :: texts))
      with (text ++ 32%N :: join (js " ") (text' :: texts)).
    rewrite words_app_space, IH. reflexivity.
Qed.

(** Replacing white space by white space keeps the words. *)
Lemma words_map (f : N -> N) s :
  (forall ch, isWhiteSpace (f ch) = isWhiteSpace ch) ->
  (forall ch, isWhiteSpace ch = false -> f ch = ch) ->
  words (List.map f s) = words s.
Proof.
  intros Hws Hid. induction s as [|ch s IH]; [reflexivity|].
  cbn [List.map words]. rewrite Hws. destruct (isWhiteSpace ch) eqn:E; [exact IH|].
  rewrite (Hid ch E). destruct s as [|next s]; [reflexivity|].
  cbn [List.map] in *. rewrite Hws, IH. reflexivity.
Qed.

Lemma spaced_orElse ws :
  Forall (fun word : jsstring => word <> []) ws ->
  orElse (Some (join (js " ") ws)) (js "-") = spaced ws.
Proof.
  intros H. destruct ws as [|word rest]; [reflexivity|].
  unfold spaced. inversion H as [|? ? Hne _]; subst.
  destruct word as [|ch word]; [congruence|].
  rewrite join_cons_char. reflexivity.
Qed.

Lemma words_nonempty s : Forall (fun word : jsstring => word <> []) (words s).
Proof.
  eapply Forall_impl; [apply words_wellformed|]. intros word [H _]. exact H.
Qed.

(** X9: the value of a region is the words of its blocks, in order,
    separated by single spaces, and "-" when the blocks hold no word; a
    word is a maximal run of characters that are not white space.  The
    second editor page cleans the text of a cropped region to the same
    form. *)
Theorem cell_is_words :
  (forall texts, combineTexts texts = spaced (flat_map words texts))
  /\ (forall fullText, cellText (Some fullText) = spaced (words fullText))
  /\ cellText None = js "-"
  /\ (forall s, Forall (fun word =>
                  word <> [] /\ Forall (fun ch => isWhiteSpace ch = false) word)
                (words s)).
Proof.
  repeat split.
  - intros texts. unfold combineTexts.
    rewrite String_replace_spaces, trim_collapse, words_join.
    apply spaced_orElse. rewrite <- words_join. apply words_nonempty.
  - intros fullText. unfold cellText, cleanText.
    rewrite String_replace_spaces, trim_collapse.
    assert (words (String_replace_g (orElse (Some fullText) []) (chr 10) (js " "))
            = words fullText) as ->.
    { assert (orElse (Some fullText) [] = fullText) as ->
        by (destruct fullText; reflexivity).
      unfold String_replace_g, chr. rewrite replace_char by lia.
      rewrite <- (words_map (fun ch => if (ch =? 10)%N then 32%N else ch) fullText).
      - f_equal. induction fullText as [|ch s IH]; [reflexivity|].
        simpl. rewrite IH. destruct (ch =? 10)%N; reflexivity.
      - intros ch. destruct (N.eqb_spec ch 10) as [->|]; reflexivity.
      - intros ch Hch. destruct (N.eqb_spec ch 10) as [->|]; [discriminate|].
        reflexivity. }
    apply spaced_orElse, words_nonempty.
  - apply words_wellformed.
Qed.

(** ** The regions the editor keeps *)













(** ** Regions the editor accepts can be cropped *)








(** ** Dropping a row *)

Lemma findIndex_split {A} (p : A -> bool) (l : list A) (i : nat) :
  findIndex p l = Z.of_nat i ->
  exists before found after,
    l = before ++ found :: after /\ length before = i /\ p found = true.
Proof.
  intros H. unfold findIndex in H.
  destruct (findIndexFrom_spec p l 0%Z ltac:(lia) ltac:(lia))
    as (before & found & after & El & _ & Hp & Hi).
  exists before, found, after. repeat split; [exact El | lia | exact Hp].
Qed.

(** X12: dropping the dragged row on another row moves the dragged
    region to the index the target had and keeps the order of all the
    other regions: the new list is a rearrangement of the old one, and
    taking the dragged region out of either list leaves the same list. *)
Theorem drop_moves_dragged st targetId dragged draggedIndex targetIndex :
  draggedId st = Some dragged -> dragged <> [] -> dragged <> targetId ->
  findIndex (fun r => strEq (id r) dragged) (rectangles st)
    = Z.of_nat draggedIndex ->
  findIndex (fun r => strEq (id r) targetId) (rectangles st)
    = Z.of_nat targetIndex ->
  exists item,
    rectangles st !! draggedIndex = Some item
    /\ id item = dragged
    /\ rectangles (handleDrop st targetId) !! targetIndex = Some item
    /\ delete targetIndex (rectangles (handleDrop st targetId))
       = delete draggedIndex (rectangles st)
    /\ rectangles (handleDrop st targetId) ≡ₚ rectangles st
    /\ draggedId (handleDrop st targetId) = None.
Proof.
  intros Hdragged Hne Hdiff Hdi Hti.
  destruct (findIndex_split _ _ _ Hdi) as (before & item & after & El & Hlen & Hid).
  destruct (findIndex_split _ _ _ Hti) as (before' & item' & after' & El' & Hlen' & _).
  apply strEq_eq in Hid.
  assert (targetIndex <= length (before ++ after)) as Hle.
  { apply (f_equal (@length Rectangle)) in El, El'.
    rewrite El, !length_app in El'. simpl in El'. rewrite length_app. lia. }
  assert (Hdrop : rectangles (handleDrop st targetId)
                  = take targetIndex (before ++ after)
                    ++ item :: drop targetIndex (before ++ after)
                  /\ draggedId (handleDrop st targetId) = None).
  { unfold handleDrop. rewrite Hdragged.
    destruct dragged as [|ch dragged]; [congruence|].
    destruct (strEq (ch :: dragged) targetId) eqn:E;
      [apply strEq_eq in E; congruence|].
    rewrite Hdi, Hti.
    replace ((Z.of_nat draggedIndex =? -1)%Z || (Z.of_nat targetIndex =? -1)%Z)
      with false
      by (symmetry; apply orb_false_iff; split; apply Z.eqb_neq; lia).
    rewrite !Nat2Z.id. unfold spliceOut, spliceIn. rewrite El, <- Hlen.
    rewrite take_app_length, drop_app_length.
    replace (drop (S (length before)) (before ++ item :: after)) with after
      by (rewrite (cons_middle item), app_assoc, <- (drop_app_length (before ++ [item]) after) at 1;
          rewrite length_app; simpl; f_equal; lia).
    cbn [take]. split; reflexivity. }
  destruct Hdrop as [Hrects Hnone]. exists item. rewrite Hrects, El.
  repeat split.
  - apply list_lookup_middle. symmetry. exact Hlen.
  - exact Hid.
  - apply list_lookup_middle. rewrite length_take_le; [reflexivity | exact Hle].
  - rewrite <- Hlen, delete_middle.
    rewrite <- (length_take_le (before ++ after) targetIndex Hle) at 1.
    rewrite delete_middle. apply take_drop.
  - rewrite <- Permutation_middle, take_drop. apply Permutation_middle.
  - exact Hnone.
Qed.

Lemma drop_moves_dragged_witness :
  exists item,
    rectangles dragging !! 0 = Some item
    /\ id item = js "a"
    /\ rectangles (handleDrop dragging (js "flat")) !! 2 = Some item
    /\ delete 2 (rectangles (handleDrop dragging (js "flat")))
       = delete 0 (rectangles dragging)
    /\ rectangles (handleDrop dragging (js "flat")) ≡ₚ rectangles dragging
    /\ draggedId (handleDrop dragging (js "flat")) = None.
Proof.
  apply (drop_moves_dragged dragging (js "flat") (js "a") 0 2).
  - reflexivity.
  - discriminate.
  - discriminate.
  - vm_compute. reflexivity.
  - vm_compute. reflexivity.
Defined.

(** ** The identifiers of the regions *)

Lemma handleDrop_Permutation st targetId :
  rectangles (handleDrop st targetId) ≡ₚ rectangles st.
Proof.
  unfold handleDrop. destruct (draggedId st) as [[|ch dragged]|];
    try reflexivity.
  destruct (strEq _ _); [reflexivity|]. destruct (_ || _)%bool; [reflexivity|].
  unfold spliceOut, spliceIn.
  set (l := rectangles st). set (i := Z.to_nat _). set (j := Z.to_nat _).
  destruct (take 1 (drop i l)) as [|item rest] eqn:E; [reflexivity|].
  cbn [setDraggedId setRectangles rectangles].
  rewrite <- Permutation_middle, take_drop.
  rewrite <- (take_drop i l) at 3.
  assert (drop i l = item :: drop (S i) l) as ->.
  { destruct (drop i l) as [|a rest'] eqn:Ed; [discriminate|].
    cbn [take] in E. injection E as -> _.
    replace (S i) with (i + 1) by lia.
    rewrite <- (drop_drop l 1 i), Ed. reflexivity. }
  apply Permutation_middle.
Qed.

Lemma map_filter_sublist {A B} (f : A -> B) (p : A -> bool) (l : list A) :
  List.map f (List.filter p l) `sublist_of` List.map f l.
Proof.
  induction l as [|a l IH]; [constructor|]. simpl.
  destruct (p a); simpl; [apply sublist_skip | apply sublist_cons]; exact IH.
Qed.

(** The identifiers after an event are among those before it and the
    one the event brings, and stay distinct when that one is new. *)
Lemma step_ids st ev :
  NoDup (List.map id (rectangles st)) ->
  (forall uuid, In uuid (uuidsOf [ev]) ->
                ~ In uuid (List.map id (rectangles st))) ->
  NoDup (List.map id (rectangles (step st ev)))
  /\ (forall rectId, In rectId (List.map id (rectangles (step st ev))) ->
        In rectId (List.map id (rectangles st)) \/ In rectId (uuidsOf [ev])).
Proof.
  intros Hnd Hfresh.
  assert (forall uuid,
             ~ In uuid (List.map id (rectangles st)) ->
             NoDup (List.map id (rectangles (handleMouseUp st uuid)))
             /\ (forall rectId,
                    In rectId (List.map id (rectangles (handleMouseUp st uuid))) ->
                    In rectId (List.map id (rectangles st)) \/ In rectId [uuid]))
    as Hup.
  { intros uuid Hnew. unfold handleMouseUp. cbn [rectangles].
    destruct (currentRect st) as [current|]; [|split; [exact Hnd | auto]].
    destruct (templateSize st) as [size|]; [|split; [exact Hnd | auto]].
    destruct (_ && _)%bool; [|split; [exact Hnd | auto]].
    rewrite List.map_app. cbn [List.map id]. split.
    - apply NoDup_app. split; [exact Hnd|]. split; [|apply NoDup_singleton].
      intros a Ha Hin. apply list_elem_of_singleton in Hin as ->.
      apply Hnew, list_elem_of_In, Ha.
    - intros rectId Hin. apply in_app_or in Hin. exact Hin. }
  destruct ev as [size|e|e|uuid|uuid|rectId newLabel|rectId|rectId|targetId|];
    cbn [step].
  - split; [exact Hnd | auto].
  - unfold handleMouseDown. destruct (getCanvasCoords st e);
      (split; [exact Hnd | auto]).
  - unfold handleMouseMove. destruct (isDrawing st); [|split; [exact Hnd | auto]].
    destruct (drawStart st); [|split; [exact Hnd | auto]].
    destruct (getCanvasCoords st e); (split; [exact Hnd | auto]).
  - apply Hup, Hfresh. left. reflexivity.
  - apply Hup, Hfresh. left. reflexivity.
  - cbn [handleLabelChange setRectangles rectangles].
    assert (List.map id
              (List.map (fun rect =>
                           if strEq (id rect) rectId
                           then {| id := id rect; label := newLabel;
                                   x := x rect; y := y rect;
                                   width := width rect; height := height rect |}
                           else rect) (rectangles st))
            = List.map id (rectangles st)) as ->.
    { rewrite List.map_map. apply List.map_ext. intros rect.
      destruct (strEq (id rect) rectId); reflexivity. }
    split; [exact Hnd | auto].
  - cbn [handleDeleteRectangle setRectangles rectangles].
    assert (List.map id (List.filter (fun rect => negb (strEq (id rect) rectId))
                                     (rectangles st))
            `sublist_of` List.map id (rectangles st)) as Hsub.
    { apply map_filter_sublist. }
    split; [eapply sublist_NoDup; eassumption|].
    intros a Ha. left. apply list_elem_of_In.
    eapply elem_of_sublist; [apply list_elem_of_In, Ha | exact Hsub].
  - split; [exact Hnd | auto].
  - pose proof (Permutation_map id (handleDrop_Permutation st targetId)) as Hp.
    split.
    + rewrite Hp. exact Hnd.
    + intros a Ha. left. eapply Permutation_in; [exact Hp | exact Ha].
  - split; [exact Hnd | auto].
Qed.

Lemma run_ids events : forall st,
  NoDup (List.map id (rectangles st)) ->
  NoDup (uuidsOf events) ->
  (forall uuid, In uuid (uuidsOf events) ->
                ~ In uuid (List.map id (rectangles st))) ->
  NoDup (List.map id (rectangles (run events st))).
Proof.
  induction events as [|ev events IH]; intros st Hnd Huu Hfresh; [exact Hnd|].
  cbn [run fold_left].
  assert (uuidsOf (ev :: events) = uuidsOf [ev] ++ uuidsOf events) as E
    by (unfold uuidsOf; cbn [flat_map]; rewrite app_nil_r; reflexivity).
  rewrite E in Huu, Hfresh.
  apply NoDup_app in Huu as (Hev & Hdisj & Hrest).
  destruct (step_ids st ev Hnd) as [Hnd' Hids].
  { intros uuid Hin. apply Hfresh, in_or_app. left. exact Hin. }
  apply IH; [exact Hnd' | exact Hrest|].
  intros uuid Hin Hin'. apply Hids in Hin' as [Hold|Hnew].
  - apply (Hfresh uuid); [apply in_or_app; right; exact Hin | exact Hold].
  - apply (Hdisj uuid); apply list_elem_of_In; assumption.
Qed.

(** X13: when the identifiers the page draws for new regions are
    pairwise distinct, the regions it keeps have pairwise distinct
    identifiers after any sequence of events, so a table keyed by
    identifier holds one value per region. *)
Theorem region_ids_distinct events :
  NoDup (uuidsOf events) ->
  NoDup (List.map id (rectangles (run events initialState))).
Proof.
  intros H. apply run_ids; [constructor | exact H|].
  intros uuid _ [].
Qed.

Lemma region_ids_distinct_witness :
  NoDup (List.map id (rectangles (run session initialState))).
Proof.
  apply (region_ids_distinct session).
  apply (bool_decide_unpack _). vm_compute. reflexivity.
Defined.

(** ** From the composite image back to the regions *)

Lemma parseRegionResults_lookup textBlocks boundaries region :
  region ∈ List.map b_id boundaries ->
  parseRegionResults textBlocks boundaries !! region
  = Some (combineTexts (textsOf boundaries region textBlocks)).
Proof.
  intros Hin. unfold parseRegionResults. cbv zeta.
  rewrite lookup_fmap, pushAll_lookup, initResults_lookup.
  rewrite decide_True by exact Hin. reflexivity.
Qed.

Lemma inStrip_inRange b block :
  inStrip b block = true <->
  exists v vs, boundingBox block = Some (v :: vs) /\ inRange b (avgX (v :: vs)).
Proof.
  unfold inStrip. destruct (boundingBox block) as [[|v vs]|].
  - split; [discriminate | intros (? & ? & [=] & _)].
  - rewrite inRange_test. split.
    + intros H. exists v, vs. split; [reflexivity | exact H].
    + intros (? & ? & [= <- <-] & H). exact H.
  - split; [discriminate | intros (? & ? & [=] & _)].
Qed.

(** With distinct identifiers, a block goes to a region exactly when its
    centre lies in the range of that region. *)
Lemma blockRegion_strip crops i b block :
  Forall (fun crop => (0 < c_width crop)%Z) crops ->
  NoDup (List.map b_id (drawAll crops 0)) ->
  drawAll crops 0 !! i = Some b ->
  blockRegion (drawAll crops 0) block = Some (b_id b) <-> inStrip b block = true.
Proof.
  intros Hpos Hnd Hb. rewrite inStrip_inRange. unfold blockRegion. split.
  - destruct (boundingBox block) as [[|v vs]|]; try discriminate.
    intros H. apply regionOf_Some in H as (j & b' & Hb' & Hid & Hin & _).
    assert (j = i) as ->.
    { eapply NoDup_lookup; [exact Hnd|..].
      - rewrite list_lookup_fmap, Hb'. reflexivity.
      - change (List.map b_id (drawAll crops 0)) with (b_id <$> drawAll crops 0).
        rewrite list_lookup_fmap, Hb. simpl. congruence. }
    rewrite Hb in Hb'. injection Hb' as <-. exists v, vs. split; [reflexivity | exact Hin].
  - intros (v & vs & -> & Hin). apply regionOf_Some. exists i, b.
    repeat split; try assumption; try apply Hin.
    intros j b' Hj Hb' [_ Hin'].
    pose proof (drawAll_ordered crops 0 j i b' b Hpos Hj Hb' Hb) as Hord.
    destruct Hin as [Hlo _]. unfold GAP in Hord.
    assert (inject_Z (xEnd b') <= inject_Z (xStart b))%Q
      by (rewrite <- Zle_Qle; lia).
    lra.
Qed.

Lemma textsOf_strip crops i b textBlocks :
  Forall (fun crop => (0 < c_width crop)%Z) crops ->
  NoDup (List.map b_id (drawAll crops 0)) ->
  drawAll crops 0 !! i = Some b ->
  textsOf (drawAll crops 0) (b_id b) textBlocks = stripTexts b textBlocks.
Proof.
  intros Hpos Hnd Hb. unfold textsOf, stripTexts. f_equal.
  induction textBlocks as [|block textBlocks IH]; [reflexivity|].
  rewrite filter_cons. cbn [List.filter].
  pose proof (blockRegion_strip crops i b block Hpos Hnd Hb) as Hiff.
  destruct (inStrip b block) eqn:E.
  - rewrite decide_True by (apply Hiff; reflexivity). f_equal. exact IH.
  - rewrite decide_False by (intros H; apply Hiff in H; discriminate). exact IH.
Qed.

Lemma combineRegions_boundaries file rects combined :
  combineRegions file rects = Resolved combined ->
  exists crops,
    boundaries combined = drawAll crops 0
    /\ Forall (fun crop => (0 < c_width crop)%Z) crops
    /\ List.map b_id (boundaries combined) = List.map id rects.
Proof.
  unfold combineRegions. destruct (cropAll file rects) as [crops|e] eqn:E;
    [|discriminate].
  intros [= <-]. cbn [boundaries]. exists crops.
  destruct (cropAll_spec file rects crops E) as [Hids Hpos].
  repeat split; [exact Hpos|]. rewrite drawAll_ids. exact Hids.
Qed.

Lemma boundary_of_region file rects combined i rect :
  combineRegions file rects = Resolved combined ->
  rects !! i = Some rect ->
  exists b, boundaries combined !! i = Some b /\ b_id b = id rect.
Proof.
  intros Hc Hrect.
  destruct (combineRegions_boundaries _ _ _ Hc) as (crops & _ & _ & Hids).
  assert ((b_id <$> boundaries combined) !! i = Some (id rect)) as H.
  { change (b_id <$> boundaries combined) with (List.map b_id (boundaries combined)).
    rewrite Hids. change (List.map id rects) with (id <$> rects).
    rewrite list_lookup_fmap, Hrect. reflexivity. }
  rewrite list_lookup_fmap in H.
  destruct (boundaries combined !! i) as [b|]; [|discriminate].
  injection H as H. exists b. split; [reflexivity | exact H].
Qed.

Lemma regions_read_back_aux file rects combined textBlocks i rect :
  combineRegions file rects = Resolved combined ->
  NoDup (List.map id rects) ->
  rects !! i = Some rect ->
  exists b,
    boundaries combined !! i = Some b
    /\ parseRegionResults textBlocks (boundaries combined) !! id rect
       = Some (combineTexts (stripTexts b textBlocks)).
Proof.
  intros Hc Hnd Hrect.
  destruct (boundary_of_region _ _ _ _ _ Hc Hrect) as (b & Hb & Hid).
  destruct (combineRegions_boundaries _ _ _ Hc) as (crops & Eb & Hpos & Hids).
  rewrite Eb in *. rewrite <- Hids in Hnd. rewrite <- Hid.
  exists b. split; [exact Hb|].
  rewrite parseRegionResults_lookup.
  - rewrite (textsOf_strip crops i b) by assumption. reflexivity.
  - apply list_elem_of_fmap. exists b. split; [reflexivity|].
    apply (list_elem_of_lookup_2 _ i). exact Hb.
Qed.

(** X14: when the regions have distinct identifiers and the composite
    image was built, reading the OCR blocks back undoes the layout: the
    i-th region owns the i-th range, which is not empty, a block goes to
    the region exactly when the mean x of its box lies in that range, and
    the value of the region is the combined text of those blocks. *)
Theorem regions_read_back file rects combined textBlocks i rect :
  combineRegions file rects = Resolved combined ->
  NoDup (List.map id rects) ->
  rects !! i = Some rect ->
  exists b,
    boundaries combined !! i = Some b
    /\ b_id b = id rect
    /\ (xStart b < xEnd b)%Z
    /\ (forall block,
          blockRegion (boundaries combined) block = Some (id rect)
          <-> inStrip b block = true)
    /\ parseRegionResults textBlocks (boundaries combined) !! id rect
       = Some (combineTexts (stripTexts b textBlocks)).
Proof.
  intros Hc Hnd Hrect.
  destruct (boundary_of_region _ _ _ _ _ Hc Hrect) as (b & Hb & Hid).
  destruct (combineRegions_boundaries _ _ _ Hc) as (crops & Eb & Hpos & Hids).
  rewrite Eb in *. rewrite <- Hids in Hnd. rewrite <- Hid.
  exists b. split; [|split; [|split; [|split]]].
  - exact Hb.
  - reflexivity.
  - destruct (drawAll_lookup crops 0 i b Hb) as (crop & Hcrop & _ & Hend).
    rewrite List.Forall_forall in Hpos.
    assert (0 < c_width crop)%Z
      by (apply Hpos, list_elem_of_In, (list_elem_of_lookup_2 _ i), Hcrop).
    lia.
  - intros blk. apply (blockRegion_strip crops i b blk Hpos Hnd Hb).
  - rewrite parseRegionResults_lookup.
    + rewrite (textsOf_strip crops i b) by assumption. reflexivity.
    + apply list_elem_of_fmap. exists b. split; [reflexivity|].
      apply (list_elem_of_lookup_2 _ i). exact Hb.
Qed.

Lemma regions_read_back_witness :
  exists combined b,
    combineRegions sampleFile [regionA; regionB] = Resolved combined
    /\ boundaries combined !! 1 = Some b
    /\ b_id b = id regionB
    /\ (xStart b < xEnd b)%Z
    /\ (forall block,
          blockRegion (boundaries combined) block = Some (id regionB)
          <-> inStrip b block = true)
    /\ parseRegionResults sampleBlocks (boundaries combined) !! id regionB
       = Some (combineTexts (stripTexts b sampleBlocks)).
Proof.
  eexists.
  destruct (regions_read_back sampleFile [regionA; regionB] _ sampleBlocks 1
              regionB eq_refl) as (b & H).
  - apply (bool_decide_unpack _). vm_compute. reflexivity.
  - reflexivity.
  - exists b. split; [reflexivity | exact H].
Defined.

(** ** The rows of the editor page *)

Lemma orElse_nonempty a b : b <> [] -> orElse a b <> [].
Proof. intros Hb. destruct a as [[|ch a]|]; simpl; congruence. Qed.

Lemma combineTexts_nonempty texts : combineTexts texts <> [].
Proof. unfold combineTexts. apply orElse_nonempty. discriminate. Qed.

Lemma orElse_Some v b : v <> [] -> orElse (Some v) b = v.
Proof. destruct v; [congruence | reflexivity]. Qed.

(** A key set by the loop holds the value of the last region with that
    key. *)
Lemma get_fold_set (key value : Rectangle -> jsstring) rects : forall data rect,
  In rect rects ->
  (forall r, In r rects -> key r = key rect -> value r = value rect) ->
  get (fold_left (fun data r => set data (key r) (value r)) rects data) (key rect)
  = Some (value rect).
Proof.
  induction rects as [|r rects IH] using rev_ind; intros data rect Hin Hsame;
    [contradiction|].
  rewrite fold_left_app. cbn [fold_left]. rewrite get_set.
  destruct (strEq (key r) (key rect)) eqn:E.
  - apply strEq_eq in E. f_equal. apply Hsame; [|exact E].
    apply in_or_app. right. left. reflexivity.
  - apply in_app_or in Hin as [Hin|[->|[]]].
    + apply IH; [exact Hin|]. intros r' Hr'. apply Hsame, in_or_app. left. exact Hr'.
    + rewrite strEq_refl in E. discriminate.
Qed.

Lemma fold_set_values (P : jsstring -> Prop) (key value : Rectangle -> jsstring)
  rects : forall data,
  Forall (fun kv => P (snd kv)) data ->
  (forall r, P (value r)) ->
  Forall (fun kv => P (snd kv))
         (fold_left (fun data r => set data (key r) (value r)) rects data).
Proof.
  induction rects as [|r rects IH]; intros data Hdata Hv; [exact Hdata|].
  cbn [fold_left]. apply IH; [|exact Hv]. apply set_values; [exact Hdata | apply Hv].
Qed.

(** X15: one image of the editor page.  When the composite image is
    built and the request is answered, the row of the image holds, for
    every region, the combined text of the blocks centred in the range of
    that region (regions having distinct identifiers); when the route
    answers with an error, every cell of the row reads "-", although the
    values are then stored under the labels and read under the
    identifiers. *)
Theorem image_row rects ocr file combined response :
  combineRegions (snd file) rects = Resolved combined ->
  ocr combined = Resolved response ->
  NoDup (List.map id rects) ->
  exists result,
    processImage rects ocr file = Resolved result
    /\ e_fileName result = fst file
    /\ forall i rect,
         rects !! i = Some rect ->
         match response with
         | None => cellValue result rect = js "-"
         | Some textBlocks =>
             exists b,
               boundaries combined !! i = Some b
               /\ cellValue result rect
                  = combineTexts (stripTexts b (default [] textBlocks))
         end.
Proof.
  intros Hc Hocr Hnd. unfold processImage. rewrite Hc. cbn [andThen].
  rewrite Hocr. cbn [andThen]. eexists. split; [reflexivity|].
  split; [reflexivity|]. intros i rect Hrect. unfold cellValue. cbn [e_data].
  destruct response as [textBlocks|]; cbn [resultData].
  - destruct (regions_read_back_aux _ _ _ (default [] textBlocks) _ _ Hc Hnd Hrect)
      as (b & Hb & Hval).
    exists b. split; [exact Hb|]. cbv zeta.
    rewrite (get_fold_set id
               (fun r => orElse (parseRegionResults (default [] textBlocks)
                                   (boundaries combined) !! id r) (js "-"))).
    + rewrite Hval.
      rewrite !(orElse_Some (combineTexts _)) by apply combineTexts_nonempty.
      reflexivity.
    + apply list_elem_of_In, (list_elem_of_lookup_2 _ i), Hrect.
    + intros r _ ->. reflexivity.
  - pose proof (fold_set_values (fun v => v = js "-") label (fun _ => js "-")
                  rects [] (List.Forall_nil _) (fun _ => eq_refl)) as Hall.
    destruct (get _ (id rect)) as [v|] eqn:E; [|reflexivity].
    apply get_In in E as [k Hk]. rewrite List.Forall_forall in Hall.
    pose proof (Hall _ Hk) as Hv. simpl in Hv. subst v. reflexivity.
Qed.

Lemma image_row_witness :
  exists combined result,
    combineRegions sampleFile [regionA; regionB] = Resolved combined
    /\ processImage [regionA; regionB]
         (fun _ => Resolved (Some (Some sampleBlocks)))
         (js "scan.png", sampleFile)
       = Resolved result
    /\ e_fileName result = js "scan.png"
    /\ forall i rect,
         [regionA; regionB] !! i = Some rect ->
         exists b,
           boundaries combined !! i = Some b
           /\ cellValue result rect
              = combineTexts (stripTexts b (default [] (Some sampleBlocks))).
Proof.
  eexists.
  destruct (image_row [regionA; regionB]
              (fun _ => Resolved (Some (Some sampleBlocks)))
              (js "scan.png", sampleFile) _ (Some (Some sampleBlocks))
              eq_refl eq_refl) as (result & H).
  - apply (bool_decide_unpack _). vm_compute. reflexivity.
  - exists result. split; [reflexivity | exact H].
Defined.

Lemma processImages_spec rects ocr imageFiles :
  match processImages rects ocr imageFiles with
  | Resolved allResults =>
      Forall2 (fun file result => processImage rects ocr file = Resolved result)
              imageFiles allResults
  | Rejected e =>
      Exists (fun file => processImage rects ocr file = Rejected e) imageFiles
  end.
Proof.
  induction imageFiles as [|file rest IH]; cbn [processImages]; [constructor|].
  destruct (processImage rects ocr file) as [result|e] eqn:E; cbn [andThen].
  - destruct (processImages rects ocr rest) as [allResults|e]; cbn [andThen].
    + constructor; assumption.
    + apply Exists_cons_tl. exact IH.
  - apply Exists_cons_hd. exact E.
Qed.

(** X16: a run of the editor page over the images is all or nothing.
    With at least one region and one image, either every image went
    through and the results are one row per image, in the order of the
    images, or some image failed (it could not be composed, or the
    request could not be sent) and the results are empty, the rows of
    the images before it included; the earlier results are replaced in
    both cases. *)
Theorem processOCR_all_or_nothing rects ocr imageFiles results :
  rects <> [] -> imageFiles <> [] ->
  Forall2 (fun file result => processImage rects ocr file = Resolved result)
          imageFiles (processOCR rects ocr imageFiles results)
  \/ (processOCR rects ocr imageFiles results = []
      /\ Exists (fun file => exists e, processImage rects ocr file = Rejected e)
                imageFiles).
Proof.
  intros Hrects Hfiles. unfold processOCR.
  destruct rects as [|rect rects]; [congruence|].
  destruct imageFiles as [|file imageFiles]; [congruence|].
  pose proof (processImages_spec (rect :: rects) ocr (file :: imageFiles)) as H.
  destruct (processImages (rect :: rects) ocr (file :: imageFiles)) as [rs|e].
  - left. exact H.
  - right. split; [reflexivity|].
    eapply Exists_impl; [exact H|]. intros f Hf. exists e. exact Hf.
Qed.

Lemma processOCR_all_or_nothing_witness :
  Forall2 (fun file result =>
             processImage [regionA; flatRegion] (fun _ => Resolved None) file
             = Resolved result)
          [(js "scan.png", sampleFile)]
          (processOCR [regionA; flatRegion] (fun _ => Resolved None)
             [(js "scan.png", sampleFile)] [awkwardResult])
  \/ (processOCR [regionA; flatRegion] (fun _ => Resolved None)
        [(js "scan.png", sampleFile)] [awkwardResult] = []
      /\ Exists (fun file =>
                   exists e,
                     processImage [regionA; flatRegion] (fun _ => Resolved None)
                       file = Rejected e)
                [(js "scan.png", sampleFile)]).
Proof.
  apply (processOCR_all_or_nothing [regionA; flatRegion]
           (fun _ => Resolved None) [(js "scan.png", sampleFile)]
           [awkwardResult]); discriminate.
Defined.

(** ** The batch route *)

Import Batch.

Lemma batchResultsFrom_ids batch responses : forall idx,
  List.map res_id (batchResultsFrom idx batch responses) = List.map br_id batch.
Proof.
  induction batch as [|img rest IH]; intros idx; [reflexivity|].
  cbn [batchResultsFrom List.map]. rewrite IH. f_equal.
  unfold imageResult. destruct (annotationsAt responses idx) as [[|d ds]|];
    reflexivity.
Qed.

Lemma take_drop_step {A} (l : list A) i n :
  take n (drop i l) ++ drop (i + n) l = drop i l.
Proof. rewrite <- drop_drop. apply take_drop. Qed.

(** The loop ends within the turns allowed, and its results carry the
    identifiers of the images from [i] on, in order. *)
Lemma loop_ids visionClient images : forall turns i allResults,
  length images - i < turns ->
  exists outcome,
    loop turns visionClient images i allResults = Some outcome
    /\ forall results,
         outcome = Resolved results ->
         List.map res_id results
         = List.map res_id allResults ++ List.map br_id (drop i images).
Proof.
  induction turns as [|turns IH]; intros i allResults Hturns; [lia|].
  cbn [loop]. destruct (Nat.ltb_spec i (length images)) as [Hi|Hi].
  - destruct (visionClient _) as [responses|e].
    + destruct (IH (i + BATCH_SIZE)
                  (allResults ++ batchResultsFrom 0 (take BATCH_SIZE (drop i images))
                                   responses))
        as (outcome & Hloop & Hids); [unfold BATCH_SIZE; lia|].
      exists outcome. split; [exact Hloop|]. intros results Hres.
      rewrite (Hids results Hres), List.map_app, batchResultsFrom_ids.
      rewrite <- app_assoc, <- List.map_app, take_drop_step. reflexivity.
    + eexists. split; [reflexivity|]. discriminate.
  - eexists. split; [reflexivity|]. intros results [= <-].
    rewrite drop_ge by lia. rewrite app_nil_r. reflexivity.
Qed.

(** The loop only asks the client about sixteen images or fewer. *)
Lemma loop_batches client client' images : forall turns i allResults,
  (forall contents, length contents <= BATCH_SIZE ->
                    client contents = client' contents) ->
  loop turns client images i allResults = loop turns client' images i allResults.
Proof.
  induction turns as [|turns IH]; intros i allResults Hsame; [reflexivity|].
  cbn [loop]. destruct (i <? length images); [|reflexivity].
  rewrite Hsame by (rewrite length_map, length_take; lia).
  destruct (client' _); [apply IH; exact Hsame | reflexivity].
Qed.

(** X17: the batch route answers every request; it answers 400 exactly
    when no image is given; when it answers with results there is one
    result per image, in the order of the request and with the
    identifiers of the request; and it never asks the detector about more
    than sixteen images at once (its answer does not depend on what the
    detector would say to a longer request). *)
Theorem batch_route getClient images :
  exists outcome,
    POST getClient images = Some outcome
    /\ (outcome = BadRequest <-> images = None \/ images = Some [])
    /\ (forall results total,
          outcome = Processed results total ->
          exists requested,
            images = Some requested
            /\ total = length requested
            /\ List.map res_id results = List.map br_id requested)
    /\ (forall client client',
          getClient = Resolved client ->
          (forall contents, length contents <= 16 ->
                            client contents = client' contents) ->
          POST (Resolved client') images = Some outcome).
Proof.
  unfold POST. destruct images as [[|img images]|].
  - exists BadRequest. repeat split; auto; discriminate.
  - destruct getClient as [client|e].
    + destruct (loop_ids client (img :: images) (S (length (img :: images))) 0 [])
        as (outcome & Hloop & Hids); [lia|].
      rewrite Hloop.
      exists (match outcome with
              | Resolved allResults => Processed allResults (length (img :: images))
              | Rejected e => Failed e
              end).
      split; [destruct outcome; reflexivity|]. split; [|split].
      * split; [destruct outcome; discriminate | intros [H|H]; discriminate].
      * intros results total H. exists (img :: images).
        destruct outcome as [allResults|e]; [|discriminate].
        injection H as <- <-. repeat split. apply (Hids allResults eq_refl).
      * intros c c' [= <-] Hsame.
        rewrite <- (loop_batches client c' (img :: images)) by exact Hsame.
        rewrite Hloop. destruct outcome; reflexivity.
    + exists (Failed e). repeat split; try discriminate.
      intros [H|H]; discriminate.
  - exists BadRequest. repeat split; auto; discriminate.
Qed.

Lemma batchResultsFrom_per_image detect : forall rest pre,
  batchResultsFrom (length pre) rest
    (Some (List.map detect (List.map imageBase64 (pre ++ rest))))
  = List.map (fun img => imageResult img (detect (imageBase64 img))) rest.
Proof.
  induction rest as [|img rest IH]; intros pre; [reflexivity|].
  cbn [batchResultsFrom List.map]. f_equal.
  - f_equal. unfold annotationsAt. rewrite !List.map_app. cbn [List.map].
    rewrite (list_lookup_middle _ _ _ (length pre))
      by (rewrite !length_map; reflexivity).
    reflexivity.
  - specialize (IH (pre ++ [img])). rewrite length_app in IH. cbn [length] in IH.
    replace (length pre + 1) with (S (length pre)) in IH by lia.
    rewrite <- app_assoc in IH. exact IH.
Qed.

Lemma loop_per_image detect client images : forall turns i allResults,
  (forall contents, length contents <= BATCH_SIZE ->
                    client contents = Resolved (Some (List.map detect contents))) ->
  length images - i < turns ->
  loop turns client images i allResults
  = Some (Resolved
            (allResults
             ++ List.map (fun img => imageResult img (detect (imageBase64 img)))
                         (drop i images))).
Proof.
  induction turns as [|turns IH]; intros i allResults Hclient Hturns; [lia|].
  cbn [loop]. destruct (Nat.ltb_spec i (length images)) as [Hi|Hi].
  - rewrite Hclient by (rewrite length_map, length_take; lia).
    rewrite IH by (assumption || unfold BATCH_SIZE; lia).
    pose proof (batchResultsFrom_per_image detect
                  (take BATCH_SIZE (drop i images)) []) as Hbatch.
    cbn [length app] in Hbatch. rewrite Hbatch.
    rewrite <- app_assoc, <- List.map_app, take_drop_step. reflexivity.
  - rewrite drop_ge by lia. rewrite app_nil_r. reflexivity.
Qed.

Lemma POST_per_image detect client images :
  images <> [] ->
  (forall contents,
      length contents <= 16 ->
      client contents = Resolved (Some (List.map detect contents))) ->
  POST (Resolved client) (Some images)
  = Some (Processed
            (List.map (fun img => imageResult img (detect (imageBase64 img)))
                      images)
            (length images)).
Proof.
  intros Hne Hclient.
  unfold POST. destruct images as [|img images]; [congruence|].
  rewrite (loop_per_image detect) by (assumption || lia).
  reflexivity.
Qed.

(** X18: the batches do not show in the answer.  When the detector
    answers each request with the annotations of its images, one by one
    and in order, the batch route returns for every image of the request,
    however many there are, the result of that image alone: the failure
    "No text found" when the detector found nothing, and otherwise the
    text and the blocks the single-image route computes for the image
    type of that image. *)
Theorem batch_is_per_image detect client images :
  images <> [] ->
  (forall contents,
      length contents <= 16 ->
      client contents = Resolved (Some (List.map detect contents))) ->
  POST (Resolved client) (Some images)
  = Some (Processed
            (List.map (fun img => imageResult img (detect (imageBase64 img)))
                      images)
            (length images))
  /\ forall img,
       In img images ->
       match detect (imageBase64 img) with
       | None | Some [] =>
           imageResult img (detect (imageBase64 img))
           = {| res_id := br_id img; res_success := false;
                res_error := Some (js "No text found");
                res_fullText := []; res_textBlocks := [] |}
       | Some detections =>
           Route.POST (Some detections) (br_imageType img)
           = Success (res_fullText (imageResult img (detect (imageBase64 img))))
                     (res_textBlocks (imageResult img (detect (imageBase64 img))))
       end.
Proof.
  intros Hne Hclient. split.
  - apply POST_per_image; assumption.
  - intros img _. destruct (detect (imageBase64 img)) as [[|d ds]|]; reflexivity.
Qed.

Lemma batch_is_per_image_witness :
  POST (Resolved pageClient) (Some twentyImages)
  = Some (Processed
            (List.map (fun img => imageResult img (samePage (imageBase64 img)))
                      twentyImages)
            (length twentyImages)).
Proof.
  apply (batch_is_per_image samePage pageClient twentyImages).
  - discriminate.
  - intros contents _. reflexivity.
Defined.

(** ** The automatic page and the route together *)

Lemma processResults_rows fieldNames imageType detect : forall files index,
  processResults fieldNames (List.map f_name files)
    (List.map itemOf
       (List.map (fun img => imageResult img (detect (imageBase64 img)))
          (imap (fun i file =>
                   {| br_id := Number_toString (index + i) ++ js "-" ++ f_name file;
                      imageBase64 := f_base64 file;
                      br_imageType := imageType |}) files)))
  = Some (List.map (rowOf fieldNames imageType detect) files).
Proof.
  induction files as [|file files IH]; intros index; [reflexivity|].
  cbn [imap List.map processResults head tail processResult].
  assert (imap ((fun i file0 =>
                   {| br_id := Number_toString (index + i) ++ js "-" ++ f_name file0;
                      imageBase64 := f_base64 file0;
                      br_imageType := imageType |}) ∘ S) files
          = imap (fun i file0 =>
                   {| br_id := Number_toString (S index + i) ++ js "-" ++ f_name file0;
                      imageBase64 := f_base64 file0;
                      br_imageType := imageType |}) files) as ->.
  { apply imap_ext. intros i f _. unfold compose.
    replace (index + S i) with (S index + i) by lia. reflexivity. }
  rewrite (IH (S index)). unfold rowOf at 2. cbn [imageBase64 br_id br_imageType].
  unfold imageResult, itemOf.
  destruct (detect (f_base64 file)) as [[|d ds]|]; reflexivity.
Qed.

(** X19: the automatic page and the batch route together.  When the
    detector answers each request with the annotations of its images, the
    page ends with one row per selected file, in the order of the files:
    the row of a file carries the name of that file and the fields parsed
    from the text the route computed for that very file, and an empty
    record when the detector found no text on it.  The earlier results
    are replaced. *)
Theorem processFiles_rows detect client files fieldNames imageType results :
  files <> [] ->
  (forall contents,
      length contents <= 16 ->
      client contents = Resolved (Some (List.map detect contents))) ->
  processFiles (fun images => POST (Resolved client) (Some images))
    files fieldNames imageType results
  = Some (List.map (rowOf fieldNames imageType detect) files).
Proof.
  intros Hne Hclient. unfold processFiles.
  destruct files as [|file files]; [congruence|].
  rewrite (POST_per_image detect) by (assumption || discriminate).
  unfold batchImages.
  pose proof (processResults_rows fieldNames imageType detect (file :: files) 0)
    as Hrows.
  cbn [Nat.add] in Hrows. rewrite Hrows. reflexivity.
Qed.

Lemma processFiles_rows_witness :
  processFiles (fun images => POST (Resolved pageClient) (Some images))
    twoFiles (js "k, ac, pupil") (js "full") []
  = Some (List.map (rowOf (js "k, ac, pupil") (js "full") samePage) twoFiles).
Proof.
  apply (processFiles_rows samePage pageClient twoFiles).
  - discriminate.
  - intros contents _. reflexivity.
Defined.

(** ** Where the blocks of a full page lie *)





(** ** Logging in *)

Import Auth.

(** X21: the login route sets the cookie exactly when the body holds a
    password that is a non-empty string equal to the configured password
    and the token can be signed; the cookie is then the signed token.  In
    particular, when no password is configured (the variable is unset or
    empty) no request logs in, whatever it sends. *)
Theorem login_needs_the_password env createToken body :
  (forall cookie,
      login env createToken body = LoggedIn cookie
      <-> exists password,
            body = Resolved (JString password)
            /\ password <> []
            /\ env = Some password
            /\ createToken = Resolved cookie)
  /\ (AUTH_PASSWORD env = [] ->
      forall cookie, login env createToken body <> LoggedIn cookie).
Proof.
  assert (forall cookie,
      login env createToken body = LoggedIn cookie
      <-> exists password,
            body = Resolved (JString password)
            /\ password <> []
            /\ env = Some password
            /\ createToken = Resolved cookie) as Hiff.
  { intros cookie. unfold login. split.
    - destruct body as [password|e]; [|discriminate].
      destruct (falsy password) eqn:Ef; [discriminate|].
      destruct (verifyPassword env password) eqn:Ev; [|discriminate].
      cbn [negb]. destruct createToken as [token|e]; [|discriminate].
      intros [= <-]. destruct password as [| |b|n|s|]; try discriminate.
      cbn [verifyPassword] in Ev. apply strEq_eq in Ev.
      exists s. destruct s as [|ch s]; [discriminate|].
      repeat split; [discriminate|].
      unfold AUTH_PASSWORD in Ev. destruct env as [[|ch' env]|];
        simpl in Ev; congruence.
    - intros (password & -> & Hne & -> & ->).
      destruct password as [|ch password]; [congruence|].
      cbn [falsy verifyPassword AUTH_PASSWORD orElse].
      rewrite strEq_refl. reflexivity. }
  split; [exact Hiff|].
  intros Hempty cookie H. apply Hiff in H as (password & _ & Hne & -> & _).
  destruct password; [congruence | discriminate].
Qed.
